(** * BigInteger and Rational (src/BigInteger/biginteger.h)

    A shallow embedding of the arbitrary-precision integer and of the exact
    rational built on it, followed by the properties the specification states
    about them.

    Conventions of the embedding.
    - [int] is modelled by [Z]; C++ [/] and [%] on [int] truncate toward zero
      and are [Z.quot] and [Z.rem].  The 32-bit range matters in two places,
      and both model it: the constructor from [int] ([abs] has no value at
      [INT_MIN]) and the carry loop of [operator*=], whose sums can leave
      the range once both operands have more than 216917 groups and are then
      kept in range by wrap-around ([wrap_int]).  Everywhere else the groups
      of well-formed operands stay below 200 in absolute value.
    - [std::vector<int>] is [list Z], least significant group first, as in the
      source; [std::string] is [list ascii].
    - A member function that mutates [*this] becomes a function returning the
      new object.  The arguments are distinct objects (no aliasing), as in the
      free operators, which copy their left operand first.
    - A call that does not return normally (an exception of the standard
      library, undefined behaviour, a loop out of fuel) is [None].
    - The double-precision part of [operator*=] (the three calls of [FFT], the
      pointwise product and the rounding) is a parameter, [FloatModel]. *)

From Stdlib Require Import String Ascii DecimalString.
From Stdlib Require Import ZArith QArith List Bool Arith Lia.
Import ListNotations.
Local Open Scope list_scope.
Local Open Scope Z_scope.

(* ================================================================= *)
(** ** Small prelude *)

Definition obind {A B : Type} (o : option A) (f : A -> option B) : option B :=
  match o with
  | Some x => f x
  | None => None
  end.

Notation "x <- e ;; k" := (obind e (fun x => k))
  (at level 61, e at next level, right associativity).

(** A string literal as a [std::string]. *)
Definition str (s : string) : list ascii := list_ascii_of_string s.

(** [std::vector::resize(n, v)]. *)
Definition resize {A : Type} (n : nat) (v : A) (l : list A) : list A :=
  firstn n l ++ repeat v (n - length l).

(* ================================================================= *)
(** ** Sign *)

Inductive Sign : Type :=
| plus   (* = 1 *)
| minus  (* = -1 *).

Definition Sign_eqb (x y : Sign) : bool :=
  match x, y with
  | plus, plus | minus, minus => true
  | _, _ => false
  end.

(** [Sign operator*(Sign x, Sign y)]. *)
Definition sign_mul (x y : Sign) : Sign :=
  if Sign_eqb x y then plus else minus.

(** [static_cast<Sign>(v)] for the two values of the enumeration. *)
Definition Sign_of_int (v : Z) : Sign :=
  if v =? -1 then minus else plus.

(* ================================================================= *)
(** ** BigInteger: the data *)

Record BigInteger : Type := mkBigInteger {
  a : list Z;
  sign : Sign
}.

Definition base : Z := 100.
Definition base_len : nat := 2.

Definition size (x : BigInteger) : nat := length (a x).

Definition set_sign (x : BigInteger) (new_sign : Sign) : BigInteger :=
  {| a := a x; sign := new_sign |}.

Definition is_zero (x : BigInteger) : bool :=
  match a x with
  | [d] => d =? 0
  | _ => false
  end.

Definition is_one (x : BigInteger) : bool :=
  match a x with
  | [d] => d =? 1
  | _ => false
  end.

(** [BigInteger()] *)
Definition BigInteger_default : BigInteger := {| a := [0]; sign := plus |}.

(* ================================================================= *)
(** ** Private helpers *)

(** [std::to_string(int)]. *)
Definition to_string (x : Z) : list ascii :=
  list_ascii_of_string (NilZero.string_of_int (Z.to_int x)).

(** [number_to_string]: [base_len - result.size()] is computed in [size_t];
    when the decimal text is longer than [base_len] it wraps around and the
    [std::string] constructor throws [std::length_error]. *)
Definition number_to_string (x : Z) : option (list ascii) :=
  let result := to_string x in
  if (length result <=? base_len)%nat
  then Some (repeat "0"%char (base_len - length result) ++ result)
  else None.

(** [reverse(std::string&)]: the in-place swap loop reverses the string. *)
Definition reverse (s : list ascii) : list ascii := rev s.

(** The loop [while (x.size() > 1 && x.back() == 0) x.pop_back();] run on the
    vector read from its back: [r] is the reversed vector, its head is
    [x.back()], and [x.size() > 1] says that the tail is not empty. *)
Fixpoint drop_zeros {A : Type} (isz : A -> bool) (r : list A) : list A :=
  match r with
  | d :: (_ :: _) as t => if isz d then drop_zeros isz t else r
  | _ => r
  end.

Definition pop_back_zeros {A : Type} (isz : A -> bool) (x : list A) : list A :=
  rev (drop_zeros isz (rev x)).

(** [delete_trailing_zeroes(std::vector<int>&)] *)
Definition delete_trailing_zeroes (x : list Z) : list Z :=
  pop_back_zeros (fun d => d =? 0) x.

(** [delete_trailing_zeroes(std::string&)] *)
Definition delete_trailing_zeroes_str (s : list ascii) : list ascii :=
  reverse (pop_back_zeros (fun c => Ascii.eqb c "0") (reverse s)).

(** [sgn]: [(0 <= x) - (x < 0)] cast to [Sign]. *)
Definition sgn (x : Z) : Sign :=
  Sign_of_int ((if 0 <=? x then 1 else 0) - (if x <? 0 then 1 else 0)).

(** The first loop of [abs_subtract_small_from_big], over [i < small.size()]:
    [a[i] -= small[i]; a[i] *= sign_fl].  The callers guarantee
    [small.size() <= a.size()] after the resize (see
    [less_abs_false_size]); the last case is outside that domain. *)
Fixpoint subtract_groups (x small : list Z) (sign_fl : Z) : list Z :=
  match x, small with
  | d :: x', e :: small' => (d - e) * sign_fl :: subtract_groups x' small' sign_fl
  | _, [] => x
  | [], _ :: _ => []
  end.

(** The second loop of [abs_subtract_small_from_big]: borrow propagation. *)
Fixpoint borrow_loop (x : list Z) (subtract : Z) : list Z :=
  match x with
  | [] => []
  | d :: x' =>
      let d1 := d - subtract in
      if d1 <? 0 then (d1 + base) :: borrow_loop x' 1
      else d1 :: borrow_loop x' 0
  end.

Definition abs_subtract_small_from_big
    (this small : BigInteger) (fl : bool) : BigInteger :=
  let len_small := size small in
  let len_big := size this in
  let len_big := if fl then len_small else len_big in
  let x := resize len_big 0 (a this) in
  let sign_fl := if fl then -1 else 1 in
  let x := subtract_groups x (a small) sign_fl in
  let x := borrow_loop x 0 in
  {| a := delete_trailing_zeroes x; sign := sign this |}.

(** The loop of [less_abs], on both vectors read from the most significant
    group: the first mismatch decides. *)
Fixpoint less_from_top (l r : list Z) : bool :=
  match l, r with
  | x :: l', y :: r' => if negb (x =? y) then x <? y else less_from_top l' r'
  | _, _ => false
  end.

Definition less_abs (lhs rhs : BigInteger) : bool :=
  if negb (size lhs =? size rhs)%nat then (size lhs <? size rhs)%nat
  else less_from_top (rev (a lhs)) (rev (a rhs)).

(** The loop of [div10], from the most significant group down. *)
Fixpoint div10_loop (r : list Z) (add : Z) : list Z :=
  match r with
  | [] => []
  | d :: r' =>
      let cur := d + add * base in
      Z.quot cur 10 :: div10_loop r' (Z.rem cur 10)
  end.

Definition div10 (x : BigInteger) : BigInteger :=
  {| a := delete_trailing_zeroes (rev (div10_loop (rev (a x)) 0));
     sign := sign x |}.

(* ================================================================= *)
(** ** Constructors and text *)

(** [s[j] - '0'] *)
Definition digit_of (c : ascii) : Z := Z.of_nat (nat_of_ascii c) - 48.

(** The inner loop of the parse constructor over one window of characters. *)
Definition window_number (w : list ascii) : Z :=
  fold_left (fun number c => number * 10 + digit_of c) w 0.

(** The outer loop: [r] holds the characters from the last one back to
    position [cur]; each turn consumes a window of [base_len] = 2 characters,
    the last window being cut at [cur]. *)
Fixpoint parse_groups (r : list ascii) : list Z :=
  match r with
  | [] => []
  | [c0] => [window_number [c0]]
  | c0 :: c1 :: r' => window_number [c1; c0] :: parse_groups r'
  end.

(** [BigInteger(const std::string&)] *)
Definition BigInteger_of_string (s : list ascii) : BigInteger :=
  let '(sg, cur) :=
    match s with
    | "-"%char :: _ => (minus, 1%nat)
    | _ => (plus, 0%nat)
    end in
  {| a := delete_trailing_zeroes (parse_groups (rev (skipn cur s)));
     sign := sg |}.

Definition INT_MIN : Z := - 2 ^ 31.
Definition INT_MAX : Z := 2 ^ 31 - 1.

(** An [int] sum that leaves the 32-bit range keeps its low 32 bits, read
    in two's complement: what the compiled carry loop of [operator*=] does
    with [res[i] += add]. *)
Definition wrap_int (z : Z) : Z := (z - INT_MIN) mod 2 ^ 32 + INT_MIN.

(** [abs(int)]: undefined for [INT_MIN]. *)
Definition int_abs (x : Z) : option Z :=
  if x =? INT_MIN then None else Some (Z.abs x).

(** The do-while loop of [BigInteger(int)]. *)
Fixpoint int_groups (fuel : nat) (x : Z) : option (list Z) :=
  match fuel with
  | O => None
  | S fuel' =>
      let d := Z.rem x base in
      let x' := Z.quot x base in
      if 0 <? x' then tl <- int_groups fuel' x' ;; Some (d :: tl)
      else Some [d]
  end.

(** [BigInteger(int)]; every turn of the loop divides by 100, so 32 turns are
    more than a 32-bit value needs. *)
Definition BigInteger_of_int (x : Z) : option BigInteger :=
  let sg := sgn x in
  x' <- int_abs x ;;
  g <- int_groups 32 x' ;;
  Some {| a := g; sign := sg |}.

(** The loop of [toString] over the groups, most significant first. *)
Fixpoint concat_groups (r : list Z) : option (list ascii) :=
  match r with
  | [] => Some []
  | d :: r' =>
      s <- number_to_string d ;;
      rest <- concat_groups r' ;;
      Some (s ++ rest)
  end.

(** [toString]; with an empty vector the first access is [a[size_t(-1)]]. *)
Definition toString (x : BigInteger) : option (list ascii) :=
  match a x with
  | [] => None
  | _ =>
      res <- concat_groups (rev (a x)) ;;
      let res := delete_trailing_zeroes_str res in
      Some (match sign x with
            | minus => "-"%char :: res
            | plus => res
            end)
  end.


(* ================================================================= *)
(** ** Multiplication *)

(** The floating-point side of [operator*=].  The transform works on
    [double]s built from [cos] and [sin]; its arithmetic is not modelled, and
    the properties below say which facts about it they use: none (the
    invariants), commutativity of the complex product (commutativity of
    [operator*=]), or exactness of the rounded result, for the value of a
    product: at the one product computed ([exact_product]), at the products
    whose shorter operand has at most a given number of groups
    ([exact_upto]), or at all of them ([exact_fft]).  [complex] stands for
    [std::complex<double>], [c_of_int] for the conversion of a group,
    [c_zero] for the value-initialised elements [resize] appends, [c_mul] for
    the product in [fa[i] *= fb[i]], [FFT] for the function of that name (it
    works in place on a vector and is here a function of the vector and of
    [invert]) and [round_real z] for [static_cast<int>(z.real() + 0.5)]. *)
Class FloatModel : Type := {
  complex : Type;
  c_of_int : Z -> complex;
  c_zero : complex;
  c_mul : complex -> complex -> complex;
  FFT : list complex -> bool -> list complex;
  round_real : complex -> Z
}.

(** [size_t n = 1; while (n < m) n <<= 1;] with [m] turns of fuel, which is
    enough since [2 ^ m >= m] (see [grow_ge]). *)
Fixpoint grow (fuel n m : nat) : nat :=
  match fuel with
  | O => n
  | S fuel' => if (n <? m)%nat then grow fuel' (2 * n) m else n
  end.

Definition fft_size (sa sb : nat) : nat :=
  let m := Nat.max sa sb in
  (2 * grow m 1%nat m)%nat.

(** Lines 168-184: both operands are converted, padded to [n], transformed,
    multiplied pointwise, transformed back and rounded into [res]. *)
Definition fft_multiply `{FloatModel} (x y : list Z) (n : nat) : list Z :=
  let fa := resize n c_zero (map c_of_int x) in
  let fb := resize n c_zero (map c_of_int y) in
  let fa := FFT fa false in
  let fb := FFT fb false in
  let fa := map (fun i => c_mul (nth i fa c_zero) (nth i fb c_zero)) (seq 0 n) in
  let fa := FFT fa true in
  map (fun i => round_real (nth i fa c_zero)) (seq 0 n).

(** The carry loop over [res]: [res[i] += add; add = res[i] / base;
    res[i] %= base].  [res] and [add] are [int]s, so the sum is an [int]
    ([wrap_int]): it is the sum itself as long as that is at most [INT_MAX],
    which holds when one operand has at most 216917 groups; past that it
    can be a negative number, and the group with it.  The carry left after
    the last group is dropped, as in the source. *)
Fixpoint carry_loop (res : list Z) (add : Z) : list Z :=
  match res with
  | [] => []
  | d :: res' =>
      let d1 := wrap_int (d + add) in
      Z.rem d1 base :: carry_loop res' (Z.quot d1 base)
  end.

(** [operator*=] *)
Definition op_mul_assign `{FloatModel} (this x : BigInteger) : BigInteger :=
  let n := fft_size (size this) (size x) in
  let res := fft_multiply (a this) (a x) n in
  let res := carry_loop res 0 in
  let res := delete_trailing_zeroes res in
  let this := {| a := res; sign := sign_mul (sign this) (sign x) |} in
  if is_zero this then set_sign this plus else this.

(* ================================================================= *)
(** ** Addition and subtraction *)

(** The loop of the equal-signs branch of [operator+=]: [x0] is [a] after
    [resize(len, 0)], [x1] is read as [(i < x.size() ? x[i] : 0)]; the final
    carry is pushed at the end. *)
Fixpoint add_loop (x0 x1 : list Z) (add : Z) : list Z :=
  match x0 with
  | [] => [add]
  | d :: x0' =>
      let d1 := d + hd 0 x1 + add in
      Z.rem d1 base :: add_loop x0' (tl x1) (Z.quot d1 base)
  end.

(** [operator+=] *)
Definition op_add_assign (this x : BigInteger) : BigInteger :=
  let lhs_sign := sign this in
  let rhs_sign := sign x in
  let this :=
    if Sign_eqb lhs_sign rhs_sign then
      let len := Nat.max (size this) (size x) in
      {| a := add_loop (resize len 0 (a this)) (a x) 0; sign := lhs_sign |}
    else
      let this :=
        if less_abs this x
        then set_sign (abs_subtract_small_from_big this x true) rhs_sign
        else set_sign (abs_subtract_small_from_big this x false) lhs_sign in
      if is_zero this then set_sign this plus else this in
  {| a := delete_trailing_zeroes (a this); sign := sign this |}.

(** [operator-=] *)
Definition op_sub_assign (this x : BigInteger) : BigInteger :=
  let copy := set_sign x (sign_mul (sign x) minus) in
  op_add_assign this copy.

(** The literal [1] converted by [BigInteger(int)]: one turn of its loop
    (see [int_literals]). *)
Definition BigInteger_one : BigInteger := {| a := [1]; sign := plus |}.

(** [operator++()] and the new value of [operator++(int)] *)
Definition op_incr (this : BigInteger) : BigInteger :=
  op_add_assign this BigInteger_one.

(** [operator--()] and the new value of [operator--(int)] *)
Definition op_decr (this : BigInteger) : BigInteger :=
  op_sub_assign this BigInteger_one.

(** [operator-() const] *)
Definition op_neg (this : BigInteger) : BigInteger :=
  if negb (is_zero this) then set_sign this (sign_mul (sign this) minus)
  else this.

(* ================================================================= *)
(** ** Division and modulo *)

(** The inner loop of [operator/=]: at most [k] further subtractions. *)
Fixpoint digit_loop (k : nat) (this sub : BigInteger) (number : Z)
  : BigInteger * Z :=
  match k with
  | O => (this, number)
  | S k' =>
      if less_abs this sub then (this, number)
      else digit_loop k' (op_sub_assign this sub) sub (number + 1)
  end.

(** [char('0' + number)] *)
Definition digit_char (number : Z) : ascii :=
  ascii_of_nat (Z.to_nat (48 + number)).

(** The outer loop of [operator/=]: one turn per value of [degree], from its
    initial value down to 0. *)
Fixpoint div_loop (turns : nat) (this sub : BigInteger) (result : list ascii)
  : BigInteger * list ascii :=
  match turns with
  | O => (this, result)
  | S turns' =>
      let '(this, number) := digit_loop 9 this sub 0 in
      div_loop turns' this (div10 sub) (result ++ [digit_char number])
  end.

(** [operator/=] *)
Definition op_div_assign (this x : BigInteger) : option BigInteger :=
  if (size this <? size x)%nat then Some {| a := [0]; sign := plus |}
  else
    let x_abs := set_sign x plus in
    divisor <- toString x_abs ;;
    let sg := sign_mul (sign this) (sign x) in
    let result := match sg with minus => ["-"%char] | plus => [] end in
    let this := set_sign this plus in
    let degree := ((size this - size x + 1) * base_len)%nat in
    let divisor := divisor ++ repeat "0"%char degree in
    let sub := BigInteger_of_string divisor in
    let '(_, result) := div_loop (S degree) this sub result in
    let this := BigInteger_of_string result in
    let this := {| a := delete_trailing_zeroes (a this); sign := sign this |} in
    Some (if is_zero this then set_sign this plus else this).

(** [operator%=] *)
Definition op_mod_assign `{FloatModel} (this x : BigInteger)
  : option BigInteger :=
  copy <- op_div_assign this x ;;
  let copy := op_mul_assign copy x in
  let this := op_sub_assign this copy in
  Some (if is_zero this then set_sign this plus else this).

(** The loop of [gcd]: [while (b) { a %= b; std::swap(a, b); }]. *)
Fixpoint gcd_loop `{FloatModel} (fuel : nat) (x y : BigInteger)
  : option BigInteger :=
  match fuel with
  | O => None
  | S fuel' =>
      if negb (is_zero y) then
        x <- op_mod_assign x y ;;
        gcd_loop fuel' y x
      else Some x
  end.

(** [operator==] *)
Fixpoint groups_eqb (l r : list Z) : bool :=
  match l, r with
  | x :: l', y :: r' => if negb (x =? y) then false else groups_eqb l' r'
  | _, _ => true
  end.

Definition op_eq (lhs rhs : BigInteger) : bool :=
  if negb (Sign_eqb (sign lhs) (sign rhs)) then false
  else if negb (size lhs =? size rhs)%nat then false
  else groups_eqb (a lhs) (a rhs).

(** [gcd].  Two turns of the loop at least halve [b], and a vector of [s]
    groups holds a value below [2 ^ (7 * s)]: [14 * s + 1] turns of fuel are
    enough (see [gcd_loop_spec]). *)
Definition gcd `{FloatModel} (x y : BigInteger) : option BigInteger :=
  gcd_loop (14 * size y + 1) x y.

(** The free operators copy their left operand and apply the compound
    assignment to the copy. *)
Definition op_mul `{FloatModel} (lhs rhs : BigInteger) : BigInteger :=
  op_mul_assign lhs rhs.

Definition op_add (lhs rhs : BigInteger) : BigInteger :=
  op_add_assign lhs rhs.

Definition op_sub (lhs rhs : BigInteger) : BigInteger :=
  op_sub_assign lhs rhs.

Definition op_div (lhs rhs : BigInteger) : option BigInteger :=
  op_div_assign lhs rhs.

Definition op_mod `{FloatModel} (lhs rhs : BigInteger) : option BigInteger :=
  op_mod_assign lhs rhs.

(* ================================================================= *)
(** ** Rational *)

Record Rational : Type := mkRational {
  numerator : BigInteger;
  denominator : BigInteger;
  rsign : Sign   (* the member [sign] of [Rational] *)
}.

Definition Rational_is_zero (r : Rational) : bool := is_zero (numerator r).

(** [normalize] *)
Definition normalize `{FloatModel} (r : Rational) : option Rational :=
  let sg := sign_mul (rsign r) (sign (numerator r)) in
  let num := set_sign (numerator r) plus in
  let sg := if is_zero num then plus else sg in
  g <- gcd num (denominator r) ;;
  if is_one g then
    Some {| numerator := num; denominator := denominator r; rsign := sg |}
  else
    num <- op_div_assign num g ;;
    den <- op_div_assign (denominator r) g ;;
    Some {| numerator := num; denominator := den; rsign := sg |}.

(** [Rational()] : numerator(0), denominator(1). *)
Definition Rational_default : Rational :=
  {| numerator := {| a := [0]; sign := plus |};
     denominator := BigInteger_one;
     rsign := plus |}.

(** [Rational(const BigInteger&)] *)
Definition Rational_of_BigInteger (x : BigInteger) : Rational :=
  {| numerator := set_sign x plus;
     denominator := BigInteger_one;
     rsign := sign x |}.

(** [Rational(int)] *)
Definition Rational_of_int (x : Z) : option Rational :=
  num <- BigInteger_of_int x ;;
  Some (Rational_of_BigInteger num).

(** [Rational::operator*=] *)
Definition R_mul_assign `{FloatModel} (this x : Rational) : option Rational :=
  normalize
    {| numerator := op_mul_assign (numerator this) (numerator x);
       denominator := op_mul_assign (denominator this) (denominator x);
       rsign := sign_mul (rsign this) (rsign x) |}.

(** [Rational::operator+=] *)
Definition R_add_assign `{FloatModel} (this x : Rational) : option Rational :=
  let num := set_sign (numerator this) (rsign this) in
  let num := op_mul_assign num (denominator x) in
  let cross := op_mul_assign (numerator x) (denominator this) in
  let num :=
    match rsign x with
    | plus => op_add_assign num cross
    | minus => op_sub_assign num cross
    end in
  normalize
    {| numerator := num;
       denominator := op_mul_assign (denominator this) (denominator x);
       rsign := plus |}.

(** [Rational::operator-=] *)
Definition R_sub_assign `{FloatModel} (this x : Rational) : option Rational :=
  let num := set_sign (numerator this) (rsign this) in
  let num := op_mul_assign num (denominator x) in
  let cross := op_mul_assign (numerator x) (denominator this) in
  let num :=
    match rsign x with
    | plus => op_sub_assign num cross
    | minus => op_add_assign num cross
    end in
  normalize
    {| numerator := num;
       denominator := op_mul_assign (denominator this) (denominator x);
       rsign := plus |}.

(** [Rational::operator/=] *)
Definition R_div_assign `{FloatModel} (this x : Rational) : option Rational :=
  normalize
    {| numerator := op_mul_assign (numerator this) (denominator x);
       denominator := op_mul_assign (denominator this) (numerator x);
       rsign := sign_mul (rsign this) (rsign x) |}.

(** [Rational::operator-() const] *)
Definition R_neg `{FloatModel} (this : Rational) : option Rational :=
  normalize
    {| numerator := numerator this;
       denominator := denominator this;
       rsign := sign_mul (rsign this) minus |}.

(** [asDecimal].  [pos] is computed in [int] from a [size_t] difference and
    is the difference floored at 0. *)
Definition asDecimal `{FloatModel} (r : Rational) (precision : nat)
  : option (list ascii) :=
  let scale := BigInteger_of_string ("1"%char :: repeat "0"%char precision) in
  let result := op_mul_assign (numerator r) scale in
  result <- op_div_assign result (denominator r) ;;
  decimal <- toString result ;;
  let pos := (length decimal - precision)%nat in
  Some ((match rsign r with minus => ["-"%char] | plus => [] end)
        ++ (if (pos =? 0)%nat then ["0"%char] else [])
        ++ firstn pos decimal
        ++ ["."%char]
        ++ repeat "0"%char (precision - (length decimal - pos))
        ++ firstn precision (skipn pos decimal)).

(* ================================================================= *)
(** ** The rest of the interface *)

(** [operator<] on [Sign]: the enumerators are compared by their values,
    [minus = -1] and [plus = 1]. *)
Definition Sign_ltb (x y : Sign) : bool :=
  match x, y with
  | minus, plus => true
  | _, _ => false
  end.

(** [operator!=] *)
Definition op_ne (lhs rhs : BigInteger) : bool := negb (op_eq lhs rhs).

(** The loop of [operator<] on both vectors read from the most significant
    group; [neg] is [lhs.get_sign() == Sign::minus]. *)
Fixpoint lt_from_top (neg : bool) (l r : list Z) : bool :=
  match l, r with
  | x :: l', y :: r' =>
      if negb (x =? y) then xorb neg (x <? y) else lt_from_top neg l' r'
  | _, _ => false
  end.

(** [operator<] *)
Definition op_lt (lhs rhs : BigInteger) : bool :=
  if negb (Sign_eqb (sign lhs) (sign rhs))
  then Sign_ltb (sign lhs) (sign rhs)
  else if negb (size lhs =? size rhs)%nat
  then xorb (Sign_eqb (sign lhs) minus) (size lhs <? size rhs)%nat
  else lt_from_top (Sign_eqb (sign lhs) minus) (rev (a lhs)) (rev (a rhs)).

(** [operator>], [operator<=], [operator>=] *)
Definition op_gt (lhs rhs : BigInteger) : bool := op_lt rhs lhs.
Definition op_le (lhs rhs : BigInteger) : bool := negb (op_lt rhs lhs).
Definition op_ge (lhs rhs : BigInteger) : bool := negb (op_lt lhs rhs).

(** [explicit operator bool() const] *)
Definition op_bool (x : BigInteger) : bool := negb (is_zero x).

(** [operator++(int)] and [operator--(int)]: the value returned is the copy
    taken before the update, the second component is the new [*this]. *)
Definition op_post_incr (this : BigInteger) : BigInteger * BigInteger :=
  let copy := this in
  (copy, op_add_assign this BigInteger_one).

Definition op_post_decr (this : BigInteger) : BigInteger * BigInteger :=
  let copy := this in
  (copy, op_sub_assign this BigInteger_one).

(** [Rational::toString] *)
Definition R_toString (r : Rational) : option (list ascii) :=
  let res := match rsign r with minus => ["-"%char] | plus => [] end in
  n <- toString (numerator r) ;;
  let res := res ++ n in
  if negb (is_one (denominator r)) then
    d <- toString (denominator r) ;;
    Some ((res ++ ["/"%char]) ++ d)
  else Some res.

(** [operator==] and [operator!=] on [Rational] *)
Definition R_eq (lhs rhs : Rational) : bool :=
  if negb (Sign_eqb (rsign lhs) (rsign rhs)) then false
  else op_eq (numerator lhs) (numerator rhs)
       && op_eq (denominator lhs) (denominator rhs).

Definition R_ne (lhs rhs : Rational) : bool := negb (R_eq lhs rhs).

(** [operator<] on [Rational] and the three operators defined from it *)
Definition R_lt `{FloatModel} (lhs rhs : Rational) : bool :=
  if negb (Sign_eqb (rsign lhs) (rsign rhs))
  then Sign_ltb (rsign lhs) (rsign rhs)
  else xorb (Sign_eqb (rsign lhs) minus)
            (op_lt (op_mul (numerator lhs) (denominator rhs))
                   (op_mul (numerator rhs) (denominator lhs))).

Definition R_gt `{FloatModel} (lhs rhs : Rational) : bool := R_lt rhs lhs.
Definition R_le `{FloatModel} (lhs rhs : Rational) : bool :=
  negb (R_lt rhs lhs).
Definition R_ge `{FloatModel} (lhs rhs : Rational) : bool :=
  negb (R_lt lhs rhs).

(** [explicit operator bool() const] of [Rational] *)
Definition R_bool (r : Rational) : bool := negb (Rational_is_zero r).

(* ================================================================= *)
(** ** An exact instance of the floating-point parameter

    The transform evaluates the polynomial of the groups at a point [B] larger
    than every coefficient of the product and keeps the value in the first
    cell; the inverse transform reads the coefficients back as the digits of
    that value in radix [B].  With it, [fft_multiply] returns the convolution
    of its operands, which is what the double-precision transform returns
    within its precision bound. *)

Fixpoint eval (B : Z) (l : list Z) : Z :=
  match l with
  | [] => 0
  | d :: l' => d + B * eval B l'
  end.

Fixpoint unpack (n : nat) (B v : Z) : list Z :=
  match n with
  | O => []
  | S n' => v mod B :: unpack n' B (v / B)
  end.

Definition exact_point (n : nat) : Z := 10000 * Z.of_nat n + 1.

Definition exact_FFT (l : list Z) (invert : bool) : list Z :=
  let n := length l in
  if invert then unpack n (exact_point n) (hd 0 l)
  else resize n 0 [eval (exact_point n) l].

Definition exact_model : FloatModel := {|
  complex := Z;
  c_of_int := fun z => z;
  c_zero := 0;
  c_mul := Z.mul;
  FFT := exact_FFT;
  round_real := fun z => z
|}.

(* ================================================================= *)
(** ** The vocabulary of the specification *)

(** The magnitude and the value a [BigInteger] denotes. *)
Definition mag (x : BigInteger) : Z := eval base (a x).

Definition val (x : BigInteger) : Z :=
  match sign x with
  | plus => mag x
  | minus => - mag x
  end.

(** Every group lies in [[0, RADIX)]. *)
Definition digit (d : Z) : bool := (0 <=? d) && (d <? base).

Definition in_range (x : BigInteger) : bool := forallb digit (a x).

(** Invariant I1: the vector is not empty and its last group is not zero,
    unless it is the only group. *)
Definition trimmed (l : list Z) : bool :=
  match rev l with
  | [] => false
  | [_] => true
  | d :: _ => negb (d =? 0)
  end.

Definition I1 (x : BigInteger) : bool := trimmed (a x).

(** Invariant I2: zero carries the sign [plus]. *)
Definition I2 (x : BigInteger) : bool :=
  if is_zero x then Sign_eqb (sign x) plus else true.

(** What the operations need of the magnitude of an operand. *)
Definition wf (x : BigInteger) : bool := in_range x && I1 x.

(** The canonical form of the specification. *)
Definition canonical (x : BigInteger) : bool := wf x && I2 x.

(** I1 and I2 together, without the bound on the groups. *)
Definition invariants (x : BigInteger) : bool := I1 x && I2 x.

(** The factor a sign contributes to a value. *)
Definition rsign_Z (s : Sign) : Z :=
  match s with
  | plus => 1
  | minus => -1
  end.

(** Invariant I3, together with the canonical form of both members. *)
Definition I3 (r : Rational) : bool :=
  canonical (numerator r) && canonical (denominator r)
  && Sign_eqb (sign (numerator r)) plus
  && Sign_eqb (sign (denominator r)) plus
  && (0 <? val (denominator r))
  && (Z.gcd (val (numerator r)) (val (denominator r)) =? 1)
  && (if Rational_is_zero r then Sign_eqb (rsign r) plus else true).

(** The groups between the two loops of [abs_subtract_small_from_big]. *)
Definition small_group (d : Z) : bool := (- base <? d) && (d <? base).

(** Polynomial product of two coefficient lists. *)
Fixpoint poly_add (l r : list Z) : list Z :=
  match l, r with
  | [], _ => r
  | _, [] => l
  | x :: l', y :: r' => (x + y) :: poly_add l' r'
  end.

Fixpoint convolution (l r : list Z) : list Z :=
  match l with
  | [] => []
  | x :: l' => poly_add (map (Z.mul x) r) (0 :: convolution l' r)
  end.

(** A coefficient between 0 and [m]. *)
Definition coefficient_below (m : Z) (c : Z) : bool := (0 <=? c) && (c <=? m).

(** The sum of the groups of a vector. *)
Fixpoint group_sum (l : list Z) : Z :=
  match l with
  | [] => 0
  | d :: l' => d + group_sum l'
  end.

(** The floating-point transform is exact: rounding the inverse transform
    recovers the coefficients of the product of the two polynomials (the
    precision bound of the specification is respected). *)
Definition exact_fft (F : FloatModel) : Prop :=
  forall (x y : list Z) (n : nat),
    forallb digit x = true -> forallb digit y = true ->
    (length x + length y <= n)%nat ->
    fft_multiply x y n = resize n 0 (convolution x y).

(** The transform is exact at one product, at the length [operator*=]
    chooses for it. *)
Definition exact_product (F : FloatModel) (x y : list Z) : Prop :=
  fft_multiply x y (fft_size (length x) (length y))
  = resize (fft_size (length x) (length y)) 0 (convolution x y).

(** The largest number of groups of the shorter operand for which the sums
    of the carry loop of [operator*=] stay within [int]: a coefficient is at
    most [99 * 99] times that number and the carry at most a 99th of the
    coefficient, and [9900 * 216917 <= INT_MAX < 9900 * 216918]. *)
Definition max_groups : Z := 216917.

(** An operand of at most [max_groups] groups (433834 decimal digits). *)
Definition short (x : BigInteger) : Prop := Z.of_nat (size x) <= max_groups.

(** The transform is exact at every product whose shorter operand has at
    most [N] groups.  With [N = max_groups] every coefficient is below
    [2 ^ 31], so this asks nothing an [int]-valued rounding cannot give. *)
Definition exact_upto (F : FloatModel) (N : Z) : Prop :=
  forall x y : list Z,
    forallb digit x = true -> forallb digit y = true ->
    Z.of_nat (Nat.min (length x) (length y)) <= N ->
    exact_product F x y.

(** Half of [max_groups]: the product of two such operands is [short]. *)
Definition half_groups : Z := 108458.

(** A [Rational] whose numerator and denominator have at most [half_groups]
    groups each (216916 decimal digits). *)
Definition R_short (r : Rational) : Prop :=
  Z.of_nat (size (numerator r)) <= half_groups
  /\ Z.of_nat (size (denominator r)) <= half_groups.

(** The operands at which the carry loop first leaves [int]: [nines n] is
    [100 ^ n - 1], written with [n] groups 99, and [nines_squared n] is its
    square, [100 ^ (2 * n) - 2 * 100 ^ n + 1]. *)
Definition nines (n : nat) : BigInteger :=
  {| a := repeat 99 n; sign := plus |}.

Definition nines_squared (n : nat) : BigInteger :=
  {| a := (1 :: repeat 0 (n - 1)) ++ 98 :: repeat 99 (n - 1); sign := plus |}.

(** One group more than [max_groups]. *)
Definition overflow_groups : nat := Z.to_nat (max_groups + 1).

(** A decimal literal: an optional ['-'] and at least one decimal digit. *)
Definition is_digit (c : ascii) : bool :=
  (48 <=? nat_of_ascii c)%nat && (nat_of_ascii c <=? 57)%nat.

Definition valid_body (s : list ascii) : bool :=
  negb (Nat.eqb (length s) 0) && forallb is_digit s.

Definition valid_decimal (s : list ascii) : bool :=
  match s with
  | "-"%char :: s' => valid_body s'
  | _ => valid_body s
  end.

(** The canonical form of a valid decimal literal: leading zeros stripped
    (one digit is kept) and no sign on zero. *)
Fixpoint strip_leading (s : list ascii) : list ascii :=
  match s with
  | c :: (_ :: _) as t => if Ascii.eqb c "0" then strip_leading t else s
  | _ => s
  end.

Definition canonical_form (s : list ascii) : list ascii :=
  match s with
  | "-"%char :: s' =>
      let d := strip_leading s' in
      if forallb (fun c => Ascii.eqb c "0") d then d else "-"%char :: d
  | _ => strip_leading s
  end.

(** The integer a decimal literal denotes. *)
Definition literal_value (s : list ascii) : Z :=
  match s with
  | "-"%char :: body => - window_number body
  | _ => window_number s
  end.

(** The rational number a [Rational] denotes. *)
Definition rvalue (r : Rational) : Q :=
  Qmake (rsign_Z (rsign r) * val (numerator r))
        (Z.to_pos (val (denominator r))).

(* ================================================================= *)
(** * Properties *)

(** ** Radix evaluation *)

Lemma eval_app (B : Z) (l r : list Z) :
  eval B (l ++ r) = eval B l + B ^ Z.of_nat (length l) * eval B r.
Proof.
  induction l as [|d l IH]; cbn [length app].
  - cbn [eval]. change (Z.of_nat 0) with 0. rewrite Z.pow_0_r. ring.
  - cbn [eval]. rewrite IH, Nat2Z.inj_succ, Z.pow_succ_r by lia. ring.
Qed.

Lemma eval_repeat0 (B : Z) (n : nat) : eval B (repeat 0 n) = 0.
Proof. induction n as [|n IH]; simpl; [reflexivity | rewrite IH; lia]. Qed.

Lemma resize_ge {A : Type} (n : nat) (v : A) (l : list A) :
  (length l <= n)%nat -> resize n v l = l ++ repeat v (n - length l).
Proof. intros H. unfold resize. now rewrite firstn_all2 by lia. Qed.

Lemma resize_length {A : Type} (n : nat) (v : A) (l : list A) :
  length (resize n v l) = n.
Proof.
  unfold resize. rewrite length_app, length_firstn, repeat_length. lia.
Qed.

Lemma eval_resize (B : Z) (n : nat) (l : list Z) :
  (length l <= n)%nat -> eval B (resize n 0 l) = eval B l.
Proof.
  intros H. rewrite resize_ge, eval_app, eval_repeat0 by assumption. lia.
Qed.

Lemma digit_iff (d : Z) : digit d = true <-> 0 <= d < base.
Proof. unfold digit. rewrite andb_true_iff, Z.leb_le, Z.ltb_lt. tauto. Qed.

Lemma digits_cons (d : Z) (l : list Z) :
  forallb digit (d :: l) = true <-> 0 <= d < base /\ forallb digit l = true.
Proof. simpl. now rewrite andb_true_iff, digit_iff. Qed.

Lemma digits_app (l r : list Z) :
  forallb digit (l ++ r) = true
  <-> forallb digit l = true /\ forallb digit r = true.
Proof. now rewrite forallb_app, andb_true_iff. Qed.

Lemma digits_rev (l : list Z) :
  forallb digit (rev l) = true <-> forallb digit l = true.
Proof.
  induction l as [|d l IH]; simpl; [tauto|].
  rewrite digits_app, IH. simpl. rewrite !andb_true_iff. tauto.
Qed.

Lemma base_pow_pos (n : nat) : 0 < base ^ Z.of_nat n.
Proof. apply Z.pow_pos_nonneg; unfold base; lia. Qed.

Lemma eval_bound (l : list Z) :
  forallb digit l = true -> 0 <= eval base l < base ^ Z.of_nat (length l).
Proof.
  induction l as [|d l IH]; intros H.
  - simpl. lia.
  - apply digits_cons in H. destruct H as [Hd Hl]. specialize (IH Hl).
    cbn [eval length]. rewrite Nat2Z.inj_succ, Z.pow_succ_r by lia.
    unfold base in *. nia.
Qed.

(** Two digit vectors of the same length with the same value are equal. *)
Lemma eval_inj (l r : list Z) :
  forallb digit l = true -> forallb digit r = true ->
  length l = length r -> eval base l = eval base r -> l = r.
Proof.
  revert r. induction l as [|d l IH]; intros [|e r] Hl Hr Hlen Hev;
    try discriminate; [reflexivity|].
  apply digits_cons in Hl. apply digits_cons in Hr.
  destruct Hl as [Hd Hl], Hr as [He Hr]. cbn [eval] in Hev.
  unfold base in *.
  assert (d = e) by lia. subst e.
  f_equal. apply IH; auto. lia.
Qed.

(** ** Trailing zero groups *)

Lemma drop_zeros_cons {A : Type} (isz : A -> bool) (d : A) (t : list A) :
  drop_zeros isz (d :: t)
  = if isz d && negb (Nat.eqb (length t) 0) then drop_zeros isz t else d :: t.
Proof. destruct t as [|e t]; simpl; destruct (isz d); reflexivity. Qed.

Lemma pop_back_zeros_snoc {A : Type} (isz : A -> bool) (l : list A) (d : A) :
  pop_back_zeros isz (l ++ [d])
  = if isz d && negb (Nat.eqb (length l) 0) then pop_back_zeros isz l
    else l ++ [d].
Proof.
  unfold pop_back_zeros. rewrite rev_app_distr. cbn [rev app].
  rewrite drop_zeros_cons, length_rev.
  destruct (isz d && negb (Nat.eqb (length l) 0)); [reflexivity|].
  cbn [rev]. now rewrite rev_involutive.
Qed.

Lemma pop_back_zeros_nil {A : Type} (isz : A -> bool) :
  pop_back_zeros isz [] = [].
Proof. reflexivity. Qed.

Lemma delete_trailing_zeroes_snoc (l : list Z) (d : Z) :
  delete_trailing_zeroes (l ++ [d])
  = if (d =? 0) && negb (Nat.eqb (length l) 0) then delete_trailing_zeroes l
    else l ++ [d].
Proof.
  unfold delete_trailing_zeroes. now rewrite pop_back_zeros_snoc.
Qed.

(** Case analysis on the last turn of the loop. *)
Lemma delete_trailing_zeroes_ind (P : list Z -> list Z -> Prop) :
  P [] [] ->
  (forall l d, (d <> 0 \/ l = []) -> P (l ++ [d]) (l ++ [d])) ->
  (forall l, l <> [] -> P l (delete_trailing_zeroes l) ->
             P (l ++ [0]) (delete_trailing_zeroes l)) ->
  forall l, P l (delete_trailing_zeroes l).
Proof.
  intros Hnil Hstop Hpop l. induction l as [|d l IH] using rev_ind.
  - exact Hnil.
  - rewrite delete_trailing_zeroes_snoc.
    destruct (Z.eqb_spec d 0) as [->|Hd]; cbn [andb].
    + destruct l as [|e l]; cbn [length Nat.eqb negb].
      * apply Hstop. now right.
      * apply Hpop; [discriminate | exact IH].
    + apply Hstop. now left.
Qed.

Lemma delete_trailing_zeroes_eval (B : Z) (l : list Z) :
  eval B (delete_trailing_zeroes l) = eval B l.
Proof.
  apply delete_trailing_zeroes_ind with (P := fun l r => eval B r = eval B l);
    try reflexivity.
  intros l0 _ IH. rewrite eval_app, IH. cbn [eval]. lia.
Qed.

Lemma delete_trailing_zeroes_digits (l : list Z) :
  forallb digit l = true -> forallb digit (delete_trailing_zeroes l) = true.
Proof.
  apply delete_trailing_zeroes_ind
    with (P := fun l r => forallb digit l = true -> forallb digit r = true);
    auto.
  intros l0 _ IH H. apply digits_app in H. tauto.
Qed.

Lemma delete_trailing_zeroes_length (l : list Z) :
  (length (delete_trailing_zeroes l) <= length l)%nat.
Proof.
  apply delete_trailing_zeroes_ind
    with (P := fun l r => (length r <= length l)%nat); auto.
  intros l0 _ IH. rewrite length_app. simpl. lia.
Qed.

Lemma trimmed_snoc (l : list Z) (d : Z) :
  trimmed (l ++ [d]) = negb (d =? 0) || Nat.eqb (length l) 0.
Proof.
  unfold trimmed. rewrite rev_app_distr. cbn [rev app].
  rewrite <- (length_rev l). destruct (rev l); cbn [length Nat.eqb].
  - now rewrite orb_true_r.
  - now rewrite orb_false_r.
Qed.

Lemma trimmed_nonempty (l : list Z) : trimmed l = true -> l <> [].
Proof. intros H ->. discriminate. Qed.

Lemma delete_trailing_zeroes_trimmed (l : list Z) :
  l <> [] -> trimmed (delete_trailing_zeroes l) = true.
Proof.
  apply delete_trailing_zeroes_ind
    with (P := fun l r => l <> [] -> trimmed r = true).
  - congruence.
  - intros l0 d H _. rewrite trimmed_snoc. destruct H as [H | ->].
    + apply Z.eqb_neq in H. now rewrite H.
    + now rewrite orb_true_r.
  - intros l0 H IH _. auto.
Qed.

Lemma delete_trailing_zeroes_nonempty (l : list Z) :
  l <> [] -> delete_trailing_zeroes l <> [].
Proof.
  intros H. apply trimmed_nonempty. now apply delete_trailing_zeroes_trimmed.
Qed.

Lemma delete_trailing_zeroes_id (l : list Z) :
  trimmed l = true -> delete_trailing_zeroes l = l.
Proof.
  destruct l as [|d l] using rev_ind; [reflexivity|]. clear IHl.
  rewrite trimmed_snoc, delete_trailing_zeroes_snoc.
  destruct (d =? 0); cbn [negb orb andb]; [|reflexivity].
  intros ->. reflexivity.
Qed.

(** ** Canonical vectors are determined by their value *)

Lemma trimmed_lower (l : list Z) :
  forallb digit l = true -> trimmed l = true -> (2 <= length l)%nat ->
  base ^ Z.of_nat (length l - 1) <= eval base l.
Proof.
  destruct l as [|d l] using rev_ind; [simpl; lia|]. clear IHl.
  rewrite trimmed_snoc, length_app, digits_app, digits_cons. cbn [length].
  intros [Hl [Hd _]] Ht Hlen.
  replace (length l + 1 - 1)%nat with (length l) by lia.
  rewrite eval_app. cbn [eval].
  destruct (Nat.eqb_spec (length l) 0) as [E|_]; [lia|].
  rewrite orb_false_r in Ht. apply negb_true_iff, Z.eqb_neq in Ht.
  pose proof (eval_bound l Hl). pose proof (base_pow_pos (length l)).
  unfold base in *. nia.
Qed.

Lemma trimmed_length_le (l r : list Z) :
  forallb digit l = true -> forallb digit r = true ->
  trimmed l = true -> trimmed r = true ->
  eval base l <= eval base r -> (length l <= length r)%nat.
Proof.
  intros Hl Hr Tl Tr Hle.
  destruct (Nat.le_gt_cases (length l) (length r)) as [|Hlt]; [assumption|].
  exfalso.
  assert (Hr1 : (1 <= length r)%nat).
  { apply trimmed_nonempty in Tr. destruct r; [congruence | simpl; lia]. }
  pose proof (trimmed_lower l Hl Tl ltac:(lia)) as Hlow.
  pose proof (eval_bound r Hr) as Hup.
  assert (base ^ Z.of_nat (length r) <= base ^ Z.of_nat (length l - 1)).
  { apply Z.pow_le_mono_r; unfold base; lia. }
  lia.
Qed.

Lemma trimmed_unique (l r : list Z) :
  forallb digit l = true -> forallb digit r = true ->
  trimmed l = true -> trimmed r = true ->
  eval base l = eval base r -> l = r.
Proof.
  intros Hl Hr Tl Tr He.
  apply eval_inj; auto.
  apply Nat.le_antisymm; apply trimmed_length_le; auto; lia.
Qed.

Lemma trimmed_zero (l : list Z) :
  forallb digit l = true -> trimmed l = true -> eval base l = 0 -> l = [0].
Proof. intros Hl Tl He. apply trimmed_unique; auto. Qed.

(** ** Comparison of magnitudes *)

Lemma less_from_top_spec (p q : list Z) :
  length p = length q ->
  forallb digit p = true -> forallb digit q = true ->
  less_from_top p q = (eval base (rev p) <? eval base (rev q)).
Proof.
  revert q. induction p as [|x p IH]; intros [|y q] Hlen Hp Hq;
    try discriminate.
  - reflexivity.
  - apply digits_cons in Hp. apply digits_cons in Hq.
    destruct Hp as [Hx Hp], Hq as [Hy Hq].
    injection Hlen as Hlen.
    cbn [less_from_top rev]. rewrite !eval_app, !length_rev, Hlen.
    cbn [eval].
    pose proof (eval_bound (rev p)) as Bp. rewrite digits_rev in Bp.
    pose proof (eval_bound (rev q)) as Bq. rewrite digits_rev in Bq.
    specialize (Bp Hp). specialize (Bq Hq).
    rewrite !length_rev, Hlen in *.
    destruct (Z.eqb_spec x y) as [->|Hxy]; cbn [negb].
    + rewrite IH by auto.
      destruct (Z.ltb_spec (eval base (rev p)) (eval base (rev q)));
        symmetry; [apply Z.ltb_lt | apply Z.ltb_ge]; lia.
    + destruct (Z.ltb_spec x y);
        symmetry; [apply Z.ltb_lt | apply Z.ltb_ge]; nia.
Qed.

Lemma wf_iff (x : BigInteger) :
  wf x = true <-> forallb digit (a x) = true /\ trimmed (a x) = true.
Proof. unfold wf, in_range, I1. now rewrite andb_true_iff. Qed.

Lemma wf_size_pos (x : BigInteger) : wf x = true -> (1 <= size x)%nat.
Proof.
  intros H. apply wf_iff in H. destruct H as [_ H].
  apply trimmed_nonempty in H. unfold size. destruct (a x); [congruence|].
  simpl. lia.
Qed.

Lemma mag_bound (x : BigInteger) :
  wf x = true -> 0 <= mag x < base ^ Z.of_nat (size x).
Proof. intros H. apply wf_iff in H. apply eval_bound. tauto. Qed.

Lemma wf_size_le (x y : BigInteger) :
  wf x = true -> wf y = true -> mag x <= mag y -> (size x <= size y)%nat.
Proof.
  intros Hx Hy. apply wf_iff in Hx. apply wf_iff in Hy.
  apply trimmed_length_le; tauto.
Qed.

Lemma less_abs_spec (x y : BigInteger) :
  wf x = true -> wf y = true -> less_abs x y = (mag x <? mag y).
Proof.
  intros Hx Hy. unfold less_abs.
  destruct (Nat.eqb_spec (size x) (size y)) as [E|N]; cbn [negb].
  - apply wf_iff in Hx. apply wf_iff in Hy.
    rewrite less_from_top_spec, !rev_involutive.
    + reflexivity.
    + now rewrite !length_rev.
    + apply digits_rev; tauto.
    + apply digits_rev; tauto.
  - destruct (Nat.ltb_spec (size x) (size y)) as [L|G]; symmetry.
    + apply Z.ltb_lt. apply Z.nle_gt. intros C.
      pose proof (wf_size_le y x Hy Hx C). lia.
    + apply Z.ltb_ge. apply Z.nlt_ge. intros C.
      pose proof (wf_size_le x y Hx Hy ltac:(lia)). lia.
Qed.

(** [abs_subtract_small_from_big] reads [small[i]] for [i < small.size()]
    out of [a]: in the call with [fl = false] the vector of [*this] is at
    least as long, whatever the operands hold. *)
Lemma less_abs_false_size (x y : BigInteger) :
  less_abs x y = false -> (size y <= size x)%nat.
Proof.
  unfold less_abs.
  destruct (Nat.eqb_spec (size x) (size y)) as [E|N]; cbn [negb].
  - lia.
  - intros H. apply Nat.ltb_ge in H. exact H.
Qed.

Lemma less_abs_true_size (x y : BigInteger) :
  less_abs x y = true -> (size x <= size y)%nat /\ (1 <= size y)%nat.
Proof.
  unfold less_abs.
  destruct (Nat.eqb_spec (size x) (size y)) as [E|N]; cbn [negb].
  - intros H. split; [lia|]. unfold size in *.
    rewrite <- (length_rev (a y)). rewrite <- (length_rev (a x)) in E.
    destruct (rev (a x)), (rev (a y)); simpl in *; try discriminate; lia.
  - intros H. apply Nat.ltb_lt in H. lia.
Qed.

Lemma is_zero_iff (x : BigInteger) : is_zero x = true <-> a x = [0].
Proof.
  unfold is_zero. destruct (a x) as [|d [|e l]]; split; try discriminate.
  - intros H. apply Z.eqb_eq in H. now subst.
  - intros [= ->]. reflexivity.
Qed.

Lemma is_zero_mag (x : BigInteger) :
  wf x = true -> is_zero x = (mag x =? 0).
Proof.
  intros H. apply wf_iff in H. destruct H as [Hd Ht].
  destruct (Z.eqb_spec (mag x) 0) as [E|N].
  - apply is_zero_iff. now apply trimmed_zero.
  - destruct (is_zero x) eqn:Z; [|reflexivity].
    apply is_zero_iff in Z. unfold mag in N. rewrite Z in N. now simpl in N.
Qed.

(** ** Addition of magnitudes *)

Lemma add_loop_eval (x0 x1 : list Z) (c : Z) :
  eval base (add_loop x0 x1 c)
  = eval base x0 + eval base (firstn (length x0) x1) + c.
Proof.
  revert x1 c. induction x0 as [|d x0 IH]; intros x1 c.
  - cbn. lia.
  - cbn [add_loop eval length]. rewrite IH.
    destruct x1 as [|e x1]; cbn [hd tl firstn eval].
    + rewrite firstn_nil. cbn [eval].
      pose proof (Z.quot_rem' (d + 0 + c) base). lia.
    + pose proof (Z.quot_rem' (d + e + c) base). lia.
Qed.

Lemma add_loop_digits (x0 x1 : list Z) (c : Z) :
  forallb digit x0 = true -> forallb digit x1 = true -> 0 <= c <= 1 ->
  forallb digit (add_loop x0 x1 c) = true.
Proof.
  revert x1 c. induction x0 as [|d x0 IH]; intros x1 c H0 H1 Hc.
  - cbn. rewrite andb_true_r. apply digit_iff. unfold base. lia.
  - apply digits_cons in H0. destruct H0 as [Hd H0].
    assert (He : 0 <= hd 0 x1 < base /\ forallb digit (tl x1) = true).
    { destruct x1 as [|e x1]; cbn [hd tl].
      - unfold base. split; [lia | reflexivity].
      - now apply digits_cons in H1. }
    destruct He as [He H1'].
    cbn [add_loop]. apply digits_cons. unfold base in *. split.
    + Z.to_euclidean_division_equations. lia.
    + apply IH; auto. Z.to_euclidean_division_equations. lia.
Qed.

Lemma add_loop_nonempty (x0 x1 : list Z) (c : Z) : add_loop x0 x1 c <> [].
Proof. destruct x0; discriminate. Qed.

(** ** Subtraction of magnitudes *)

Lemma small_group_iff (d : Z) : small_group d = true <-> - base < d < base.
Proof. unfold small_group. rewrite andb_true_iff, !Z.ltb_lt. tauto. Qed.

Lemma digit_small_group (l : list Z) :
  forallb digit l = true -> forallb small_group l = true.
Proof.
  rewrite !forallb_forall. intros H d Hd. specialize (H d Hd).
  apply digit_iff in H. apply small_group_iff. unfold base in *. lia.
Qed.

Lemma subtract_groups_length (x small : list Z) (s : Z) :
  length (subtract_groups x small s) = length x.
Proof.
  revert small. induction x as [|d x IH]; intros [|e small]; cbn; auto.
Qed.

Lemma subtract_groups_eval (x small : list Z) (s : Z) :
  (length small <= length x)%nat ->
  eval base (subtract_groups x small s)
  = eval base x
    + (s - 1) * eval base (firstn (length small) x) - s * eval base small.
Proof.
  revert small. induction x as [|d x IH]; intros [|e small] Hlen;
    cbn [length] in Hlen; try lia.
  - cbn. lia.
  - cbn. lia.
  - cbn [subtract_groups eval length firstn]. rewrite IH by lia. ring.
Qed.

Lemma subtract_groups_small (x small : list Z) (s : Z) :
  forallb digit x = true -> forallb digit small = true ->
  s = 1 \/ s = -1 ->
  forallb small_group (subtract_groups x small s) = true.
Proof.
  revert small. induction x as [|d x IH]; intros [|e small] Hx Hs S;
    try reflexivity.
  - now apply digit_small_group.
  - apply digits_cons in Hx. apply digits_cons in Hs.
    destruct Hx as [Hd Hx], Hs as [He Hs].
    cbn [subtract_groups forallb]. apply andb_true_iff. split.
    + apply small_group_iff. unfold base in *. destruct S; subst s; lia.
    + now apply IH.
Qed.

Lemma borrow_loop_length (x : list Z) (c : Z) :
  length (borrow_loop x c) = length x.
Proof.
  revert c. induction x as [|d x IH]; intros c; [reflexivity|].
  cbn [borrow_loop]. destruct (d - c <? 0); cbn [length]; now rewrite IH.
Qed.

Lemma borrow_loop_spec (x : list Z) (c : Z) :
  forallb small_group x = true -> 0 <= c <= 1 ->
  forallb digit (borrow_loop x c) = true
  /\ exists c', 0 <= c' <= 1
     /\ eval base (borrow_loop x c)
        = eval base x - c + c' * base ^ Z.of_nat (length x).
Proof.
  revert c. induction x as [|d x IH]; intros c Hx Hc.
  - split; [reflexivity|]. exists c. cbn. lia.
  - cbn [forallb] in Hx. apply andb_true_iff in Hx. destruct Hx as [Hd Hx].
    apply small_group_iff in Hd.
    cbn [borrow_loop length]. rewrite Nat2Z.inj_succ, Z.pow_succ_r by lia.
    destruct (Z.ltb_spec (d - c) 0) as [Neg|Pos].
    + destruct (IH 1 Hx ltac:(lia)) as [D [c' [Hc' E]]]. split.
      * apply digits_cons. split; [unfold base in *; lia | exact D].
      * exists c'. split; [exact Hc'|]. cbn [eval]. rewrite E. ring.
    + destruct (IH 0 Hx ltac:(lia)) as [D [c' [Hc' E]]]. split.
      * apply digits_cons. split; [unfold base in *; lia | exact D].
      * exists c'. split; [exact Hc'|]. cbn [eval]. rewrite E. ring.
Qed.

Lemma borrow_loop_exact (x : list Z) :
  forallb small_group x = true -> 0 <= eval base x ->
  forallb digit (borrow_loop x 0) = true
  /\ eval base (borrow_loop x 0) = eval base x.
Proof.
  intros Hx Hpos. destruct (borrow_loop_spec x 0 Hx ltac:(lia)) as [D [c' [Hc' E]]].
  split; [exact D|].
  pose proof (eval_bound _ D) as Bd. rewrite borrow_loop_length in Bd.
  assert (c' = 0 \/ c' = 1) as [-> | ->] by lia; lia.
Qed.

Lemma abs_subtract_false (this small : BigInteger) :
  wf this = true -> wf small = true -> mag small <= mag this ->
  wf (abs_subtract_small_from_big this small false) = true
  /\ mag (abs_subtract_small_from_big this small false)
     = mag this - mag small
  /\ sign (abs_subtract_small_from_big this small false) = sign this.
Proof.
  intros Ht Hs Hle.
  pose proof (wf_size_le _ _ Hs Ht Hle) as Hsz.
  pose proof (wf_size_pos _ Ht) as Hpos.
  apply wf_iff in Ht. apply wf_iff in Hs.
  destruct Ht as [Dt Tt], Hs as [Ds Ts].
  unfold abs_subtract_small_from_big, mag, size in *. cbn [a sign].
  rewrite resize_ge by lia. rewrite Nat.sub_diag. cbn [repeat].
  rewrite app_nil_r.
  assert (E : eval base (subtract_groups (a this) (a small) 1)
              = eval base (a this) - eval base (a small)).
  { rewrite subtract_groups_eval by assumption. ring. }
  destruct (borrow_loop_exact (subtract_groups (a this) (a small) 1)) as [D V].
  { apply subtract_groups_small; auto. }
  { lia. }
  split; [|split; [|reflexivity]].
  - apply wf_iff. cbn [a]. split.
    + now apply delete_trailing_zeroes_digits.
    + apply delete_trailing_zeroes_trimmed.
      intros C. apply (f_equal (@length Z)) in C.
      rewrite borrow_loop_length, subtract_groups_length in C.
      simpl in C. lia.
  - rewrite delete_trailing_zeroes_eval. lia.
Qed.

Lemma abs_subtract_true (this small : BigInteger) :
  wf this = true -> wf small = true -> mag this <= mag small ->
  wf (abs_subtract_small_from_big this small true) = true
  /\ mag (abs_subtract_small_from_big this small true)
     = mag small - mag this
  /\ sign (abs_subtract_small_from_big this small true) = sign this.
Proof.
  intros Ht Hs Hle.
  pose proof (wf_size_le _ _ Ht Hs Hle) as Hsz.
  pose proof (wf_size_pos _ Hs) as Hpos.
  apply wf_iff in Ht. apply wf_iff in Hs.
  destruct Ht as [Dt Tt], Hs as [Ds Ts].
  unfold abs_subtract_small_from_big, mag, size in *. cbn [a sign].
  set (x := resize (length (a small)) 0 (a this)).
  assert (Lx : length x = length (a small)) by apply resize_length.
  assert (Ex : eval base x = eval base (a this)) by (apply eval_resize; lia).
  assert (Dx : forallb digit x = true).
  { unfold x. rewrite resize_ge by lia. apply digits_app. split; auto.
    apply forallb_forall. intros d Hd. apply repeat_spec in Hd. now subst. }
  assert (E : eval base (subtract_groups x (a small) (-1))
              = eval base (a small) - eval base (a this)).
  { rewrite subtract_groups_eval by lia.
    rewrite <- Lx, firstn_all. lia. }
  destruct (borrow_loop_exact (subtract_groups x (a small) (-1))) as [D V].
  { apply subtract_groups_small; auto. }
  { lia. }
  split; [|split; [|reflexivity]].
  - apply wf_iff. cbn [a]. split.
    + now apply delete_trailing_zeroes_digits.
    + apply delete_trailing_zeroes_trimmed.
      intros C. apply (f_equal (@length Z)) in C.
      rewrite borrow_loop_length, subtract_groups_length in C.
      simpl in C. lia.
  - rewrite delete_trailing_zeroes_eval. lia.
Qed.

(** ** Signed addition *)

Lemma val_sign (x : BigInteger) : val x = rsign_Z (sign x) * mag x.
Proof. unfold val. destruct (sign x); cbn [rsign_Z]; lia. Qed.

Lemma Sign_eqb_spec (s t : Sign) : reflect (s = t) (Sign_eqb s t).
Proof. destruct s, t; constructor; congruence. Qed.

Lemma canonical_iff (x : BigInteger) :
  canonical x = true <-> wf x = true /\ I2 x = true.
Proof. unfold canonical. now rewrite andb_true_iff. Qed.

Lemma canonical_wf (x : BigInteger) : canonical x = true -> wf x = true.
Proof. intros H. now apply canonical_iff in H. Qed.

Lemma I2_iff (x : BigInteger) :
  I2 x = true <-> (is_zero x = true -> sign x = plus).
Proof.
  unfold I2. destruct (is_zero x).
  - destruct (Sign_eqb_spec (sign x) plus) as [E|N]; split; intros H; auto;
      try discriminate; exfalso; auto.
  - split; [discriminate | reflexivity].
Qed.

Lemma wf_set_sign (x : BigInteger) (s : Sign) : wf (set_sign x s) = wf x.
Proof. reflexivity. Qed.

Lemma mag_set_sign (x : BigInteger) (s : Sign) : mag (set_sign x s) = mag x.
Proof. reflexivity. Qed.

Lemma wf_trim (x : BigInteger) :
  wf x = true ->
  {| a := delete_trailing_zeroes (a x); sign := sign x |} = x.
Proof.
  intros H. apply wf_iff in H. destruct H as [_ T].
  rewrite delete_trailing_zeroes_id by assumption. now destruct x.
Qed.

(** The sign is reset when the magnitude is zero. *)
Lemma collapse_spec (x : BigInteger) :
  wf x = true ->
  let r := if is_zero x then set_sign x plus else x in
  wf r = true /\ val r = val x /\ I2 r = true /\ mag r = mag x.
Proof.
  intros H. cbv zeta. destruct (is_zero x) eqn:Z.
  - rewrite is_zero_mag in Z by assumption. apply Z.eqb_eq in Z.
    repeat split; auto.
    + rewrite !val_sign, mag_set_sign, Z. lia.
    + apply I2_iff. reflexivity.
  - repeat split; auto. apply I2_iff. congruence.
Qed.

Lemma op_add_assign_spec (this x : BigInteger) :
  wf this = true -> wf x = true ->
  wf (op_add_assign this x) = true
  /\ val (op_add_assign this x) = val this + val x
  /\ (I2 this = true -> I2 (op_add_assign this x) = true).
Proof.
  intros Ht Hx. unfold op_add_assign.
  destruct (Sign_eqb_spec (sign this) (sign x)) as [Es|Ns].
  - (* equal signs *)
    cbn [a sign].
    set (len := Nat.max (size this) (size x)).
    set (s := add_loop (resize len 0 (a this)) (a x) 0).
    assert (Es' : eval base s = mag this + mag x).
    { unfold s. rewrite add_loop_eval, resize_length.
      rewrite eval_resize by (unfold len, size; lia).
      rewrite firstn_all2 by (unfold len, size; lia). unfold mag. lia. }
    assert (Ds : forallb digit s = true).
    { pose proof Ht as Ht'. pose proof Hx as Hx'.
      apply wf_iff in Ht'. apply wf_iff in Hx'.
      unfold s. apply add_loop_digits; try tauto; try lia.
      rewrite resize_ge by (unfold len, size; lia).
      apply digits_app. split; [tauto|].
      apply forallb_forall. intros d Hd. apply repeat_spec in Hd. now subst. }
    assert (W : wf {| a := delete_trailing_zeroes s; sign := sign this |} = true).
    { apply wf_iff. cbn [a]. split.
      - now apply delete_trailing_zeroes_digits.
      - apply delete_trailing_zeroes_trimmed. apply add_loop_nonempty. }
    assert (M : mag {| a := delete_trailing_zeroes s; sign := sign this |}
                = mag this + mag x).
    { unfold mag at 1. cbn [a]. now rewrite delete_trailing_zeroes_eval. }
    split; [exact W|]. split.
    + rewrite !val_sign. cbn [sign]. rewrite M, <- Es. ring.
    + intros I. apply I2_iff. cbn [sign]. intros Z.
      rewrite is_zero_mag in Z by exact W. apply Z.eqb_eq in Z.
      rewrite M in Z.
      pose proof (mag_bound _ Ht). pose proof (mag_bound _ Hx).
      apply (proj1 (I2_iff this) I). rewrite is_zero_mag by assumption.
      apply Z.eqb_eq. lia.
  - (* different signs *)
    rewrite less_abs_spec by assumption.
    assert (Opp : rsign_Z (sign x) = - rsign_Z (sign this)).
    { destruct (sign this), (sign x); cbn; congruence. }
    destruct (Z.ltb_spec (mag this) (mag x)) as [L|G].
    + destruct (abs_subtract_true this x Ht Hx ltac:(lia)) as [W [M S]].
      set (d := abs_subtract_small_from_big this x true) in *.
      pose proof (collapse_spec (set_sign d (sign x)) W) as C.
      cbv zeta in C. destruct C as [W' [V' [I' _]]].
      rewrite wf_trim by exact W'.
      split; [exact W'|]. split; [|intros _; exact I'].
      rewrite V', !val_sign. cbn [set_sign sign]. rewrite mag_set_sign, M, Opp.
      ring.
    + destruct (abs_subtract_false this x Ht Hx ltac:(lia)) as [W [M S]].
      set (d := abs_subtract_small_from_big this x false) in *.
      pose proof (collapse_spec (set_sign d (sign this)) W) as C.
      cbv zeta in C. destruct C as [W' [V' [I' _]]].
      rewrite wf_trim by exact W'.
      split; [exact W'|]. split; [|intros _; exact I'].
      rewrite V', !val_sign. cbn [set_sign sign]. rewrite mag_set_sign, M, Opp.
      ring.
Qed.

Lemma val_negated (x : BigInteger) :
  val (set_sign x (sign_mul (sign x) minus)) = - val x.
Proof.
  rewrite !val_sign, mag_set_sign. cbn [set_sign sign].
  destruct (sign x); cbn [sign_mul Sign_eqb rsign_Z]; lia.
Qed.

Lemma op_sub_assign_spec (this x : BigInteger) :
  wf this = true -> wf x = true ->
  wf (op_sub_assign this x) = true
  /\ val (op_sub_assign this x) = val this - val x
  /\ (I2 this = true -> I2 (op_sub_assign this x) = true).
Proof.
  intros Ht Hx. unfold op_sub_assign.
  destruct (op_add_assign_spec this (set_sign x (sign_mul (sign x) minus)))
    as [W [V I]]; auto.
  rewrite val_negated in V. repeat split; auto; lia.
Qed.

(** ** Canonical values are determined by the integer they denote *)

Lemma canonical_unique (x y : BigInteger) :
  canonical x = true -> canonical y = true -> val x = val y -> x = y.
Proof.
  intros Cx Cy E. apply canonical_iff in Cx. apply canonical_iff in Cy.
  destruct Cx as [Wx Ix], Cy as [Wy Iy].
  pose proof (mag_bound _ Wx) as Bx. pose proof (mag_bound _ Wy) as By.
  rewrite !val_sign in E.
  assert (M : mag x = mag y).
  { destruct (sign x), (sign y); cbn [rsign_Z] in E; lia. }
  assert (A : a x = a y).
  { pose proof Wx as Wx'. pose proof Wy as Wy'.
    apply wf_iff in Wx'. apply wf_iff in Wy'.
    apply trimmed_unique; tauto. }
  assert (S : sign x = sign y).
  { destruct (Z.eq_dec (mag x) 0) as [Z|NZ].
    - pose proof (proj1 (I2_iff x) Ix) as Jx.
      pose proof (proj1 (I2_iff y) Iy) as Jy.
      assert (Zx : is_zero x = true)
        by (rewrite is_zero_mag by assumption; apply Z.eqb_eq; lia).
      assert (Zy : is_zero y = true)
        by (rewrite is_zero_mag by assumption; apply Z.eqb_eq; lia).
      now rewrite (Jx Zx), (Jy Zy).
    - destruct (sign x), (sign y); cbn [rsign_Z] in E; auto; lia. }
  destruct x, y. cbn in A, S. now subst.
Qed.

Lemma groups_eqb_spec (l r : list Z) :
  length l = length r -> groups_eqb l r = true -> l = r.
Proof.
  revert r. induction l as [|x l IH]; intros [|y r] Hlen;
    try discriminate; [reflexivity|].
  cbn [groups_eqb]. destruct (Z.eqb_spec x y) as [->|]; cbn [negb];
    [|discriminate].
  intros H. f_equal. apply IH; auto.
Qed.

Lemma groups_eqb_refl (l : list Z) : groups_eqb l l = true.
Proof.
  induction l as [|x l IH]; [reflexivity|].
  cbn [groups_eqb]. now rewrite Z.eqb_refl.
Qed.

Lemma op_eq_spec (x y : BigInteger) : op_eq x y = true <-> x = y.
Proof.
  unfold op_eq. split.
  - destruct (Sign_eqb_spec (sign x) (sign y)) as [S|]; cbn [negb];
      [|discriminate].
    destruct (Nat.eqb_spec (size x) (size y)) as [L|]; cbn [negb];
      [|discriminate].
    intros G. apply groups_eqb_spec in G; [|exact L].
    destruct x, y. cbn in *. now subst.
  - intros ->. destruct (Sign_eqb_spec (sign y) (sign y)); [|congruence].
    rewrite Nat.eqb_refl. cbn [negb]. apply groups_eqb_refl.
Qed.



(** ** Decimal text *)

Lemma forallb_rev_eq {A : Type} (f : A -> bool) (l : list A) :
  forallb f (rev l) = forallb f l.
Proof.
  induction l as [|x l IH]; [reflexivity|].
  cbn [rev forallb]. rewrite forallb_app, IH. cbn [forallb].
  rewrite andb_true_r. apply andb_comm.
Qed.

Lemma fold_number_app (s : list ascii) (acc : Z) :
  fold_left (fun number c => number * 10 + digit_of c) s acc
  = acc * 10 ^ Z.of_nat (length s) + window_number s.
Proof.
  unfold window_number. revert acc.
  induction s as [|c s IH]; intros acc.
  - cbn. lia.
  - cbn [fold_left length]. rewrite IH, (IH (0 * 10 + digit_of c)).
    rewrite Nat2Z.inj_succ, Z.pow_succ_r by lia. ring.
Qed.

Lemma window_number_app (l r : list ascii) :
  window_number (l ++ r)
  = window_number l * 10 ^ Z.of_nat (length r) + window_number r.
Proof.
  unfold window_number at 1. rewrite fold_left_app, fold_number_app.
  reflexivity.
Qed.

Lemma window_number_cons (c : ascii) (s : list ascii) :
  window_number (c :: s)
  = digit_of c * 10 ^ Z.of_nat (length s) + window_number s.
Proof.
  change (c :: s) with ([c] ++ s). rewrite window_number_app.
  unfold window_number at 1. cbn. lia.
Qed.

Lemma list_pair_ind {A : Type} (P : list A -> Prop) :
  P [] -> (forall x, P [x]) -> (forall x y l, P l -> P (x :: y :: l)) ->
  forall l, P l.
Proof.
  intros H0 H1 H2.
  assert (H : forall l, P l /\ forall x, P (x :: l)).
  { induction l as [|y l [IH1 IH2]]; split; auto. }
  intros l. apply H.
Qed.

Lemma parse_groups_eval (r : list ascii) :
  eval base (parse_groups r) = window_number (rev r).
Proof.
  induction r as [|c0|c0 c1 r IH] using list_pair_ind.
  - reflexivity.
  - cbn. lia.
  - cbn [parse_groups eval rev]. rewrite IH.
    rewrite <- app_assoc. cbn [app]. rewrite window_number_app.
    cbn [length]. change (Z.of_nat 2) with 2. unfold base. lia.
Qed.

Lemma is_digit_iff (c : ascii) : is_digit c = true <-> 0 <= digit_of c <= 9.
Proof.
  unfold is_digit, digit_of.
  rewrite andb_true_iff, Nat.leb_le, Nat.leb_le. lia.
Qed.

Lemma parse_groups_digits (r : list ascii) :
  forallb is_digit r = true -> forallb digit (parse_groups r) = true.
Proof.
  induction r as [|c0|c0 c1 r IH] using list_pair_ind; intros H.
  - reflexivity.
  - cbn [forallb] in H. rewrite andb_true_r in H. apply is_digit_iff in H.
    cbn [parse_groups]. apply digits_cons. split; [|reflexivity].
    unfold window_number, base. cbn. lia.
  - cbn [forallb] in H. apply andb_true_iff in H. destruct H as [H0 H].
    apply andb_true_iff in H. destruct H as [H1 H].
    apply is_digit_iff in H0. apply is_digit_iff in H1.
    cbn [parse_groups]. apply digits_cons. split; [|auto].
    unfold window_number, base. cbn. lia.
Qed.

Lemma parse_groups_nonempty (r : list ascii) :
  r <> [] -> parse_groups r <> [].
Proof. destruct r as [|c0 [|c1 r]]; cbn; congruence. Qed.

Lemma is_digit_not_minus (c : ascii) : is_digit c = true -> c <> "-"%char.
Proof. intros H ->. discriminate. Qed.

Lemma valid_body_iff (s : list ascii) :
  valid_body s = true <-> s <> [] /\ forallb is_digit s = true.
Proof.
  unfold valid_body. rewrite andb_true_iff, negb_true_iff, Nat.eqb_neq.
  destruct s; cbn [length]; split; intros [H1 H2]; split; auto; congruence.
Qed.

(** The parse constructor on a digit string, and on one with a sign. *)
Lemma parse_plus (s : list ascii) :
  valid_body s = true ->
  BigInteger_of_string s
  = {| a := delete_trailing_zeroes (parse_groups (rev s)); sign := plus |}.
Proof.
  intros H. apply valid_body_iff in H. destruct H as [N D].
  destruct s as [|c s]; [congruence|].
  cbn [forallb] in D. apply andb_true_iff in D. destruct D as [Dc _].
  apply is_digit_not_minus in Dc.
  unfold BigInteger_of_string.
  destruct c as [[] [] [] [] [] [] [] []]; try reflexivity. congruence.
Qed.

Lemma parse_minus (s : list ascii) :
  BigInteger_of_string ("-"%char :: s)
  = {| a := delete_trailing_zeroes (parse_groups (rev s)); sign := minus |}.
Proof. reflexivity. Qed.

Lemma parse_body_spec (s : list ascii) (sg : Sign) :
  valid_body s = true ->
  let x := {| a := delete_trailing_zeroes (parse_groups (rev s)); sign := sg |} in
  wf x = true /\ mag x = window_number s.
Proof.
  intros H. apply valid_body_iff in H. destruct H as [N D]. cbv zeta. split.
  - apply wf_iff. cbn [a]. split.
    + apply delete_trailing_zeroes_digits, parse_groups_digits.
      now rewrite forallb_rev_eq.
    + apply delete_trailing_zeroes_trimmed, parse_groups_nonempty.
      intros C. apply (f_equal (@rev ascii)) in C.
      rewrite rev_involutive in C. now apply N.
  - unfold mag. cbn [a].
    now rewrite delete_trailing_zeroes_eval, parse_groups_eval, rev_involutive.
Qed.

Lemma number_to_string_table :
  forallb
    (fun n =>
       match number_to_string (Z.of_nat n) with
       | Some [c1; c0] =>
           Ascii.eqb c1 (digit_char (Z.of_nat n / 10))
           && Ascii.eqb c0 (digit_char (Z.of_nat n mod 10))
       | _ => false
       end) (seq 0 100) = true.
Proof. vm_compute. reflexivity. Qed.

Lemma number_to_string_digit (d : Z) :
  0 <= d < base ->
  number_to_string d = Some [digit_char (d / 10); digit_char (d mod 10)].
Proof.
  intros H. pose proof number_to_string_table as T.
  rewrite forallb_forall in T. specialize (T (Z.to_nat d)).
  rewrite Z2Nat.id in T by lia.
  assert (I : In (Z.to_nat d) (seq 0 100)).
  { apply in_seq. unfold base in H. lia. }
  specialize (T I).
  destruct (number_to_string d) as [[|c1 [|c0 [|c l]]]|]; try discriminate.
  apply andb_true_iff in T. destruct T as [T1 T0].
  apply Ascii.eqb_eq in T1. apply Ascii.eqb_eq in T0. now subst.
Qed.

Lemma digit_of_digit_char (k : Z) : 0 <= k <= 9 -> digit_of (digit_char k) = k.
Proof.
  intros H. unfold digit_of, digit_char.
  rewrite nat_ascii_embedding by lia. lia.
Qed.

Lemma is_digit_digit_char (k : Z) : 0 <= k <= 9 -> is_digit (digit_char k) = true.
Proof. intros H. apply is_digit_iff. rewrite digit_of_digit_char; lia. Qed.

Lemma concat_groups_spec (p : list Z) :
  forallb digit p = true ->
  exists s, concat_groups p = Some s
            /\ forallb is_digit s = true
            /\ length s = (2 * length p)%nat
            /\ window_number s = eval base (rev p).
Proof.
  induction p as [|d p IH]; intros H.
  - exists []. repeat split.
  - apply digits_cons in H. destruct H as [Hd Hp].
    destruct (IH Hp) as [s [Es [Ds [Ls Vs]]]].
    exists (digit_char (d / 10) :: digit_char (d mod 10) :: s).
    assert (Q : 0 <= d / 10 <= 9 /\ 0 <= d mod 10 <= 9).
    { unfold base in Hd. Z.to_euclidean_division_equations. lia. }
    destruct Q as [Q1 Q0].
    cbn [concat_groups]. rewrite number_to_string_digit, Es by assumption.
    cbn [obind app]. split; [reflexivity|]. split; [|split].
    + cbn [forallb]. now rewrite !is_digit_digit_char, Ds.
    + cbn [length]. lia.
    + rewrite !window_number_cons, !digit_of_digit_char by assumption.
      cbn [length rev]. rewrite eval_app, length_rev, Vs. cbn [eval].
      rewrite Ls, Nat2Z.inj_succ, Z.pow_succ_r by lia.
      replace (Z.of_nat (2 * length p)) with (2 * Z.of_nat (length p)) by lia.
      rewrite Z.pow_mul_r by lia. change (10 ^ 2) with base.
      unfold base in *. Z.to_euclidean_division_equations. nia.
Qed.

Lemma strip_leading_cons (c c' : ascii) (s : list ascii) :
  strip_leading (c :: c' :: s)
  = if Ascii.eqb c "0" then strip_leading (c' :: s) else c :: c' :: s.
Proof. reflexivity. Qed.

Lemma strip_leading_drop (s : list ascii) :
  drop_zeros (fun c => Ascii.eqb c "0") s = strip_leading s.
Proof.
  induction s as [|c s IH]; [reflexivity|].
  destruct s as [|c' s]; [reflexivity|].
  rewrite strip_leading_cons.
  rewrite <- IH. reflexivity.
Qed.

Lemma delete_trailing_zeroes_str_spec (s : list ascii) :
  delete_trailing_zeroes_str s = strip_leading s.
Proof.
  unfold delete_trailing_zeroes_str, reverse, pop_back_zeros.
  now rewrite !rev_involutive, strip_leading_drop.
Qed.

Lemma strip_leading_spec (s : list ascii) :
  valid_body s = true ->
  valid_body (strip_leading s) = true
  /\ window_number (strip_leading s) = window_number s.
Proof.
  induction s as [|c s IH]; intros H; [discriminate|].
  destruct s as [|c' s]; [now split|].
  rewrite strip_leading_cons.
  destruct (Ascii.eqb_spec c "0"%char) as [->|N].
  - assert (H' : valid_body (c' :: s) = true).
    { apply valid_body_iff in H. apply valid_body_iff. destruct H as [_ H].
      cbn [forallb] in H. apply andb_true_iff in H. split; [discriminate|].
      tauto. }
    destruct (IH H') as [V W]. split; [exact V|].
    rewrite W, (window_number_cons "0").
    change (digit_of "0") with 0. lia.
  - now split.
Qed.

Lemma strip_leading_idem (s : list ascii) :
  strip_leading (strip_leading s) = strip_leading s.
Proof.
  induction s as [|c s IH]; [reflexivity|].
  destruct s as [|c' s]; [reflexivity|].
  rewrite strip_leading_cons.
  destruct (Ascii.eqb c "0"%char) eqn:N.
  - exact IH.
  - rewrite strip_leading_cons.
    now rewrite N.
Qed.

Lemma toString_spec (x : BigInteger) :
  wf x = true ->
  exists body,
    toString x = Some (match sign x with
                       | minus => "-"%char :: body
                       | plus => body
                       end)
    /\ valid_body body = true
    /\ window_number body = mag x
    /\ strip_leading body = body.
Proof.
  intros H. pose proof (wf_size_pos _ H) as Hs. apply wf_iff in H.
  destruct H as [D T].
  destruct (concat_groups_spec (rev (a x))) as [s [Es [Ds [Ls Vs]]]].
  { now rewrite forallb_rev_eq. }
  rewrite rev_involutive in Vs. rewrite length_rev in Ls.
  assert (Vb : valid_body s = true).
  { apply valid_body_iff. split; [|exact Ds].
    intros ->. unfold size in Hs. simpl in Ls. lia. }
  destruct (strip_leading_spec s Vb) as [V W].
  exists (strip_leading s).
  assert (E : toString x
              = Some (match sign x with
                      | minus => "-"%char :: strip_leading s
                      | plus => strip_leading s
                      end)).
  { unfold toString. rewrite Es. cbn [obind].
    rewrite delete_trailing_zeroes_str_spec.
    unfold size in Hs. destruct (a x); [simpl in Hs; lia | reflexivity]. }
  split; [exact E|]. split; [exact V|]. split.
  - rewrite W, Vs. reflexivity.
  - apply strip_leading_idem.
Qed.

(** C5: for every canonical [x], [toString] returns a string and the parse
    constructor applied to it gives a value equal to [x]:
    [parse(to_string(x)) == x]. *)
Theorem parse_toString_roundtrip (x : BigInteger) :
  canonical x = true ->
  exists s, toString x = Some s
            /\ BigInteger_of_string s = x
            /\ op_eq (BigInteger_of_string s) x = true.
Proof.
  intros C. pose proof (canonical_wf _ C) as W.
  destruct (toString_spec x W) as [body [E [Vb [Vm _]]]].
  eexists. split; [exact E|].
  assert (P : BigInteger_of_string
                (match sign x with
                 | minus => "-"%char :: body
                 | plus => body
                 end) = x).
  { assert (Q : BigInteger_of_string
                  (match sign x with
                   | minus => "-"%char :: body
                   | plus => body
                   end)
                = {| a := delete_trailing_zeroes (parse_groups (rev body));
                     sign := sign x |}).
    { destruct (sign x); [now apply parse_plus | apply parse_minus]. }
    rewrite Q. destruct (parse_body_spec body (sign x) Vb) as [Wp Mp].
    apply wf_iff in Wp. apply wf_iff in W. cbn [a] in Wp.
    destruct x as [l sg]. cbn [sign a] in *. f_equal.
    apply trimmed_unique; try tauto.
    unfold mag in *. cbn [a] in *. congruence. }
  split; [exact P|]. now apply op_eq_spec.
Qed.

Lemma parse_toString_roundtrip_witness :
  canonical (BigInteger_of_string (str "-1234567")) = true
  /\ exists s, toString (BigInteger_of_string (str "-1234567")) = Some s
               /\ BigInteger_of_string s = BigInteger_of_string (str "-1234567")
               /\ op_eq (BigInteger_of_string s)
                        (BigInteger_of_string (str "-1234567")) = true.
Proof.
  split; [reflexivity|]. apply parse_toString_roundtrip. reflexivity.
Defined.

(** ** Division by ten *)

Lemma div10_loop_spec (p : list Z) (add : Z) :
  forallb digit p = true -> 0 <= add < 10 ->
  forallb digit (div10_loop p add) = true
  /\ length (div10_loop p add) = length p
  /\ eval base (rev (div10_loop p add))
     = (eval base (rev p) + add * base ^ Z.of_nat (length p)) / 10.
Proof.
  revert add. induction p as [|d p IH]; intros add Hp Ha.
  - cbn. repeat split. rewrite Z.mul_1_r. symmetry. apply Z.div_small. lia.
  - apply digits_cons in Hp. destruct Hp as [Hd Hp].
    cbn [div10_loop].
    set (cur := d + add * base).
    assert (Hq : 0 <= Z.quot cur 10 < base /\ 0 <= Z.rem cur 10 < 10
                 /\ cur = 10 * Z.quot cur 10 + Z.rem cur 10).
    { unfold cur, base in *. Z.to_euclidean_division_equations. lia. }
    destruct Hq as [Hq [Hr Ec]].
    destruct (IH (Z.rem cur 10) Hp Hr) as [D [L E]].
    split; [|split].
    + apply digits_cons. auto.
    + cbn [length]. now rewrite L.
    + cbn [rev]. rewrite !eval_app, !length_rev, L, E. cbn [eval length].
      rewrite Nat2Z.inj_succ, Z.pow_succ_r by lia.
      set (P := base ^ Z.of_nat (length p)) in *.
      set (lo := eval base (rev p)) in *.
      replace (lo + P * (d + base * 0) + add * (base * P))
        with (lo + Z.rem cur 10 * P + (P * Z.quot cur 10) * 10)
        by (unfold cur in Ec |- *; nia).
      rewrite Z.div_add by lia. lia.
Qed.

Lemma div10_spec (x : BigInteger) :
  wf x = true ->
  wf (div10 x) = true /\ mag (div10 x) = mag x / 10
  /\ sign (div10 x) = sign x.
Proof.
  intros H. pose proof (wf_size_pos _ H) as Hs. apply wf_iff in H.
  destruct H as [D T].
  destruct (div10_loop_spec (rev (a x)) 0) as [D' [L E]];
    [now rewrite forallb_rev_eq | lia |].
  rewrite rev_involutive in E. rewrite length_rev in L.
  unfold div10. split; [|split; [|reflexivity]].
  - apply wf_iff. cbn [a]. split.
    + apply delete_trailing_zeroes_digits. now rewrite forallb_rev_eq.
    + apply delete_trailing_zeroes_trimmed. intros C.
      apply (f_equal (@length Z)) in C. rewrite length_rev, L in C.
      unfold size in Hs. simpl in C. lia.
  - unfold mag. cbn [a]. rewrite delete_trailing_zeroes_eval, E.
    f_equal. lia.
Qed.

(** ** The long division *)

Lemma sub_plus_spec (this sub : BigInteger) :
  wf this = true -> wf sub = true ->
  sign this = plus -> sign sub = plus -> mag sub <= mag this ->
  wf (op_sub_assign this sub) = true
  /\ sign (op_sub_assign this sub) = plus
  /\ mag (op_sub_assign this sub) = mag this - mag sub.
Proof.
  intros Wt Ws St Ss Hle.
  assert (It : I2 this = true) by (apply I2_iff; auto).
  destruct (op_sub_assign_spec this sub Wt Ws) as [W [V I]].
  specialize (I It). set (r := op_sub_assign this sub) in *.
  rewrite !val_sign, St, Ss in V. cbn [rsign_Z] in V.
  pose proof (mag_bound _ W) as B.
  split; [exact W|].
  destruct (sign r) eqn:Sr; cbn [rsign_Z] in V.
  - split; [reflexivity | lia].
  - assert (Z : is_zero r = true).
    { rewrite is_zero_mag by exact W. apply Z.eqb_eq. lia. }
    apply (proj1 (I2_iff r) I) in Z. congruence.
Qed.

Lemma digit_loop_spec (sub : BigInteger) (k : nat) :
  wf sub = true -> sign sub = plus -> 0 < mag sub ->
  forall (this : BigInteger) (n : Z),
    wf this = true -> sign this = plus ->
    mag this < (Z.of_nat k + 1) * mag sub ->
    exists this' n',
      digit_loop k this sub n = (this', n')
      /\ wf this' = true /\ sign this' = plus
      /\ mag this' < mag sub
      /\ mag this = (n' - n) * mag sub + mag this'
      /\ 0 <= n' - n <= Z.of_nat k.
Proof.
  intros Ws Ss Hpos. induction k as [|k IH]; intros this n Wt St Hlt.
  - exists this, n. cbn [digit_loop]. repeat split; auto; lia.
  - cbn [digit_loop]. rewrite less_abs_spec by assumption.
    destruct (Z.ltb_spec (mag this) (mag sub)) as [L|G].
    + exists this, n. repeat split; auto; lia.
    + destruct (sub_plus_spec this sub Wt Ws St Ss G) as [W1 [S1 M1]].
      destruct (IH (op_sub_assign this sub) (n + 1) W1 S1) as
        [this' [n' [E [W' [S' [L' [M' R']]]]]]].
      { rewrite M1. lia. }
      exists this', n'. repeat split; auto; lia.
Qed.

Lemma div_loop_spec (D : Z) (t : nat) :
  0 < D ->
  forall (this sub : BigInteger) (result : list ascii),
    wf this = true -> sign this = plus ->
    wf sub = true -> sign sub = plus ->
    mag sub = D * 10 ^ Z.of_nat t -> mag this < 10 * mag sub ->
    exists this' ds,
      div_loop (S t) this sub result = (this', result ++ ds)
      /\ forallb is_digit ds = true
      /\ length ds = S t
      /\ window_number ds = mag this / D
      /\ mag this' = mag this mod D
      /\ wf this' = true /\ sign this' = plus.
Proof.
  intros HD. induction t as [|t IH]; intros this sub result Wt St Ws Ss Ms Hlt.
  - change (Z.of_nat 0) with 0 in Ms. rewrite Z.pow_0_r, Z.mul_1_r in Ms.
    destruct (digit_loop_spec sub 9 Ws Ss ltac:(lia) this 0 Wt St ltac:(lia))
      as [this' [n' [E [W' [S' [L' [M' R']]]]]]].
    exists this', [digit_char n'].
    cbn [div_loop]. rewrite E. split; [reflexivity|].
    pose proof (mag_bound _ W') as B'.
    split; [|split; [|split; [|split]]]; auto.
    + cbn [forallb]. rewrite is_digit_digit_char; [reflexivity | lia].
    + rewrite window_number_cons, digit_of_digit_char by lia.
      cbn. rewrite M', Ms. symmetry.
      rewrite Z.mul_1_r, Z.add_0_r, Z.sub_0_r.
      rewrite Z.div_add_l by lia. rewrite Z.div_small by lia. lia.
    + rewrite M', Ms, Z.add_comm, Z.mod_add by lia.
      symmetry. apply Z.mod_small. lia.
  - assert (P : 0 < 10 ^ Z.of_nat t) by (apply Z.pow_pos_nonneg; lia).
    rewrite Nat2Z.inj_succ, Z.pow_succ_r in Ms by lia.
    destruct (digit_loop_spec sub 9 Ws Ss ltac:(nia) this 0 Wt St ltac:(lia))
      as [this1 [n1 [E [W1 [S1 [L1 [M1 R1]]]]]]].
    destruct (div10_spec sub Ws) as [Wd [Md Sd]].
    assert (Md' : mag (div10 sub) = D * 10 ^ Z.of_nat t).
    { rewrite Md, Ms.
      replace (D * (10 * 10 ^ Z.of_nat t)) with (D * 10 ^ Z.of_nat t * 10)
        by ring.
      apply Z.div_mul. lia. }
    destruct (IH this1 (div10 sub) (result ++ [digit_char n1]) W1 S1 Wd
                ltac:(congruence) Md' ltac:(lia))
      as [this' [ds [E' [Dd [Ld [Vd [M' [W' S']]]]]]]].
    exists this', (digit_char n1 :: ds).
    change (div_loop (S (S t)) this sub result)
      with (let '(this0, number) := digit_loop 9 this sub 0 in
            div_loop (S t) this0 (div10 sub) (result ++ [digit_char number])).
    rewrite E, E', <- app_assoc. split; [reflexivity|].
    pose proof (mag_bound _ W1) as B1.
    split; [|split; [|split; [|split]]]; auto.
    + cbn [forallb]. rewrite is_digit_digit_char, Dd; [reflexivity | lia].
    + cbn [length]. now rewrite Ld.
    + rewrite window_number_cons, digit_of_digit_char, Ld, Vd by lia.
      rewrite M1, Ms, Z.sub_0_r.
      replace (n1 * (D * (10 * 10 ^ Z.of_nat t)) + mag this1)
        with ((n1 * (10 * 10 ^ Z.of_nat t)) * D + mag this1) by ring.
      rewrite Z.div_add_l by lia.
      rewrite Nat2Z.inj_succ, Z.pow_succ_r by lia. reflexivity.
    + rewrite M', M1, Ms, Z.sub_0_r.
      replace (n1 * (D * (10 * 10 ^ Z.of_nat t)) + mag this1)
        with (mag this1 + (n1 * (10 * 10 ^ Z.of_nat t)) * D) by ring.
      now rewrite Z.mod_add by lia.
Qed.

Lemma forallb_repeat {A : Type} (f : A -> bool) (x : A) (n : nat) :
  f x = true -> forallb f (repeat x n) = true.
Proof. intros H. induction n; cbn; [reflexivity | now rewrite H]. Qed.

Lemma window_number_zeros (s : list ascii) (n : nat) :
  window_number (s ++ repeat "0"%char n) = window_number s * 10 ^ Z.of_nat n.
Proof.
  rewrite window_number_app, repeat_length.
  assert (Z0 : window_number (repeat "0"%char n) = 0).
  { induction n as [|n IH]; [reflexivity|].
    cbn [repeat]. rewrite window_number_cons, IH.
    change (digit_of "0") with 0. lia. }
  rewrite Z0. lia.
Qed.

Lemma valid_body_zeros (s : list ascii) (n : nat) :
  valid_body s = true -> valid_body (s ++ repeat "0"%char n) = true.
Proof.
  intros H. apply valid_body_iff in H. destruct H as [N D].
  apply valid_body_iff. split.
  - destruct s; [congruence | discriminate].
  - rewrite forallb_app, D. now apply forallb_repeat.
Qed.

Lemma quot_signed (s1 s2 : Sign) (m1 m2 : Z) :
  0 <= m1 -> 0 < m2 ->
  Z.quot (rsign_Z s1 * m1) (rsign_Z s2 * m2)
  = rsign_Z (sign_mul s1 s2) * (m1 / m2).
Proof.
  intros H1 H2. rewrite <- Z.quot_div_nonneg by lia.
  destruct s1, s2; cbn [rsign_Z sign_mul Sign_eqb];
    rewrite ?Z.mul_1_l;
    replace (-1 * m1) with (- m1) by lia;
    replace (-1 * m2) with (- m2) by lia;
    rewrite ?Z.quot_opp_l, ?Z.quot_opp_r by lia; lia.
Qed.

Lemma rem_signed (s1 s2 : Sign) (m1 m2 : Z) :
  0 <= m1 -> 0 < m2 ->
  Z.rem (rsign_Z s1 * m1) (rsign_Z s2 * m2) = rsign_Z s1 * (m1 mod m2).
Proof.
  intros H1 H2. rewrite <- Z.rem_mod_nonneg by lia.
  destruct s1, s2; cbn [rsign_Z];
    rewrite ?Z.mul_1_l;
    replace (-1 * m1) with (- m1) by lia;
    replace (-1 * m2) with (- m2) by lia;
    rewrite ?Z.rem_opp_l, ?Z.rem_opp_r by lia; lia.
Qed.

Lemma wf_lower (x : BigInteger) :
  wf x = true -> 0 < mag x -> base ^ Z.of_nat (size x - 1) <= mag x.
Proof.
  intros W P. pose proof (wf_size_pos _ W) as S1.
  destruct (Nat.eq_dec (size x) 1) as [E|N].
  - rewrite E. cbn. lia.
  - apply wf_iff in W. apply trimmed_lower; try tauto. unfold size in *. lia.
Qed.

Lemma shifted_divisor_bound (this x : BigInteger) :
  wf this = true -> wf x = true -> 0 < mag x -> (size x <= size this)%nat ->
  mag this < mag x * 10 ^ Z.of_nat ((size this - size x + 1) * base_len).
Proof.
  intros Wt Wx P Hs.
  pose proof (mag_bound _ Wt) as Bt. pose proof (wf_lower _ Wx P) as Lx.
  pose proof (wf_size_pos _ Wx) as S1.
  unfold base_len.
  replace (Z.of_nat ((size this - size x + 1) * 2))
    with (2 * Z.of_nat (size this - size x + 1)) by lia.
  rewrite Z.pow_mul_r by lia. change (10 ^ 2) with base.
  assert (E : base ^ Z.of_nat (size this)
              = base ^ Z.of_nat (size x - 1)
                * base ^ Z.of_nat (size this - size x + 1)).
  { rewrite <- Z.pow_add_r by lia. f_equal. lia. }
  pose proof (base_pow_pos (size this - size x + 1)).
  nia.
Qed.

(** [operator/=] on a divisor that is not zero: the quotient truncated
    toward zero, in canonical form. *)
Lemma op_div_assign_spec (this x : BigInteger) :
  wf this = true -> wf x = true -> 0 < mag x ->
  exists q, op_div_assign this x = Some q
            /\ canonical q = true
            /\ val q = Z.quot (val this) (val x).
Proof.
  intros Wt Wx P.
  pose proof (mag_bound _ Wt) as Bt.
  unfold op_div_assign.
  destruct (Nat.ltb_spec (size this) (size x)) as [Lt|Ge].
  - exists {| a := [0]; sign := plus |}. split; [reflexivity|].
    split; [reflexivity|].
    assert (M : mag this < mag x).
    { apply Z.nle_gt. intros C. pose proof (wf_size_le _ _ Wx Wt C). lia. }
    rewrite !val_sign, quot_signed by lia.
    rewrite Z.div_small by lia. cbn. lia.
  - destruct (toString_spec (set_sign x plus)) as [body [E [Vb [Vm _]]]];
      [exact Wx|].
    cbn [set_sign sign] in E. rewrite mag_set_sign in Vm.
    rewrite E. cbn [obind].
    change (size (set_sign this plus)) with (size this).
    set (degree := ((size this - size x + 1) * base_len)%nat).
    set (divisor := body ++ repeat "0"%char degree).
    assert (Vd : valid_body divisor = true) by now apply valid_body_zeros.
    rewrite (parse_plus divisor Vd).
    destruct (parse_body_spec divisor plus Vd) as [Ws Ms]. cbv zeta in Ws, Ms.
    set (sub := {| a := delete_trailing_zeroes (parse_groups (rev divisor));
                   sign := plus |}) in *.
    unfold divisor in Ms. rewrite window_number_zeros, Vm in Ms.
    pose proof (shifted_divisor_bound this x Wt Wx P Ge) as Sh.
    fold degree in Sh.
    set (sg := sign_mul (sign this) (sign x)).
    set (result := match sg with minus => ["-"%char] | plus => [] end).
    destruct (div_loop_spec (mag x) degree P (set_sign this plus) sub result)
      as [this' [ds [El [Dd [Ld [Vds _]]]]]]; auto.
    { rewrite mag_set_sign. lia. }
    rewrite El. rewrite mag_set_sign in Vds.
    assert (Vds' : valid_body ds = true).
    { apply valid_body_iff. split; [|exact Dd]. intros ->. discriminate. }
    assert (Q : BigInteger_of_string (result ++ ds)
                = {| a := delete_trailing_zeroes (parse_groups (rev ds));
                     sign := sg |}).
    { unfold result. destruct sg; [now apply parse_plus | apply parse_minus]. }
    rewrite Q. destruct (parse_body_spec ds sg Vds') as [Wq Mq].
    cbv zeta in Wq, Mq. cbn [a sign].
    set (q := {| a := delete_trailing_zeroes (parse_groups (rev ds));
                 sign := sg |}) in *.
    change {| a := delete_trailing_zeroes
                     (delete_trailing_zeroes (parse_groups (rev ds)));
              sign := sg |}
      with {| a := delete_trailing_zeroes (a q); sign := sign q |}.
    rewrite (wf_trim q Wq).
    destruct (collapse_spec q Wq) as [W' [V' [I' _]]].
    eexists. split; [reflexivity|]. split.
    + apply canonical_iff. auto.
    + rewrite V', !val_sign, quot_signed by lia.
      unfold q at 1. cbn [sign]. rewrite Mq, Vds. reflexivity.
Qed.

(** ** The product of two polynomials *)

Lemma poly_add_eval (B : Z) (l r : list Z) :
  eval B (poly_add l r) = eval B l + eval B r.
Proof.
  revert r. induction l as [|x l IH]; intros [|y r]; cbn [poly_add eval];
    try lia.
  rewrite IH. ring.
Qed.

Lemma eval_scale (B x : Z) (r : list Z) :
  eval B (map (Z.mul x) r) = x * eval B r.
Proof.
  induction r as [|y r IH]; cbn [map eval]; [lia|]. rewrite IH. ring.
Qed.

Lemma convolution_eval (B : Z) (l r : list Z) :
  eval B (convolution l r) = eval B l * eval B r.
Proof.
  induction l as [|x l IH]; cbn [convolution eval]; [lia|].
  rewrite poly_add_eval, eval_scale. cbn [eval]. rewrite IH. ring.
Qed.

Lemma poly_add_length (l r : list Z) :
  length (poly_add l r) = Nat.max (length l) (length r).
Proof.
  revert r. induction l as [|x l IH]; intros [|y r]; cbn [poly_add length];
    try lia.
  rewrite IH. lia.
Qed.

Lemma convolution_length (l r : list Z) :
  (length (convolution l r) <= length l + length r)%nat.
Proof.
  induction l as [|x l IH]; cbn [convolution length]; [lia|].
  rewrite poly_add_length, length_map. cbn [length]. lia.
Qed.

Lemma coefficient_below_iff (m c : Z) :
  coefficient_below m c = true <-> 0 <= c <= m.
Proof.
  unfold coefficient_below. rewrite andb_true_iff, !Z.leb_le. tauto.
Qed.

Lemma coefficient_below_mono (m m' : Z) (l : list Z) :
  m <= m' -> forallb (coefficient_below m) l = true ->
  forallb (coefficient_below m') l = true.
Proof.
  intros H. rewrite !forallb_forall. intros A c Hc. specialize (A c Hc).
  apply coefficient_below_iff in A. apply coefficient_below_iff. lia.
Qed.

Lemma poly_add_below (m1 m2 : Z) (l r : list Z) :
  0 <= m1 -> 0 <= m2 ->
  forallb (coefficient_below m1) l = true ->
  forallb (coefficient_below m2) r = true ->
  forallb (coefficient_below (m1 + m2)) (poly_add l r) = true.
Proof.
  intros P1 P2. revert r. induction l as [|x l IH]; intros [|y r] Hl Hr.
  - reflexivity.
  - cbn [poly_add]. apply coefficient_below_mono with (m := m2); [lia|auto].
  - cbn [poly_add]. apply coefficient_below_mono with (m := m1); [lia|auto].
  - cbn [forallb] in Hl, Hr. apply andb_true_iff in Hl, Hr.
    destruct Hl as [Hx Hl], Hr as [Hy Hr].
    apply coefficient_below_iff in Hx, Hy.
    cbn [poly_add forallb]. apply andb_true_iff. split.
    + apply coefficient_below_iff. lia.
    + now apply IH.
Qed.

Lemma convolution_below (l r : list Z) :
  forallb digit l = true -> forallb digit r = true ->
  forallb (coefficient_below (9801 * Z.of_nat (length l)))
          (convolution l r) = true.
Proof.
  intros Hl Hr. induction l as [|x l IH]; [reflexivity|].
  apply digits_cons in Hl. destruct Hl as [Hx Hl]. specialize (IH Hl).
  cbn [convolution length]. rewrite Nat2Z.inj_succ.
  replace (9801 * Z.succ (Z.of_nat (length l)))
    with (9801 + 9801 * Z.of_nat (length l)) by lia.
  apply poly_add_below; try lia.
  - rewrite forallb_forall in *. intros c Hc. apply in_map_iff in Hc.
    destruct Hc as [y [<- Hy]]. specialize (Hr y Hy). apply digit_iff in Hr.
    apply coefficient_below_iff. unfold base in *. nia.
  - cbn [forallb]. rewrite IH. apply andb_true_iff. split; [|reflexivity].
    apply coefficient_below_iff. lia.
Qed.

(** ** The carry loop *)

Lemma wrap_int_small (z : Z) : INT_MIN <= z <= INT_MAX -> wrap_int z = z.
Proof.
  unfold wrap_int, INT_MIN, INT_MAX. intros H.
  rewrite Z.mod_small by lia. lia.
Qed.

(** With coefficients up to [K], the carry stays within a 99th of [K] and
    the sums within [int], provided [K + K / 99 <= INT_MAX]: the loop then
    computes the groups of the value of [res]. *)
Lemma carry_loop_spec (K : Z) (res : list Z) (c : Z) :
  100 * K <= 99 * INT_MAX ->
  forallb (coefficient_below K) res = true -> 0 <= c -> 99 * c <= K ->
  forallb digit (carry_loop res c) = true
  /\ length (carry_loop res c) = length res
  /\ eval base (carry_loop res c)
     = (eval base res + c) mod base ^ Z.of_nat (length res).
Proof.
  intros HK. revert c. induction res as [|d res IH]; intros c H Hc Hc'.
  - cbn. repeat split. now rewrite Z.mod_1_r.
  - cbn [forallb] in H. apply andb_true_iff in H. destruct H as [Hd H].
    apply coefficient_below_iff in Hd.
    cbn [carry_loop].
    rewrite wrap_int_small by (unfold INT_MIN, INT_MAX in *; lia).
    rewrite Z.rem_mod_nonneg, Z.quot_div_nonneg by (unfold base; lia).
    assert (Q : 0 <= (d + c) / base).
    { apply Z.div_pos; unfold base; lia. }
    assert (Q' : 99 * ((d + c) / base) <= K).
    { pose proof (Z.mul_div_le (d + c) base ltac:(unfold base; lia)).
      unfold base in *. lia. }
    destruct (IH ((d + c) / base) H Q Q') as [D [L E]].
    split; [|split].
    + apply digits_cons. split; [|exact D].
      apply Z.mod_pos_bound. unfold base. lia.
    + cbn [length]. now rewrite L.
    + cbn [eval length]. rewrite E, Nat2Z.inj_succ, Z.pow_succ_r by lia.
      pose proof (base_pow_pos (length res)) as PP.
      rewrite Z.rem_mul_r by (unfold base in *; lia).
      replace (d + base * eval base res + c)
        with (d + c + eval base res * base) by ring.
      rewrite Z.mod_add, Z.div_add by (unfold base; lia).
      f_equal. f_equal. f_equal. lia.
Qed.

(** ** Bounds on the coefficients of a product *)

Lemma poly_add_nth (l r : list Z) (k : nat) :
  nth k (poly_add l r) 0 = nth k l 0 + nth k r 0.
Proof.
  revert r k. induction l as [|x l IH]; intros [|y r] [|k];
    cbn [poly_add nth]; try lia.
  apply IH.
Qed.

Lemma map_mul_nth (x : Z) (r : list Z) (k : nat) :
  nth k (map (Z.mul x) r) 0 = x * nth k r 0.
Proof.
  revert k. induction r as [|y r IH]; intros [|k]; cbn [map nth]; try lia.
  apply IH.
Qed.

Lemma group_sum_nonneg (r : list Z) :
  forallb digit r = true -> 0 <= group_sum r.
Proof.
  induction r as [|y r IH]; intros D; cbn [group_sum]; [lia|].
  apply digits_cons in D. destruct D as [Dy D].
  specialize (IH D). lia.
Qed.

Lemma group_sum_firstn (r : list Z) (k : nat) :
  forallb digit r = true ->
  0 <= group_sum (firstn k r) <= group_sum r.
Proof.
  revert k. induction r as [|y r IH]; intros k D.
  - rewrite firstn_nil. cbn. lia.
  - apply digits_cons in D. destruct D as [Dy D].
    pose proof (group_sum_nonneg r D) as P.
    destruct k as [|k]; cbn [firstn group_sum] in *; [lia|].
    specialize (IH k D). lia.
Qed.

Lemma group_sum_firstn_succ (r : list Z) (k : nat) :
  group_sum (firstn (S k) r) = group_sum (firstn k r) + nth k r 0.
Proof.
  revert k. induction r as [|y r IH]; intros k.
  - rewrite !firstn_nil. destruct k; reflexivity.
  - destruct k as [|k].
    + cbn. lia.
    + change (firstn (S (S k)) (y :: r)) with (y :: firstn (S k) r).
      change (firstn (S k) (y :: r)) with (y :: firstn k r).
      cbn [group_sum nth].
      specialize (IH k). lia.
Qed.

Lemma group_sum_length (r : list Z) :
  forallb digit r = true -> group_sum r <= 99 * Z.of_nat (length r).
Proof.
  induction r as [|y r IH]; intros D; cbn [group_sum length];
    [lia|].
  apply digits_cons in D. destruct D as [Dy D].
  specialize (IH D). unfold base in *. lia.
Qed.

(** Coefficient [k] of a product is a sum of at most [k + 1] products of
    two groups, one for each of the first [k + 1] groups of [r]. *)
Lemma convolution_nth_le (l r : list Z) (k : nat) :
  forallb digit l = true -> forallb digit r = true ->
  nth k (convolution l r) 0 <= 99 * group_sum (firstn (S k) r).
Proof.
  intros Dl Dr. revert k. induction l as [|x l IH]; intros k.
  - pose proof (group_sum_firstn r (S k) Dr). destruct k; cbn [convolution nth]; lia.
  - apply digits_cons in Dl. destruct Dl as [Dx Dl].
    specialize (IH Dl).
    cbn [convolution]. rewrite poly_add_nth, map_mul_nth.
    rewrite group_sum_firstn_succ.
    assert (Dk : 0 <= nth k r 0 < base).
    { destruct (Nat.lt_ge_cases k (length r)) as [L|G].
      - apply digit_iff. rewrite forallb_forall in Dr. apply Dr.
        now apply nth_In.
      - rewrite nth_overflow by exact G. unfold base. lia. }
    destruct k as [|k]; cbn [nth].
    + change (firstn 0 r) with (@nil Z). cbn [group_sum].
      unfold base in *. nia.
    + specialize (IH k). unfold base in *. nia.
Qed.

Lemma convolution_below_sum (l r : list Z) :
  forallb digit l = true -> forallb digit r = true ->
  forallb (coefficient_below (99 * group_sum r)) (convolution l r) = true.
Proof.
  intros Dl Dr. pose proof (convolution_below l r Dl Dr) as Cb.
  apply forallb_forall. intros c Hc.
  rewrite forallb_forall in Cb. specialize (Cb c Hc).
  apply coefficient_below_iff in Cb. apply coefficient_below_iff.
  split; [lia|].
  destruct (In_nth _ _ 0 Hc) as [k [_ <-]].
  pose proof (convolution_nth_le l r k Dl Dr).
  pose proof (group_sum_firstn r (S k) Dr). lia.
Qed.

Lemma convolution_below_min (l r : list Z) :
  forallb digit l = true -> forallb digit r = true ->
  forallb (coefficient_below
             (9801 * Z.of_nat (Nat.min (length l) (length r))))
          (convolution l r) = true.
Proof.
  intros Dl Dr.
  pose proof (convolution_below l r Dl Dr) as C1.
  pose proof (convolution_below_sum l r Dl Dr) as C2.
  pose proof (group_sum_length r Dr) as G.
  apply forallb_forall. intros c Hc.
  rewrite forallb_forall in C1, C2.
  specialize (C1 c Hc). specialize (C2 c Hc).
  apply coefficient_below_iff in C1, C2. apply coefficient_below_iff. lia.
Qed.

(** ** The size of the transform *)

Lemma grow_ge (fuel n m : nat) :
  (m <= n * 2 ^ fuel)%nat -> (m <= grow fuel n m)%nat.
Proof.
  revert n. induction fuel as [|fuel IH]; intros n H; cbn [grow].
  - cbn in H. lia.
  - destruct (Nat.ltb_spec n m) as [L|G]; [|lia].
    apply IH. cbn [Nat.pow] in H. lia.
Qed.

Lemma grow_pos (fuel n m : nat) : (n <= grow fuel n m)%nat.
Proof.
  revert n. induction fuel as [|fuel IH]; intros n; cbn [grow]; [lia|].
  destruct (n <? m)%nat; [|lia]. specialize (IH (2 * n)%nat). lia.
Qed.

Lemma fft_size_ge (sa sb : nat) :
  (sa + sb <= fft_size sa sb)%nat /\ (2 <= fft_size sa sb)%nat.
Proof.
  unfold fft_size. set (m := Nat.max sa sb).
  assert (G : (m <= grow m 1 m)%nat).
  { apply grow_ge. destruct m as [|m]; [lia|].
    pose proof (Nat.pow_gt_lin_r 2 (S m)). lia. }
  pose proof (grow_pos m 1 m). unfold m in *. lia.
Qed.

(** ** Multiplication, when the transform is exact *)

Lemma exact_fft_product (F : FloatModel) (x y : list Z) :
  exact_fft F -> forallb digit x = true -> forallb digit y = true ->
  exact_product F x y.
Proof.
  intros H Dx Dy. apply H; auto. apply fft_size_ge.
Qed.

Lemma exact_fft_upto (F : FloatModel) (N : Z) : exact_fft F -> exact_upto F N.
Proof. intros H x y Dx Dy _. now apply exact_fft_product. Qed.

(** The product, when the transform is exact at it and the coefficients are
    small enough for the sums of the carry loop to stay within [int]. *)
Lemma op_mul_assign_bounded (F : FloatModel) (K : Z) (this x : BigInteger) :
  exact_product F (a this) (a x) ->
  0 <= K -> 100 * K <= 99 * INT_MAX ->
  forallb (coefficient_below K) (convolution (a this) (a x)) = true ->
  wf this = true -> wf x = true ->
  canonical (op_mul_assign this x) = true
  /\ val (op_mul_assign this x) = val this * val x.
Proof.
  intros Hexact K0 HK Cb Wt Wx.
  pose proof (mag_bound _ Wt) as Bt. pose proof (mag_bound _ Wx) as Bx.
  pose proof Wt as Wt'. pose proof Wx as Wx'.
  apply wf_iff in Wt', Wx'. destruct Wt' as [Dt _], Wx' as [Dx _].
  unfold op_mul_assign.
  set (n := fft_size (size this) (size x)).
  destruct (fft_size_ge (size this) (size x)) as [Hn Hn2]. fold n in Hn, Hn2.
  unfold exact_product in Hexact. fold (size this) (size x) n in Hexact.
  rewrite Hexact.
  set (res := resize n 0 (convolution (a this) (a x))).
  pose proof (convolution_length (a this) (a x)) as Lc.
  assert (Er : eval base res = mag this * mag x).
  { unfold res. rewrite eval_resize by (unfold size in Hn; lia).
    apply convolution_eval. }
  assert (Pr : forallb (coefficient_below K) res = true).
  { unfold res. rewrite resize_ge by (unfold size in Hn; lia).
    rewrite forallb_app. apply andb_true_iff. split; [exact Cb|].
    rewrite forallb_forall. intros c Hc. apply repeat_spec in Hc. subst c.
    apply coefficient_below_iff. lia. }
  destruct (carry_loop_spec K res 0 HK Pr ltac:(lia) ltac:(lia)) as [D [L E]].
  assert (Lr : length res = n) by apply resize_length.
  rewrite Lr in L, E.
  assert (Ec : eval base (carry_loop res 0) = mag this * mag x).
  { rewrite E, Z.add_0_r, Er. apply Z.mod_small.
    assert (P : base ^ Z.of_nat (size this) * base ^ Z.of_nat (size x)
                <= base ^ Z.of_nat n).
    { rewrite <- Z.pow_add_r by lia. apply Z.pow_le_mono_r; unfold base; lia. }
    nia. }
  set (p := {| a := delete_trailing_zeroes (carry_loop res 0);
               sign := sign_mul (sign this) (sign x) |}).
  assert (Wp : wf p = true).
  { apply wf_iff. cbn [p a]. split.
    - now apply delete_trailing_zeroes_digits.
    - apply delete_trailing_zeroes_trimmed. intros C.
      apply (f_equal (@length Z)) in C. rewrite L in C. simpl in C. lia. }
  destruct (collapse_spec p Wp) as [W' [V' [I' _]]].
  split.
  - apply canonical_iff. auto.
  - assert (Mp : mag p = mag this * mag x).
    { unfold p, mag. cbn [a]. now rewrite delete_trailing_zeroes_eval. }
    assert (Sp : sign p = sign_mul (sign this) (sign x)) by reflexivity.
    rewrite V', !val_sign, Mp, Sp.
    destruct (sign this), (sign x); cbn [sign_mul Sign_eqb rsign_Z]; ring.
Qed.

(** The number of groups of a value below [base ^ k]. *)
Lemma wf_size_below (x : BigInteger) (k : nat) :
  wf x = true -> (1 <= k)%nat -> mag x < base ^ Z.of_nat k ->
  (size x <= k)%nat.
Proof.
  intros W Hk B. pose proof (mag_bound _ W) as Bm.
  destruct (Z.eq_dec (mag x) 0) as [Z0|NZ].
  { assert (Zx : is_zero x = true).
    { rewrite is_zero_mag by exact W. now apply Z.eqb_eq. }
    apply is_zero_iff in Zx. unfold size. rewrite Zx. cbn [length]. lia. }
  destruct (Nat.le_gt_cases (size x) k) as [L|G]; [exact L|].
  exfalso. pose proof (wf_lower x W ltac:(lia)) as Lo.
  assert (base ^ Z.of_nat k <= base ^ Z.of_nat (size x - 1)).
  { apply Z.pow_le_mono_r; unfold base; lia. }
  lia.
Qed.

Lemma short_le (x y : BigInteger) :
  wf x = true -> wf y = true -> mag x <= mag y -> short y -> short x.
Proof.
  intros Wx Wy H S. pose proof (wf_size_le x y Wx Wy H). unfold short in *.
  lia.
Qed.

Lemma short_single (x : BigInteger) : size x = 1%nat -> short x.
Proof. unfold short, max_groups. intros ->. lia. Qed.

Section ExactProduct.
Context {F : FloatModel}.
Hypothesis Hexact : exact_upto F max_groups.

Lemma op_mul_assign_spec (this x : BigInteger) :
  wf this = true -> wf x = true -> short this \/ short x ->
  canonical (op_mul_assign this x) = true
  /\ val (op_mul_assign this x) = val this * val x.
Proof.
  intros Wt Wx S.
  pose proof Wt as Wt'. pose proof Wx as Wx'.
  apply wf_iff in Wt', Wx'. destruct Wt' as [Dt _], Wx' as [Dx _].
  assert (M : Z.of_nat (Nat.min (size this) (size x)) <= max_groups).
  { unfold short in S. lia. }
  refine (op_mul_assign_bounded F
            (9801 * Z.of_nat (Nat.min (size this) (size x)))
            this x _ _ _ _ Wt Wx).
  - now apply Hexact.
  - lia.
  - unfold max_groups, INT_MAX in *. lia.
  - now apply convolution_below_min.
Qed.

(** The product of two operands has at most as many groups as both
    together. *)
Lemma op_mul_assign_size (this x : BigInteger) :
  wf this = true -> wf x = true -> short this \/ short x ->
  (size (op_mul_assign this x) <= size this + size x)%nat.
Proof.
  intros Wt Wx S. destruct (op_mul_assign_spec this x Wt Wx S) as [C V].
  pose proof (mag_bound _ Wt) as Bt. pose proof (mag_bound _ Wx) as Bx.
  pose proof (wf_size_pos _ Wt).
  apply wf_size_below; [now apply canonical_wf | lia |].
  assert (M : mag (op_mul_assign this x) = mag this * mag x).
  { pose proof (mag_bound _ (canonical_wf _ C)) as Bp.
    rewrite !val_sign in V.
    destruct (sign (op_mul_assign this x)), (sign this), (sign x);
      cbn [rsign_Z] in V; nia. }
  rewrite M, Nat2Z.inj_add, Z.pow_add_r by lia.
  pose proof (base_pow_pos (size this)). pose proof (base_pow_pos (size x)).
  nia.
Qed.

End ExactProduct.

(** ** The exact instance is exact *)

Lemma unpack_length (n : nat) (B v : Z) : length (unpack n B v) = n.
Proof.
  revert v. induction n as [|n IH]; intros v; cbn [unpack length];
    [reflexivity | now rewrite IH].
Qed.

Lemma resize_cons {A : Type} (n : nat) (v d : A) (l : list A) :
  resize (S n) v (d :: l) = d :: resize n v l.
Proof. reflexivity. Qed.

Lemma resize_nil {A : Type} (n : nat) (v : A) : resize n v [] = repeat v n.
Proof. unfold resize. rewrite firstn_nil, Nat.sub_0_r. reflexivity. Qed.

Lemma unpack_eval (B : Z) (n : nat) (l : list Z) :
  0 < B -> forallb (coefficient_below (B - 1)) l = true ->
  (length l <= n)%nat ->
  unpack n B (eval B l) = resize n 0 l.
Proof.
  intros HB. revert l. induction n as [|n IH]; intros l Hl Hlen.
  - destruct l; [reflexivity | simpl in Hlen; lia].
  - destruct l as [|d l].
    + cbn [eval unpack]. rewrite Z.mod_0_l, Z.div_0_l by lia.
      change 0 with (eval B []) at 2. rewrite IH by (auto; simpl; lia).
      now rewrite !resize_nil.
    + cbn [forallb] in Hl. apply andb_true_iff in Hl. destruct Hl as [Hd Hl].
      apply coefficient_below_iff in Hd.
      cbn [eval unpack length] in *. rewrite resize_cons.
      replace (d + B * eval B l) with (d + eval B l * B) by ring.
      rewrite Z.mod_add, Z.div_add by lia.
      rewrite Z.mod_small, Z.div_small by lia.
      rewrite Z.add_0_l, IH by (auto; lia). reflexivity.
Qed.

Lemma map_nth_seq {A : Type} (d : A) (l : list A) :
  map (fun i => nth i l d) (seq 0 (length l)) = l.
Proof.
  induction l as [|x l IH]; [reflexivity|].
  cbn [length seq map nth]. f_equal.
  rewrite <- seq_shift, map_map. exact IH.
Qed.

Lemma exact_model_exact : exact_fft exact_model.
Proof.
  intros x y n Dx Dy Hn. unfold fft_multiply.
  cbn [exact_model complex c_of_int c_zero c_mul FFT round_real].
  rewrite !map_id.
  destruct n as [|n].
  - destruct x, y; simpl in Hn; try lia. reflexivity.
  - unfold exact_FFT at 2 3. rewrite !resize_length.
    set (B := exact_point (S n)).
    assert (HB : 0 < B) by (unfold B, exact_point; lia).
    rewrite !eval_resize by lia.
    set (pw := map (fun i => nth i _ 0 * nth i _ 0) (seq 0 (S n))).
    assert (Lp : length pw = S n).
    { unfold pw. now rewrite length_map, length_seq. }
    assert (Hp : hd 0 pw = eval B x * eval B y).
    { unfold pw. cbn [seq map hd]. rewrite !resize_cons. reflexivity. }
    unfold exact_FFT. rewrite Lp, Hp. fold B.
    rewrite <- convolution_eval.
    rewrite unpack_eval; auto.
    + rewrite <- (resize_length (S n) 0 (convolution x y)) at 1.
      apply map_nth_seq.
    + apply coefficient_below_mono
        with (m := 9801 * Z.of_nat (length x)).
      * unfold B, exact_point. lia.
      * now apply convolution_below.
    + pose proof (convolution_length x y). lia.
Qed.

(** ** Modulo, when the transform is exact *)

Lemma abs_val (x : BigInteger) : wf x = true -> Z.abs (val x) = mag x.
Proof.
  intros W. pose proof (mag_bound _ W). rewrite val_sign.
  destruct (sign x); cbn [rsign_Z]; lia.
Qed.

Lemma short_quotient (q this x : BigInteger) :
  wf q = true -> wf this = true -> val x <> 0 ->
  val q = Z.quot (val this) (val x) -> short this -> short q.
Proof.
  intros Wq Wt Nx V S. apply (short_le q this Wq Wt); [|exact S].
  rewrite <- (abs_val q Wq), <- (abs_val this Wt), V.
  rewrite <- Z.quot_abs by exact Nx.
  rewrite Z.quot_div_nonneg by lia.
  pose proof (Z.mul_div_le (Z.abs (val this)) (Z.abs (val x)) ltac:(lia)).
  pose proof (Z.div_pos (Z.abs (val this)) (Z.abs (val x))
                ltac:(lia) ltac:(lia)).
  nia.
Qed.

Lemma short_remainder (r this x : BigInteger) :
  wf r = true -> wf this = true -> wf x = true -> val x <> 0 ->
  val r = Z.rem (val this) (val x) -> short this \/ short x -> short r.
Proof.
  intros Wr Wt Wx Nx V S.
  assert (B : mag r <= mag this /\ mag r <= mag x).
  { rewrite <- (abs_val r Wr), <- (abs_val this Wt), <- (abs_val x Wx), V.
    rewrite <- Z.rem_abs by exact Nx.
    rewrite Z.rem_mod_nonneg by lia.
    pose proof (Z.mod_pos_bound (Z.abs (val this)) (Z.abs (val x))
                  ltac:(lia)).
    pose proof (Z.mod_le (Z.abs (val this)) (Z.abs (val x))
                  ltac:(lia) ltac:(lia)).
    lia. }
  destruct S as [S|S].
  - now apply (short_le r this Wr Wt).
  - now apply (short_le r x Wr Wx).
Qed.

Lemma val_nonzero (x : BigInteger) : 0 < mag x -> val x <> 0.
Proof.
  intros P. rewrite val_sign. destruct (sign x); cbn [rsign_Z]; lia.
Qed.

Lemma is_zero_val (x : BigInteger) :
  wf x = true -> is_zero x = (val x =? 0).
Proof.
  intros W. rewrite is_zero_mag by assumption. rewrite val_sign.
  destruct (sign x); cbn [rsign_Z];
    destruct (Z.eqb_spec (mag x) 0); symmetry;
    [apply Z.eqb_eq | apply Z.eqb_neq | apply Z.eqb_eq | apply Z.eqb_neq]; lia.
Qed.

Section ExactModulo.
Context {F : FloatModel}.
Hypothesis Hexact : exact_upto F max_groups.

Lemma op_mod_assign_spec (this x : BigInteger) :
  wf this = true -> wf x = true -> 0 < mag x -> short this \/ short x ->
  exists q r,
    op_div_assign this x = Some q
    /\ op_mod_assign this x = Some r
    /\ canonical q = true /\ canonical r = true
    /\ val q = Z.quot (val this) (val x)
    /\ val r = Z.rem (val this) (val x).
Proof.
  intros Wt Wx P S.
  destruct (op_div_assign_spec this x Wt Wx P) as [q [Eq [Cq Vq]]].
  assert (Sq : short q \/ short x).
  { destruct S as [S|S]; [left|now right].
    apply (short_quotient q this x); auto using canonical_wf, val_nonzero. }
  destruct (op_mul_assign_spec Hexact q x (canonical_wf _ Cq) Wx Sq)
    as [Cm Vm].
  destruct (op_sub_assign_spec this (op_mul_assign q x) Wt (canonical_wf _ Cm))
    as [Ws [Vs _]].
  destruct (collapse_spec _ Ws) as [W' [V' [I' _]]].
  eexists. eexists. unfold op_mod_assign. rewrite Eq. cbn [obind].
  split; [reflexivity|]. split; [reflexivity|].
  split; [exact Cq|]. split; [apply canonical_iff; auto|].
  split; [exact Vq|].
  rewrite V', Vs, Vm, Vq.
  pose proof (Z.quot_rem' (val this) (val x)). lia.
Qed.

Lemma division_facts (x y : BigInteger) :
  canonical x = true -> canonical y = true -> is_zero y = false ->
  short x \/ short y ->
  exists q r,
    op_div x y = Some q /\ op_mod x y = Some r
    /\ canonical r = true
    /\ val r = Z.rem (val x) (val y)
    /\ op_eq (op_add (op_mul q y) r) x = true
    /\ Z.abs (val r) < Z.abs (val y)
    /\ val q = Z.quot (val x) (val y)
    /\ (is_zero r = false -> sign r = sign x).
Proof.
  intros Cx Cy Ny S.
  pose proof (canonical_wf _ Cx) as Wx. pose proof (canonical_wf _ Cy) as Wy.
  rewrite is_zero_mag in Ny by assumption. apply Z.eqb_neq in Ny.
  pose proof (mag_bound _ Wy) as By.
  destruct (op_mod_assign_spec x y Wx Wy ltac:(lia) S)
    as [q [r [Eq [Er [Cq [Cr [Vq Vr]]]]]]].
  exists q, r. unfold op_div, op_mod, op_add, op_mul.
  split; [exact Eq|]. split; [exact Er|].
  split; [exact Cr|]. split; [exact Vr|].
  assert (Ny' : val y <> 0) by (apply val_nonzero; lia).
  split; [|split; [|split]].
  - apply op_eq_spec.
    assert (Sq : short q \/ short y).
    { destruct S as [S|S]; [left|now right].
      apply (short_quotient q x y); auto using canonical_wf. }
    destruct (op_mul_assign_spec Hexact q y (canonical_wf _ Cq) Wy Sq)
      as [Cm Vm].
    destruct (op_add_assign_spec (op_mul_assign q y) r (canonical_wf _ Cm)
                (canonical_wf _ Cr)) as [Wa [Va Ia]].
    apply canonical_iff in Cm. destruct Cm as [_ Im].
    apply canonical_unique; auto.
    + apply canonical_iff. auto.
    + rewrite Va, Vm, Vq, Vr.
      pose proof (Z.quot_rem' (val x) (val y)). lia.
  - rewrite Vr. apply Z.rem_bound_abs. exact Ny'.
  - exact Vq.
  - intros Nr. rewrite is_zero_val in Nr by (now apply canonical_wf).
    apply Z.eqb_neq in Nr.
    pose proof (mag_bound _ Wx) as Bx.
    pose proof (mag_bound _ (canonical_wf _ Cr)) as Br.
    rewrite (val_sign x), (val_sign y), rem_signed in Vr by lia.
    pose proof (Z.mod_pos_bound (mag x) (mag y) ltac:(lia)) as Bm.
    rewrite (val_sign r) in Vr, Nr.
    destruct (sign r), (sign x); cbn [rsign_Z] in *; auto; lia.
Qed.

End ExactModulo.

(** Division and modulo of canonical [x] and [y] with [y != 0], of which one
    has at most [max_groups] groups, when the transform is exact up to that
    length: [x / y] and [x % y] return [q] and [r] with [q * y + r == x]
    and [|r| < |y|]; [q] is the quotient truncated toward zero and a
    nonzero [r] has the sign of [x]; in particular [-7 / 2 == -3] and
    [-7 % 2 == -1]. *)
Theorem division_identity (F : FloatModel)
    (Hexact : exact_upto F max_groups) :
  (forall x y : BigInteger,
     canonical x = true -> canonical y = true -> is_zero y = false ->
     short x \/ short y ->
     exists q r,
       op_div x y = Some q /\ op_mod x y = Some r
       /\ op_eq (op_add (op_mul q y) r) x = true
       /\ Z.abs (val r) < Z.abs (val y)
       /\ val q = Z.quot (val x) (val y)
       /\ (is_zero r = false -> sign r = sign x))
  /\ op_div (BigInteger_of_string (str "-7")) (BigInteger_of_string (str "2"))
     = Some (BigInteger_of_string (str "-3"))
  /\ op_mod (BigInteger_of_string (str "-7")) (BigInteger_of_string (str "2"))
     = Some (BigInteger_of_string (str "-1")).
Proof.
  split.
  - intros x y Cx Cy Ny S.
    destruct (division_facts Hexact x y Cx Cy Ny S)
      as [q [r [Eq [Er [_ [_ H]]]]]].
    exists q, r. auto.
  - split; [reflexivity|].
    destruct (division_facts Hexact (BigInteger_of_string (str "-7"))
                (BigInteger_of_string (str "2")))
      as [q [r [Eq [Er [Cr [Vr _]]]]]]; try reflexivity.
    + left. vm_compute. discriminate.
    + rewrite Er. f_equal. apply canonical_unique; auto.
Qed.

Lemma division_identity_witness :
  canonical (BigInteger_of_string (str "123456789")) = true
  /\ canonical (BigInteger_of_string (str "-12345")) = true
  /\ is_zero (BigInteger_of_string (str "-12345")) = false
  /\ (short (BigInteger_of_string (str "123456789"))
      \/ short (BigInteger_of_string (str "-12345")))
  /\ exists q r,
       @op_div (BigInteger_of_string (str "123456789"))
               (BigInteger_of_string (str "-12345")) = Some q
       /\ @op_mod exact_model (BigInteger_of_string (str "123456789"))
                  (BigInteger_of_string (str "-12345")) = Some r
       /\ op_eq (op_add (@op_mul exact_model q
                           (BigInteger_of_string (str "-12345"))) r)
                (BigInteger_of_string (str "123456789")) = true
       /\ Z.abs (val r) < Z.abs (val (BigInteger_of_string (str "-12345")))
       /\ val q = Z.quot (val (BigInteger_of_string (str "123456789")))
                         (val (BigInteger_of_string (str "-12345")))
       /\ (is_zero r = false
           -> sign r = sign (BigInteger_of_string (str "123456789"))).
Proof.
  assert (S : short (BigInteger_of_string (str "123456789"))
              \/ short (BigInteger_of_string (str "-12345"))).
  { left. vm_compute. discriminate. }
  split; [reflexivity|]. split; [reflexivity|]. split; [reflexivity|].
  split; [exact S|].
  apply (proj1 (@division_identity exact_model
                  (exact_fft_upto exact_model max_groups exact_model_exact)));
    try reflexivity.
  exact S.
Defined.

(** ** Beyond [max_groups]: the carry loop leaves [int] *)

Lemma nth_repeat_lt {A : Type} (x d : A) (n k : nat) :
  (k < n)%nat -> nth k (repeat x n) d = x.
Proof.
  revert k. induction n as [|n IH]; intros k H; [lia|].
  destruct k as [|k]; cbn [repeat nth]; [reflexivity|]. apply IH. lia.
Qed.

Lemma nth_repeat_ge {A : Type} (x d : A) (n k : nat) :
  (n <= k)%nat -> nth k (repeat x n) d = d.
Proof. intros H. apply nth_overflow. now rewrite repeat_length. Qed.

(** The coefficients of the square of [n] groups 99: the number of pairs of
    groups that meet at index [k], times [99 * 99]. *)
Lemma nines_coefficient (m n k : nat) :
  nth k (convolution (repeat 99 m) (repeat 99 n)) 0
  = 9801 * Z.max 0 (Z.min (Z.of_nat m) (Z.of_nat k + 1)
                    - Z.max 0 (Z.of_nat k + 1 - Z.of_nat n)).
Proof.
  revert k. induction m as [|m IH]; intros k.
  - cbn [repeat convolution]. destruct k; cbn [nth]; lia.
  - cbn [repeat convolution]. rewrite poly_add_nth, map_mul_nth.
    assert (R : nth k (repeat 99 n) 0
                = if (k <? n)%nat then 99 else 0).
    { destruct (Nat.ltb_spec k n);
        [now apply nth_repeat_lt | now apply nth_repeat_ge]. }
    rewrite R. destruct k as [|k]; cbn [nth].
    + destruct (Nat.ltb_spec 0 n); lia.
    + rewrite IH. destruct (Nat.ltb_spec (S k) n); lia.
Qed.

Lemma carry_loop_cons (d : Z) (res : list Z) (c : Z) :
  carry_loop (d :: res) c
  = Z.rem (wrap_int (d + c)) base
    :: carry_loop res (Z.quot (wrap_int (d + c)) base).
Proof. reflexivity. Qed.

(** The rising part: coefficient [9801 * (k + 1)] at index [k], carry
    [99 * k - 1] coming in, group 0 and carry [99 * (k + 1) - 1] going
    out, as long as the sum stays within [int]. *)
Lemma carry_loop_rising (g : nat -> Z) (j i : nat) (rest : list Z) :
  (forall k, (i <= k < i + j)%nat -> g k = 9801 * (Z.of_nat k + 1)) ->
  (1 <= i)%nat -> 9900 * Z.of_nat (i + j) <= INT_MAX ->
  carry_loop (map g (seq i j) ++ rest) (99 * Z.of_nat i - 1)
  = repeat 0 j ++ carry_loop rest (99 * Z.of_nat (i + j) - 1).
Proof.
  revert i. induction j as [|j IH]; intros i Hg Hi Hb.
  - cbn [seq map app repeat]. now rewrite Nat.add_0_r.
  - cbn [seq map app repeat]. rewrite carry_loop_cons, (Hg i) by lia.
    replace (9801 * (Z.of_nat i + 1) + (99 * Z.of_nat i - 1))
      with ((99 * Z.of_nat i + 98) * base) by (unfold base; lia).
    rewrite wrap_int_small by (unfold INT_MIN, INT_MAX, base in *; lia).
    rewrite Z.rem_mul, Z.quot_mul by (unfold base; lia).
    f_equal.
    replace (99 * Z.of_nat i + 98) with (99 * Z.of_nat (S i) - 1) by lia.
    rewrite IH; [|intros k Hk; apply Hg; lia | lia | ].
    + now replace (S i + j)%nat with (i + S j)%nat by lia.
    + now replace (S i + j)%nat with (i + S j)%nat by lia.
Qed.

(** The falling part: coefficient [9801 * (T - k)] at index [k], carry
    [99 * (T - k + 1)] coming in, group 99 and carry [99 * (T - k)] going
    out. *)
Lemma carry_loop_falling (g : nat -> Z) (T : Z) (j i : nat) (rest : list Z) :
  (forall k, (i <= k < i + j)%nat -> g k = 9801 * (T - Z.of_nat k)) ->
  Z.of_nat (i + j) <= T + 1 -> 9900 * (T - Z.of_nat i) + 99 <= INT_MAX ->
  carry_loop (map g (seq i j) ++ rest) (99 * (T - Z.of_nat i + 1))
  = repeat 99 j ++ carry_loop rest (99 * (T - Z.of_nat (i + j) + 1)).
Proof.
  revert i. induction j as [|j IH]; intros i Hg Hi Hb.
  - cbn [seq map app repeat]. now rewrite Nat.add_0_r.
  - cbn [seq map app repeat]. rewrite carry_loop_cons, (Hg i) by lia.
    replace (9801 * (T - Z.of_nat i) + 99 * (T - Z.of_nat i + 1))
      with (99 + (99 * (T - Z.of_nat i)) * base) by (unfold base; lia).
    rewrite wrap_int_small by (unfold INT_MIN, INT_MAX, base in *; lia).
    rewrite Z.rem_mod_nonneg, Z.quot_div_nonneg by (unfold base; lia).
    rewrite Z.mod_add, Z.div_add by (unfold base; lia).
    change (99 mod base) with 99. change (99 / base) with 0.
    f_equal.
    replace (0 + 99 * (T - Z.of_nat i))
      with (99 * (T - Z.of_nat (S i) + 1)) by lia.
    rewrite IH; [|intros k Hk; apply Hg; lia | lia | lia].
    now replace (S i + j)%nat with (i + S j)%nat by lia.
Qed.

Lemma carry_loop_zeros (j : nat) : carry_loop (repeat 0 j) 0 = repeat 0 j.
Proof.
  induction j as [|j IH]; [reflexivity|].
  cbn [repeat]. rewrite carry_loop_cons.
  change (wrap_int (0 + 0)) with 0. change (Z.rem 0 base) with 0.
  change (Z.quot 0 base) with 0. now rewrite IH.
Qed.

(** The five sums around the overflow, for [216918] groups: the first one is
    [2147488100], above [INT_MAX]. *)
Lemma carry_loop_overflow (rest : list Z) :
  carry_loop (2126013318 :: 2126003517 :: 2125993716 :: 2125983915
              :: 2125974114 :: rest) 21474782
  = -96 :: 26 :: 3 :: 5 :: 57 :: carry_loop rest 21474486.
Proof.
  rewrite !carry_loop_cons.
  assert (E1 : wrap_int (2126013318 + 21474782) = -2147479196)
    by (vm_compute; reflexivity).
  rewrite E1.
  change (Z.rem (-2147479196) base) with (-96).
  change (Z.quot (-2147479196) base) with (-21474791).
  assert (E2 : wrap_int (2126003517 + -21474791) = 2104528726)
    by (vm_compute; reflexivity).
  rewrite E2.
  change (Z.rem 2104528726 base) with 26.
  change (Z.quot 2104528726 base) with 21045287.
  assert (E3 : wrap_int (2125993716 + 21045287) = 2147039003)
    by (vm_compute; reflexivity).
  rewrite E3.
  change (Z.rem 2147039003 base) with 3.
  change (Z.quot 2147039003 base) with 21470390.
  assert (E4 : wrap_int (2125983915 + 21470390) = 2147454305)
    by (vm_compute; reflexivity).
  rewrite E4.
  change (Z.rem 2147454305 base) with 5.
  change (Z.quot 2147454305 base) with 21474543.
  assert (E5 : wrap_int (2125974114 + 21474543) = 2147448657)
    by (vm_compute; reflexivity).
  rewrite E5.
  change (Z.rem 2147448657 base) with 57.
  change (Z.quot 2147448657 base) with 21474486.
  reflexivity.
Qed.

Lemma resize_as_map (N : nat) (l : list Z) :
  (length l <= N)%nat ->
  resize N 0 l = map (fun k => nth k l 0) (seq 0 N).
Proof.
  intros H. rewrite resize_ge by exact H.
  replace N with (length l + (N - length l))%nat at 2 by lia.
  rewrite seq_app, map_app, map_nth_seq. f_equal.
  cbn [Nat.add]. generalize (N - length l)%nat as z. intros z.
  assert (G : forall s, (length l <= s)%nat ->
                        map (fun k => nth k l 0) (seq s z) = repeat 0 z).
  { induction z as [|z IH]; intros s Hs; [reflexivity|].
    cbn [seq map repeat]. rewrite nth_overflow by exact Hs.
    f_equal. apply IH. lia. }
  symmetry. apply G. lia.
Qed.

Lemma delete_trailing_zeroes_zeros (l : list Z) (d : Z) (z : nat) :
  d <> 0 -> delete_trailing_zeroes ((l ++ [d]) ++ repeat 0 z) = l ++ [d].
Proof.
  intros Hd. induction z as [|z IH].
  - cbn [repeat]. rewrite app_nil_r, delete_trailing_zeroes_snoc.
    destruct (Z.eqb_spec d 0); [contradiction | reflexivity].
  - replace (repeat 0 (S z)) with (repeat 0 z ++ [0])
      by (symmetry; apply (repeat_cons z 0)).
    rewrite app_assoc, delete_trailing_zeroes_snoc.
    cbn [Z.eqb andb].
    destruct (Nat.eqb_spec (length ((l ++ [d]) ++ repeat 0 z)) 0) as [E|_];
      [|exact IH].
    rewrite !length_app in E. cbn [length] in E. lia.
Qed.

Lemma repeat_snoc {A : Type} (x : A) (n : nat) :
  (1 <= n)%nat -> repeat x n = repeat x (n - 1) ++ [x].
Proof.
  intros H. replace n with (S (n - 1)) at 1 by lia.
  cbn [repeat]. apply repeat_cons.
Qed.

(** The square of [216918] groups 99, as [operator*=] computes it when the
    transform is exact at it: group [216917] is [-96] and the next four
    differ from those of the product. *)
Lemma square_of_nines (F : FloatModel) (n : nat) :
  Z.of_nat n = 216918 ->
  exact_product F (repeat 99 n) (repeat 99 n) ->
  op_mul_assign (nines n) (nines n)
  = {| a := (1 :: repeat 0 (n - 2)) ++ [-96; 26; 3; 5; 57]
            ++ repeat 99 (n - 4);
       sign := plus |}.
Proof.
  intros Hn Hexact.
  unfold op_mul_assign, nines, size. cbn [a sign].
  unfold exact_product in Hexact. rewrite Hexact. clear Hexact.
  rewrite !repeat_length.
  set (N := fft_size n n).
  destruct (fft_size_ge n n) as [HN _]. fold N in HN.
  pose proof (convolution_length (repeat 99 n) (repeat 99 n)) as Lc.
  rewrite !repeat_length in Lc.
  rewrite resize_as_map by lia.
  set (g := fun k => nth k (convolution (repeat 99 n) (repeat 99 n)) 0).
  assert (Hg : forall k, g k = 9801 * Z.max 0 (Z.min (Z.of_nat n)
                                                 (Z.of_nat k + 1)
                                   - Z.max 0 (Z.of_nat k + 1 - Z.of_nat n))).
  { intros k. apply nines_coefficient. }
  clearbody g.
  set (z := (N - 2 * n)%nat).
  assert (Eseq : seq 0 N
                 = [0%nat] ++ seq 1 (n - 2) ++ seq (n - 1) 5
                   ++ seq (n + 4) (n - 4) ++ seq (2 * n) z).
  { replace N with (1 + ((n - 2) + (5 + ((n - 4) + z))))%nat
      by (unfold z; lia).
    rewrite !seq_app. change (0 + 1)%nat with 1%nat.
    replace (1 + (n - 2))%nat with (n - 1)%nat by lia.
    replace (n - 1 + 5)%nat with (n + 4)%nat by lia.
    replace (n + 4 + (n - 4))%nat with (2 * n)%nat by lia.
    reflexivity. }
  rewrite Eseq, !map_app. clear Eseq.
  (* index 0 *)
  cbn [map app]. rewrite carry_loop_cons, Hg.
  replace (9801 * Z.max 0 (Z.min (Z.of_nat n) (Z.of_nat 0 + 1)
                           - Z.max 0 (Z.of_nat 0 + 1 - Z.of_nat n)) + 0)
    with 9801 by lia.
  change (wrap_int 9801) with 9801. change (Z.rem 9801 base) with 1.
  change (Z.quot 9801 base) with (99 * Z.of_nat 1 - 1).
  (* the rising part *)
  rewrite carry_loop_rising;
    [| intros k Hk; rewrite Hg; lia | lia | unfold INT_MAX; lia].
  (* the overflow *)
  assert (E5 : map g (seq (n - 1) 5)
               = [2126013318; 2126003517; 2125993716; 2125983915;
                  2125974114]).
  { cbn [seq map]. rewrite !Hg. repeat f_equal; lia. }
  rewrite E5. cbn [app].
  replace (99 * Z.of_nat (1 + (n - 2)) - 1) with 21474782 by lia.
  rewrite carry_loop_overflow.
  (* the falling part and the padding *)
  replace 21474486
    with (99 * (2 * Z.of_nat n - 1 - Z.of_nat (n + 4) + 1)) by lia.
  rewrite carry_loop_falling;
    [| intros k Hk; rewrite Hg; lia | lia | unfold INT_MAX; lia].
  replace (99 * (2 * Z.of_nat n - 1 - Z.of_nat (n + 4 + (n - 4)) + 1))
    with 0 by lia.
  assert (Ez : forall s, (2 * n <= s)%nat ->
                         map g (seq s z) = repeat 0 z).
  { clear HN. clearbody z. induction z as [|z' IH]; intros s Hs;
      [reflexivity|].
    cbn [seq map repeat]. rewrite Hg, IH by lia. f_equal. lia. }
  rewrite Ez, carry_loop_zeros by lia. clear Ez E5 Hg g.
  assert (E : 1 :: repeat 0 (n - 2)
                   ++ -96 :: 26 :: 3 :: 5 :: 57
                      :: repeat 99 (n - 4) ++ repeat 0 z
              = (((1 :: repeat 0 (n - 2)) ++ [-96; 26; 3; 5; 57]
                  ++ repeat 99 (n - 4 - 1)) ++ [99]) ++ repeat 0 z).
  { rewrite (repeat_snoc 99 (n - 4)) at 1 by lia.
    cbn [app]. rewrite <- !app_assoc. cbn [app]. reflexivity. }
  rewrite E, delete_trailing_zeroes_zeros by lia. clear E.
  assert (E : ((1 :: repeat 0 (n - 2)) ++ [-96; 26; 3; 5; 57]
               ++ repeat 99 (n - 4 - 1)) ++ [99]
              = (1 :: repeat 0 (n - 2)) ++ [-96; 26; 3; 5; 57]
                ++ repeat 99 (n - 4)).
  { rewrite (repeat_snoc 99 (n - 4)) by lia.
    now rewrite <- !app_assoc. }
  rewrite E. clear E. cbn [sign_mul Sign_eqb app].
  unfold is_zero. cbn [a].
  destruct (repeat 0 (n - 2) ++ -96 :: 26 :: 3 :: 5 :: 57
                                :: repeat 99 (n - 4));
    reflexivity.
Qed.

(** ** The operands [99...9] and their square *)

Lemma eval_nines (n : nat) :
  eval base (repeat 99 n) = base ^ Z.of_nat n - 1.
Proof.
  induction n as [|n IH]; [reflexivity|].
  cbn [repeat eval]. rewrite IH, Nat2Z.inj_succ, Z.pow_succ_r by lia.
  unfold base. lia.
Qed.

Lemma nines_canonical (n : nat) :
  (1 <= n)%nat ->
  canonical (nines n) = true /\ val (nines n) = base ^ Z.of_nat n - 1.
Proof.
  intros Hn. split.
  - apply canonical_iff. split; [|apply I2_iff; reflexivity].
    apply wf_iff. unfold nines. cbn [a]. split; [now apply forallb_repeat|].
    rewrite (repeat_snoc 99 n) by exact Hn. now rewrite trimmed_snoc.
  - rewrite val_sign. unfold mag, nines. cbn [sign rsign_Z a].
    rewrite eval_nines. lia.
Qed.

Lemma nines_squared_canonical (n : nat) :
  (2 <= n)%nat ->
  canonical (nines_squared n) = true
  /\ val (nines_squared n) = val (nines n) * val (nines n).
Proof.
  intros Hn. destruct (nines_canonical n ltac:(lia)) as [_ Vb]. split.
  - apply canonical_iff. split; [|apply I2_iff; reflexivity].
    apply wf_iff. unfold nines_squared. cbn [a]. split.
    + apply digits_app. split.
      * apply digits_cons. split; [unfold base; lia|].
        now apply forallb_repeat.
      * apply digits_cons. split; [unfold base; lia|].
        now apply forallb_repeat.
    + rewrite (repeat_snoc 99 (n - 1)) by lia.
      change (98 :: repeat 99 (n - 1 - 1) ++ [99])
        with ((98 :: repeat 99 (n - 1 - 1)) ++ [99]).
      rewrite app_assoc. now rewrite trimmed_snoc.
  - rewrite Vb, val_sign. unfold mag, nines_squared. cbn [sign rsign_Z a].
    rewrite eval_app. cbn [eval length].
    rewrite eval_repeat0, eval_nines, repeat_length.
    assert (E : base ^ Z.of_nat n = base * base ^ Z.of_nat (n - 1)).
    { replace (Z.of_nat n) with (Z.succ (Z.of_nat (n - 1))) by lia.
      apply Z.pow_succ_r. lia. }
    replace (Z.of_nat (S (n - 1))) with (Z.of_nat n) by lia.
    rewrite E. unfold base. ring.
Qed.

Lemma nines_quotient (n : nat) :
  (2 <= n)%nat -> op_div (nines_squared n) (nines n) = Some (nines n).
Proof.
  intros Hn.
  destruct (nines_canonical n ltac:(lia)) as [Cb Vb].
  destruct (nines_squared_canonical n Hn) as [Cx Vx].
  pose proof (base_pow_pos n) as Pn.
  assert (B2 : base <= base ^ Z.of_nat n).
  { replace (Z.of_nat n) with (Z.succ (Z.of_nat (n - 1))) by lia.
    rewrite Z.pow_succ_r by lia. pose proof (base_pow_pos (n - 1)).
    unfold base in *. lia. }
  assert (Mb : 0 < mag (nines n)).
  { rewrite <- (abs_val _ (canonical_wf _ Cb)), Vb. unfold base in *. lia. }
  destruct (op_div_assign_spec (nines_squared n) (nines n)
              (canonical_wf _ Cx) (canonical_wf _ Cb) Mb)
    as [q [Eq [Cq Vq]]].
  unfold op_div. rewrite Eq. f_equal.
  apply canonical_unique; auto.
  rewrite Vq, Vx. apply Z.quot_mul. rewrite Vb. unfold base in *. lia.
Qed.

(** ** Subtracting the overflowed product *)

Lemma rev_repeat' {A : Type} (x : A) (n : nat) :
  rev (repeat x n) = repeat x n.
Proof.
  induction n as [|n IH]; [reflexivity|].
  cbn [repeat rev]. rewrite IH. symmetry. apply repeat_cons.
Qed.

Lemma less_from_top_prefix (p l r : list Z) :
  less_from_top (p ++ l) (p ++ r) = less_from_top l r.
Proof.
  induction p as [|x p IH]; [reflexivity|].
  cbn [app less_from_top]. now rewrite Z.eqb_refl.
Qed.

Lemma resize_self {A : Type} (v : A) (l : list A) :
  resize (length l) v l = l.
Proof.
  unfold resize. rewrite firstn_all, Nat.sub_diag. apply app_nil_r.
Qed.

Lemma subtract_groups_app (p q x y : list Z) (s : Z) :
  length p = length q ->
  subtract_groups (p ++ x) (q ++ y) s
  = subtract_groups p q s ++ subtract_groups x y s.
Proof.
  revert q. induction p as [|d p IH]; intros [|e q] H; try discriminate.
  - reflexivity.
  - cbn [app subtract_groups]. f_equal. apply IH. now injection H.
Qed.

Lemma subtract_groups_self (p : list Z) (s : Z) :
  subtract_groups p p s = repeat 0 (length p).
Proof.
  induction p as [|d p IH]; [reflexivity|].
  cbn [subtract_groups length repeat]. rewrite IH. f_equal. lia.
Qed.

Lemma borrow_loop_nonneg (l : list Z) :
  forallb (Z.leb 0) l = true -> borrow_loop l 0 = l.
Proof.
  induction l as [|d l IH]; intros H; [reflexivity|].
  cbn [forallb] in H. apply andb_true_iff in H. destruct H as [Hd H].
  apply Z.leb_le in Hd. cbn [borrow_loop]. rewrite Z.sub_0_r.
  destruct (Z.ltb_spec d 0); [lia|]. now rewrite IH.
Qed.

Lemma nines_squared_groups (n : nat) :
  (5 <= n)%nat ->
  a (nines_squared n)
  = (1 :: repeat 0 (n - 2)) ++ [0; 98; 99; 99; 99] ++ repeat 99 (n - 4).
Proof.
  intros Hn. unfold nines_squared. cbn [a].
  rewrite (repeat_snoc 0 (n - 1)) by lia.
  replace (n - 1 - 1)%nat with (n - 2)%nat by lia.
  replace (n - 1)%nat with (3 + (n - 4))%nat by lia.
  rewrite repeat_app. cbn [repeat app].
  rewrite <- app_assoc. reflexivity.
Qed.

(** [x % b] for [b] of [216918] groups 99 and [x = b * b]: the product
    subtracted from [x] misses [2 ^ 32 * 100 ^ 216917], which is what is
    left as the remainder. *)
Lemma nines_remainder (F : FloatModel) (n : nat) :
  Z.of_nat n = 216918 ->
  exact_product F (repeat 99 n) (repeat 99 n) ->
  op_mod (nines_squared n) (nines n)
  = Some {| a := repeat 0 (n - 1) ++ [96; 72; 96; 94; 42]; sign := plus |}.
Proof.
  intros Hn Hexact.
  pose proof (nines_quotient n ltac:(lia)) as Eq. unfold op_div in Eq.
  unfold op_mod, op_mod_assign. rewrite Eq. cbn [obind].
  rewrite (square_of_nines F n Hn Hexact).
  set (P := 1 :: repeat 0 (n - 2)).
  set (C := repeat 99 (n - 4)).
  assert (LP : length P = (n - 1)%nat).
  { unfold P. cbn [length]. rewrite repeat_length. lia. }
  assert (Ex : nines_squared n
               = {| a := P ++ [0; 98; 99; 99; 99] ++ C; sign := plus |}).
  { pose proof (nines_squared_groups n ltac:(lia)) as E.
    unfold nines_squared in *. cbn [a] in E. now rewrite E. }
  rewrite Ex. clear Ex Eq.
  unfold op_sub_assign, op_add_assign, set_sign.
  cbn [sign a sign_mul Sign_eqb].
  (* the sizes agree and the first group that differs, from the top, is
     larger in the dividend *)
  assert (L : less_abs {| a := P ++ [0; 98; 99; 99; 99] ++ C; sign := plus |}
                       {| a := P ++ [-96; 26; 3; 5; 57] ++ C;
                          sign := minus |} = false).
  { unfold less_abs, size. cbn [a].
    rewrite !length_app. cbn [length]. rewrite Nat.eqb_refl. cbn [negb].
    rewrite !rev_app_distr. unfold C. rewrite rev_repeat', <- !app_assoc.
    rewrite less_from_top_prefix. reflexivity. }
  rewrite L. cbn [a sign].
  (* the subtraction, group by group *)
  assert (S : a (abs_subtract_small_from_big
                   {| a := P ++ [0; 98; 99; 99; 99] ++ C; sign := plus |}
                   {| a := P ++ [-96; 26; 3; 5; 57] ++ C; sign := minus |}
                   false)
              = repeat 0 (n - 1) ++ [96; 72; 96; 94; 42]).
  { unfold abs_subtract_small_from_big, size. cbn [a].
    rewrite resize_self.
    rewrite !subtract_groups_app by reflexivity.
    rewrite !subtract_groups_self, LP.
    change (subtract_groups [0; 98; 99; 99; 99] [-96; 26; 3; 5; 57] 1)
      with [96; 72; 96; 94; 42].
    rewrite borrow_loop_nonneg.
    - change [96; 72; 96; 94; 42] with ([96; 72; 96; 94] ++ [42]).
      rewrite !app_assoc, delete_trailing_zeroes_zeros by lia.
      reflexivity.
    - rewrite !forallb_app. rewrite !forallb_repeat by reflexivity.
      reflexivity. }
  rewrite S.
  assert (Nz : forall s,
             is_zero {| a := repeat 0 (n - 1) ++ [96; 72; 96; 94; 42];
                        sign := s |} = false).
  { intros s. destruct (is_zero _) eqn:Z0; [|reflexivity].
    apply is_zero_iff in Z0. cbn [a] in Z0.
    apply (f_equal (@length Z)) in Z0.
    rewrite length_app in Z0. cbn [length] in Z0. lia. }
  rewrite Nz. cbn [a sign].
  assert (T : delete_trailing_zeroes
                (repeat 0 (n - 1) ++ [96; 72; 96; 94; 42])
              = repeat 0 (n - 1) ++ [96; 72; 96; 94; 42]).
  { apply delete_trailing_zeroes_id.
    change [96; 72; 96; 94; 42] with ([96; 72; 96; 94] ++ [42]).
    now rewrite app_assoc, trimmed_snoc. }
  rewrite T, Nz. reflexivity.
Qed.

Lemma nines_remainder_value (n : nat) :
  (1 <= n)%nat ->
  val {| a := repeat 0 (n - 1) ++ [96; 72; 96; 94; 42]; sign := plus |}
  = 2 ^ 32 * base ^ Z.of_nat (n - 1).
Proof.
  intros Hn. rewrite val_sign. cbn [sign rsign_Z]. unfold mag. cbn [a].
  rewrite eval_app, eval_repeat0, repeat_length.
  change (eval base [96; 72; 96; 94; 42]) with (2 ^ 32). lia.
Qed.

(** C1 fails past the range of the carry loop.  [b] is [216918] groups 99
    (433836 nines) and [x = b * b].  With the transform exact at the one
    product computed, [x / b] returns [b], the true quotient; but the
    product [(x / b) * b] that [operator%=] subtracts from [x] went through
    the sum [2126013318 + 21474782], above [INT_MAX]: its group at index
    [216917] is [-96], it is not canonical, and [x % b] returns
    [2 ^ 32 * 100 ^ 216917], which is neither zero nor below [b] in
    magnitude, although [b] divides [x]. *)
Theorem modulo_beyond_carry_range (F : FloatModel) :
  let b := nines overflow_groups in
  let x := nines_squared overflow_groups in
  exact_product F (a b) (a b) ->
  canonical x = true /\ canonical b = true /\ is_zero b = false
  /\ val x = val b * val b
  /\ op_div x b = Some b
  /\ nth (overflow_groups - 1) (a (op_mul b b)) 0 = -96
  /\ canonical (op_mul b b) = false
  /\ exists r, op_mod x b = Some r
               /\ val r = 2 ^ 32 * base ^ Z.of_nat (overflow_groups - 1)
               /\ Z.abs (val b) < Z.abs (val r).
Proof.
  assert (Hn : Z.of_nat overflow_groups = 216918).
  { unfold overflow_groups, max_groups. rewrite Z2Nat.id; lia. }
  revert Hn. generalize overflow_groups as n. intros n Hn b x Hexact.
  subst b x. change (a (nines n)) with (repeat 99 n) in Hexact.
  destruct (nines_canonical n ltac:(lia)) as [Cb Vb].
  destruct (nines_squared_canonical n ltac:(lia)) as [Cx Vx].
  pose proof (square_of_nines F n Hn Hexact) as Sq.
  assert (LP : length (1 :: repeat 0 (n - 2)) = (n - 1)%nat).
  { cbn [length]. rewrite repeat_length. lia. }
  assert (Pn : base ^ Z.of_nat n = base * base ^ Z.of_nat (n - 1)).
  { replace (Z.of_nat n) with (Z.succ (Z.of_nat (n - 1))) by lia.
    apply Z.pow_succ_r. lia. }
  pose proof (base_pow_pos (n - 1)) as Pp.
  split; [exact Cx|]. split; [exact Cb|]. split; [|split; [exact Vx|]].
  { rewrite is_zero_val by (now apply canonical_wf). apply Z.eqb_neq.
    rewrite Vb, Pn. unfold base in *. lia. }
  split; [apply nines_quotient; lia|].
  unfold op_mul. rewrite Sq. cbn [a]. split; [|split].
  - rewrite app_nth2 by lia. rewrite LP, Nat.sub_diag. reflexivity.
  - match goal with |- ?c = false => destruct c eqn:C end;
      [exfalso | reflexivity].
    apply canonical_wf, wf_iff in C. destruct C as [D _]. cbn [a] in D.
    apply digits_app in D. destruct D as [_ D].
    apply digits_app in D. destruct D as [D _]. discriminate D.
  - eexists. split; [exact (nines_remainder F n Hn Hexact)|].
    rewrite nines_remainder_value by lia. split; [reflexivity|].
    rewrite Vb, Pn. unfold base in *. lia.
Qed.

Lemma modulo_beyond_carry_range_witness :
  let b := nines overflow_groups in
  let x := nines_squared overflow_groups in
  exact_product exact_model (a b) (a b)
  /\ op_div x b = Some b
  /\ canonical (@op_mul exact_model b b) = false
  /\ exists r, @op_mod exact_model x b = Some r
               /\ Z.abs (val b) < Z.abs (val r).
Proof.
  intros b x.
  assert (D : forallb digit (a b) = true) by (now apply forallb_repeat).
  pose proof (exact_fft_product exact_model (a b) (a b) exact_model_exact
                D D) as E.
  split; [exact E|].
  destruct (modulo_beyond_carry_range exact_model E)
    as [_ [_ [_ [_ [Q [_ [C [r [R [_ L]]]]]]]]]].
  split; [exact Q|]. split; [exact C|]. exists r. split; [exact R | exact L].
Defined.

(** ** The constructor from [int] *)

Lemma trimmed_cons (d : Z) (l : list Z) :
  trimmed l = true -> l <> [0] -> trimmed (d :: l) = true.
Proof.
  destruct l as [|t l] using rev_ind; [discriminate|]. clear IHl.
  rewrite trimmed_snoc. intros T N.
  change (d :: l ++ [t]) with ((d :: l) ++ [t]). rewrite trimmed_snoc.
  cbn [length Nat.eqb]. rewrite orb_false_r.
  destruct (Z.eqb_spec t 0) as [->|]; [|reflexivity].
  cbn [negb orb] in T. apply Nat.eqb_eq in T.
  destruct l; [exfalso; now apply N | discriminate].
Qed.

Lemma int_groups_spec (fuel : nat) (v : Z) :
  0 <= v < base ^ Z.of_nat fuel -> (0 < fuel)%nat ->
  exists g, int_groups fuel v = Some g
            /\ forallb digit g = true /\ trimmed g = true
            /\ eval base g = v.
Proof.
  revert v. induction fuel as [|fuel IH]; intros v Hv Hf; [lia|].
  cbn [int_groups].
  rewrite Z.rem_mod_nonneg, Z.quot_div_nonneg by (unfold base; lia).
  rewrite Nat2Z.inj_succ, Z.pow_succ_r in Hv by lia.
  assert (Q : 0 <= v mod base < base /\ 0 <= v / base
              /\ v / base < base ^ Z.of_nat fuel
              /\ v = v mod base + base * (v / base)).
  { pose proof (base_pow_pos fuel). unfold base in *.
    Z.to_euclidean_division_equations. nia. }
  destruct Q as [Q1 [Q2 [Q3 Q4]]].
  destruct (Z.ltb_spec 0 (v / base)) as [P|Z0].
  - assert (Hf' : (0 < fuel)%nat).
    { destruct fuel; [|lia]. cbn in Q3. lia. }
    destruct (IH (v / base) ltac:(lia) Hf') as [g [E [D [T V]]]].
    rewrite E. cbn [obind]. eexists. split; [reflexivity|].
    split; [|split].
    + apply digits_cons. auto.
    + apply trimmed_cons; auto. intros ->. cbn [eval] in V. lia.
    + cbn [eval]. rewrite V. unfold base in *. lia.
  - eexists. split; [reflexivity|]. split; [|split].
    + apply digits_cons. auto.
    + reflexivity.
    + cbn [eval]. unfold base in *. lia.
Qed.

Lemma BigInteger_of_int_value (x : Z) :
  INT_MIN < x <= INT_MAX ->
  exists b, BigInteger_of_int x = Some b /\ canonical b = true /\ val b = x.
Proof.
  intros Hx. unfold BigInteger_of_int, int_abs.
  destruct (Z.eqb_spec x INT_MIN) as [E|N]; [lia|]. cbn [obind].
  destruct (int_groups_spec 32 (Z.abs x)) as [g [E [D [T V]]]]; [|lia|].
  { assert (B : 2 ^ 31 <= base ^ Z.of_nat 32) by (vm_compute; discriminate).
    unfold INT_MIN, INT_MAX in *. lia. }
  rewrite E. cbn [obind]. eexists. split; [reflexivity|].
  assert (S : sgn x = if x <? 0 then minus else plus).
  { unfold sgn. destruct (Z.leb_spec 0 x), (Z.ltb_spec x 0); try lia;
      reflexivity. }
  rewrite S.
  assert (M : mag {| a := g; sign := if x <? 0 then minus else plus |}
              = Z.abs x) by exact V.
  assert (W : wf {| a := g; sign := if x <? 0 then minus else plus |} = true).
  { apply wf_iff. auto. }
  split.
  - apply canonical_iff. split; [exact W|]. apply I2_iff. intros Z0.
    rewrite is_zero_mag in Z0 by exact W. apply Z.eqb_eq in Z0.
    cbn [sign]. destruct (Z.ltb_spec x 0); [lia | reflexivity].
  - rewrite val_sign, M. cbn [sign].
    destruct (Z.ltb_spec x 0); cbn [rsign_Z]; lia.
Qed.

(** The literals [1] (of [operator++] and [operator--]) and [0] and [1] (of
    [Rational()]) are converted by this constructor to the constants the
    embedding uses for them. *)
Lemma int_literals :
  BigInteger_of_int 1 = Some BigInteger_one
  /\ BigInteger_of_int 0 = Some (numerator Rational_default)
  /\ BigInteger_of_int 1 = Some (denominator Rational_default).
Proof. repeat split. Qed.

(** C10: the constructor from [int] takes the absolute value first; for every
    [x] with [INT_MIN < x <= INT_MAX] it returns the canonical representation
    of [x], with sign [minus] exactly when [x < 0] and [[0]] with sign [plus]
    for zero; [INT_MIN] is outside its domain, [abs] being undefined there. *)
Theorem BigInteger_of_int_spec :
  (forall x : Z,
     INT_MIN < x <= INT_MAX ->
     exists b, BigInteger_of_int x = Some b
               /\ canonical b = true
               /\ val b = x
               /\ mag b = Z.abs x
               /\ (sign b = minus <-> x < 0)
               /\ (x = 0 -> b = {| a := [0]; sign := plus |}))
  /\ int_abs INT_MIN = None
  /\ BigInteger_of_int INT_MIN = None.
Proof.
  split; [|split; reflexivity].
  intros x Hx. destruct (BigInteger_of_int_value x Hx) as [b [E [C V]]].
  exists b. split; [exact E|]. split; [exact C|]. split; [exact V|].
  pose proof (mag_bound _ (canonical_wf _ C)) as B.
  pose proof V as V'. rewrite val_sign in V'.
  split; [|split].
  - destruct (sign b); cbn [rsign_Z] in V'; lia.
  - split.
    + intros S. rewrite S in V'. cbn [rsign_Z] in V'.
      assert (N : mag b <> 0).
      { intros Z0. apply canonical_iff in C. destruct C as [W I].
        pose proof (proj1 (I2_iff b) I) as J.
        rewrite is_zero_mag, Z0 in J by exact W. specialize (J eq_refl).
        congruence. }
      lia.
    + intros Neg. destruct (sign b); cbn [rsign_Z] in V'; [lia | reflexivity].
  - intros ->. apply canonical_unique; [exact C | reflexivity | exact V].
Qed.

Lemma BigInteger_of_int_spec_witness :
  INT_MIN < -12345 <= INT_MAX
  /\ exists b, BigInteger_of_int (-12345) = Some b
               /\ canonical b = true
               /\ val b = -12345
               /\ mag b = Z.abs (-12345)
               /\ (sign b = minus <-> -12345 < 0)
               /\ (-12345 = 0 -> b = {| a := [0]; sign := plus |}).
Proof.
  split; [unfold INT_MIN, INT_MAX; lia|].
  apply (proj1 BigInteger_of_int_spec). unfold INT_MIN, INT_MAX. lia.
Defined.

(** ** The Euclidean loop *)

Lemma canonical_nonneg_plus (x : BigInteger) :
  canonical x = true -> 0 <= val x -> sign x = plus.
Proof.
  intros C P. apply canonical_iff in C. destruct C as [W I].
  pose proof (mag_bound _ W) as B. rewrite val_sign in P.
  destruct (sign x) eqn:S; [reflexivity|]. cbn [rsign_Z] in P.
  rewrite <- S. apply (proj1 (I2_iff x) I). rewrite is_zero_mag by assumption.
  apply Z.eqb_eq. lia.
Qed.

Lemma val_bound_pow2 (x : BigInteger) :
  wf x = true -> Z.abs (val x) < 2 ^ Z.of_nat (7 * size x).
Proof.
  intros W. pose proof (mag_bound _ W) as B.
  replace (Z.of_nat (7 * size x)) with (7 * Z.of_nat (size x)) by lia.
  rewrite Z.pow_mul_r by lia. change (2 ^ 7) with 128.
  assert (base ^ Z.of_nat (size x) <= 128 ^ Z.of_nat (size x)).
  { apply Z.pow_le_mono_l. unfold base. lia. }
  rewrite val_sign. destruct (sign x); cbn [rsign_Z]; lia.
Qed.

Section ExactGcd.
Context {F : FloatModel}.
Hypothesis Hexact : exact_upto F max_groups.

Lemma gcd_loop_spec (k : nat) :
  forall (fuel : nat) (x y : BigInteger),
    canonical x = true -> canonical y = true ->
    0 <= val x -> 0 <= val y < 2 ^ Z.of_nat k ->
    (2 * k + 1 <= fuel)%nat -> short x \/ short y ->
    exists g, gcd_loop fuel x y = Some g
              /\ canonical g = true
              /\ val g = Z.gcd (val x) (val y).
Proof.
  assert (Stop : forall fuel x y,
             canonical x = true -> canonical y = true ->
             0 <= val x -> val y = 0 -> (1 <= fuel)%nat ->
             exists g, gcd_loop fuel x y = Some g
                       /\ canonical g = true
                       /\ val g = Z.gcd (val x) (val y)).
  { intros fuel x y Cx Cy Px Zy Hf. destruct fuel as [|fuel]; [lia|].
    cbn [gcd_loop]. rewrite is_zero_val by (now apply canonical_wf).
    rewrite Zy. cbn [Z.eqb negb]. exists x. split; [reflexivity|].
    split; [exact Cx|]. rewrite Z.gcd_0_r. lia. }
  assert (Step : forall fuel x y,
             canonical x = true -> canonical y = true ->
             0 <= val x -> 0 < val y -> short x \/ short y ->
             exists r, gcd_loop (S fuel) x y = gcd_loop fuel y r
                       /\ canonical r = true
                       /\ val r = val x mod val y
                       /\ short r).
  { intros fuel x y Cx Cy Px Py S.
    pose proof (canonical_wf _ Cx) as Wx. pose proof (canonical_wf _ Cy) as Wy.
    assert (My : 0 < mag y).
    { pose proof (mag_bound _ Wy). rewrite val_sign in Py.
      destruct (sign y); cbn [rsign_Z] in Py; lia. }
    destruct (op_mod_assign_spec Hexact x y Wx Wy My S)
      as [q [r [_ [Er [_ [Cr [_ Vr]]]]]]].
    exists r. cbn [gcd_loop]. rewrite is_zero_val by exact Wy.
    destruct (Z.eqb_spec (val y) 0); [lia|]. cbn [negb].
    rewrite Er. cbn [obind]. split; [reflexivity|]. split; [exact Cr|].
    split.
    - rewrite Vr. apply Z.rem_mod_nonneg; lia.
    - apply (short_remainder r x y); auto using canonical_wf. }
  induction k as [|k IH]; intros fuel x y Cx Cy Px Py Hf Sh.
  - apply Stop; auto; lia.
  - destruct (Z.eq_dec (val y) 0) as [Zy|Ny]; [apply Stop; auto; lia|].
    destruct fuel as [|[|fuel]]; try lia.
    destruct (Step (S fuel) x y Cx Cy Px ltac:(lia) Sh)
      as [r1 [E1 [C1 [V1 S1]]]].
    pose proof (Z.mod_pos_bound (val x) (val y) ltac:(lia)) as B1.
    rewrite E1.
    assert (G1 : Z.gcd (val y) (val r1) = Z.gcd (val x) (val y)).
    { rewrite V1, Z.gcd_mod_r. apply Z.gcd_comm. }
    destruct (Z.eq_dec (val r1) 0) as [Z1|N1].
    + destruct (Stop (S fuel) y r1 Cy C1 ltac:(lia) Z1 ltac:(lia))
        as [g [Eg [Cg Vg]]].
      exists g. rewrite Eg. repeat split; auto. congruence.
    + destruct (Step fuel y r1 Cy C1 ltac:(lia) ltac:(lia) (or_intror S1))
        as [r2 [E2 [C2 [V2 S2]]]].
      pose proof (Z.mod_pos_bound (val y) (val r1) ltac:(lia)) as B2.
      rewrite E2.
      assert (G2 : Z.gcd (val r1) (val r2) = Z.gcd (val x) (val y)).
      { rewrite V2, Z.gcd_mod_r, Z.gcd_comm. exact G1. }
      assert (Half : 2 * val r2 < val y).
      { rewrite V2. rewrite Nat2Z.inj_succ, Z.pow_succ_r in Py by lia.
        pose proof (Z.div_mod (val y) (val r1) ltac:(lia)) as Dm.
        assert (1 <= val y / val r1).
        { apply Z.div_le_lower_bound; lia. }
        nia. }
      rewrite Nat2Z.inj_succ, Z.pow_succ_r in Py by lia.
      destruct (IH fuel r1 r2 C1 C2 ltac:(lia) ltac:(lia) ltac:(lia)
                  (or_introl S1))
        as [g [Eg [Cg Vg]]].
      exists g. rewrite Eg. repeat split; auto. congruence.
Qed.

Lemma gcd_spec (x y : BigInteger) :
  canonical x = true -> canonical y = true -> 0 <= val x -> 0 <= val y ->
  short x \/ short y ->
  exists g, gcd x y = Some g
            /\ canonical g = true
            /\ val g = Z.gcd (val x) (val y).
Proof.
  intros Cx Cy Px Py S. unfold gcd.
  apply gcd_loop_spec with (k := (7 * size y)%nat); auto; [|lia].
  pose proof (val_bound_pow2 y (canonical_wf _ Cy)). lia.
Qed.

End ExactGcd.

(** ** Rational: normalisation *)

Lemma I3_iff (r : Rational) :
  I3 r = true <->
  canonical (numerator r) = true /\ canonical (denominator r) = true
  /\ sign (numerator r) = plus /\ sign (denominator r) = plus
  /\ 0 < val (denominator r)
  /\ Z.gcd (val (numerator r)) (val (denominator r)) = 1
  /\ (is_zero (numerator r) = true -> rsign r = plus).
Proof.
  unfold I3, Rational_is_zero. rewrite !andb_true_iff, Z.ltb_lt, Z.eqb_eq.
  assert (S : forall s, Sign_eqb s plus = true <-> s = plus).
  { intros s. destruct (Sign_eqb_spec s plus); split; congruence. }
  rewrite !S.
  assert (Z0 : (if is_zero (numerator r) then Sign_eqb (rsign r) plus else true)
               = true
               <-> (is_zero (numerator r) = true -> rsign r = plus)).
  { destruct (is_zero (numerator r)).
    - rewrite S. tauto.
    - split; [discriminate | reflexivity]. }
  rewrite Z0. tauto.
Qed.

Lemma canonical_set_plus (x : BigInteger) :
  wf x = true -> canonical (set_sign x plus) = true.
Proof.
  intros W. apply canonical_iff. split; [exact W|]. now apply I2_iff.
Qed.

Lemma val_set_plus (x : BigInteger) : val (set_sign x plus) = mag x.
Proof. reflexivity. Qed.

Lemma is_one_val (g : BigInteger) :
  canonical g = true -> 0 <= val g -> is_one g = (val g =? 1).
Proof.
  intros C P. pose proof (canonical_nonneg_plus g C P) as S.
  pose proof (canonical_wf _ C) as W. apply wf_iff in W. destruct W as [D T].
  rewrite val_sign, S. cbn [rsign_Z]. rewrite Z.mul_1_l.
  destruct (Z.eqb_spec (mag g) 1) as [E|N].
  - assert (A : a g = [1]) by (apply trimmed_unique; auto).
    unfold is_one. now rewrite A.
  - unfold is_one, mag in *. destruct (a g) as [|d [|e l]]; try reflexivity.
    apply Z.eqb_neq. intros ->. now apply N.
Qed.

Lemma half_short (x : BigInteger) :
  Z.of_nat (size x) <= half_groups -> short x.
Proof. unfold short, half_groups, max_groups. lia. Qed.

Lemma I3_positive_parts (r : Rational) :
  I3 r = true ->
  wf (numerator r) = true /\ wf (denominator r) = true
  /\ val (numerator r) = mag (numerator r)
  /\ val (denominator r) = mag (denominator r)
  /\ 0 <= mag (numerator r) /\ 0 < mag (denominator r).
Proof.
  intros H. apply I3_iff in H.
  destruct H as [Cn [Cd [Sn [Sd [Pd _]]]]].
  pose proof (canonical_wf _ Cn) as Wn. pose proof (canonical_wf _ Cd) as Wd.
  pose proof (mag_bound _ Wn). 
  rewrite !val_sign, Sn, Sd in *. cbn [rsign_Z] in *.
  repeat split; auto; lia.
Qed.

Lemma wf_signed_numerator (r : Rational) :
  I3 r = true -> wf (set_sign (numerator r) (rsign r)) = true.
Proof. intros H. now apply I3_positive_parts in H. Qed.

Section ExactRational.
Context {F : FloatModel}.
Hypothesis Hexact : exact_upto F max_groups.

Lemma normalize_spec (r : Rational) :
  wf (numerator r) = true -> canonical (denominator r) = true ->
  0 < val (denominator r) ->
  short (numerator r) \/ short (denominator r) ->
  exists r', normalize r = Some r' /\ I3 r' = true.
Proof.
  intros Wn Cd Pd Sh.
  pose proof (canonical_nonneg_plus _ Cd ltac:(lia)) as Sd.
  pose proof (canonical_set_plus _ Wn) as Cn.
  pose proof (mag_bound _ Wn) as Bn.
  set (num := set_sign (numerator r) plus) in *.
  assert (Vn : val num = mag (numerator r)) by reflexivity.
  destruct (gcd_spec Hexact num (denominator r) Cn Cd ltac:(lia) ltac:(lia)
              Sh)
    as [g [Eg [Cg Vg]]].
  pose proof (Z.gcd_nonneg (val num) (val (denominator r))) as Pg.
  assert (Ng : Z.gcd (val num) (val (denominator r)) <> 0).
  { intros C. apply Z.gcd_eq_0 in C. lia. }
  unfold normalize. fold num. rewrite Eg. cbn [obind].
  rewrite is_one_val by (auto; lia).
  set (sg := if is_zero num then plus
             else sign_mul (rsign r) (sign (numerator r))).
  assert (Zsg : is_zero num = true -> sg = plus).
  { unfold sg. now intros ->. }
  destruct (Z.eqb_spec (val g) 1) as [One|NotOne].
  - eexists. split; [reflexivity|]. apply I3_iff.
    cbn [numerator denominator rsign]. repeat split; auto. congruence.
  - pose proof (canonical_wf _ Cg) as Wg.
    assert (Mg : 0 < mag g).
    { pose proof (mag_bound _ Wg). rewrite val_sign in Vg.
      destruct (sign g); cbn [rsign_Z] in Vg; lia. }
    destruct (op_div_assign_spec num g (canonical_wf _ Cn) Wg Mg)
      as [q1 [E1 [C1 V1]]].
    destruct (op_div_assign_spec (denominator r) g (canonical_wf _ Cd) Wg Mg)
      as [q2 [E2 [C2 V2]]].
    rewrite E1, E2. cbn [obind]. eexists. split; [reflexivity|].
    rewrite Z.quot_div_nonneg in V1, V2 by lia.
    destruct (Z.gcd_divide_l (val num) (val (denominator r))) as [c1 D1].
    destruct (Z.gcd_divide_r (val num) (val (denominator r))) as [c2 D2].
    rewrite <- Vg in D1, D2, Pg, Ng.
    assert (Q1 : val q1 = c1) by (rewrite V1, D1; now apply Z.div_mul).
    assert (Q2 : val q2 = c2) by (rewrite V2, D2; now apply Z.div_mul).
    assert (P1 : 0 <= val q1) by nia.
    assert (P2 : 0 < val q2) by nia.
    apply I3_iff. cbn [numerator denominator rsign].
    split; [exact C1|]. split; [exact C2|].
    split; [now apply canonical_nonneg_plus|].
    split; [apply canonical_nonneg_plus; auto; lia|].
    split; [exact P2|]. split.
    + rewrite V1, V2. apply Z.gcd_div_gcd; auto.
    + intros Z1. apply Zsg.
      rewrite is_zero_val in Z1 by (now apply canonical_wf).
      apply Z.eqb_eq in Z1.
      rewrite is_zero_val by (now apply canonical_wf). apply Z.eqb_eq. nia.
Qed.

Lemma product_short (x y : BigInteger) :
  wf x = true -> wf y = true ->
  Z.of_nat (size x) <= half_groups -> Z.of_nat (size y) <= half_groups ->
  short (op_mul_assign x y).
Proof.
  intros Wx Wy Hx Hy.
  pose proof (op_mul_assign_size Hexact x y Wx Wy (or_introl (half_short _ Hx))).
  unfold short, half_groups, max_groups in *. lia.
Qed.

Lemma R_mul_assign_spec (this x : Rational) :
  I3 this = true -> I3 x = true -> R_short this -> R_short x ->
  exists r, R_mul_assign this x = Some r /\ I3 r = true.
Proof.
  intros Ht Hx [Sn Sd] [Sn' Sd'].
  destruct (I3_positive_parts _ Ht) as [Wn [Wd [Vn [Vd [Pn Pd]]]]].
  destruct (I3_positive_parts _ Hx) as [Wn' [Wd' [Vn' [Vd' [Pn' Pd']]]]].
  destruct (op_mul_assign_spec Hexact _ _ Wn Wn' (or_introl (half_short _ Sn)))
    as [C1 V1].
  destruct (op_mul_assign_spec Hexact _ _ Wd Wd' (or_introl (half_short _ Sd)))
    as [C2 V2].
  apply normalize_spec; cbn [numerator denominator].
  - now apply canonical_wf.
  - exact C2.
  - rewrite V2. nia.
  - right. now apply product_short.
Qed.

Lemma R_div_assign_spec (this x : Rational) :
  I3 this = true -> I3 x = true -> R_short this -> R_short x ->
  Rational_is_zero x = false ->
  exists r, R_div_assign this x = Some r /\ I3 r = true.
Proof.
  intros Ht Hx [Sn Sd] [Sn' Sd'] Nz.
  destruct (I3_positive_parts _ Ht) as [Wn [Wd [Vn [Vd [Pn Pd]]]]].
  destruct (I3_positive_parts _ Hx) as [Wn' [Wd' [Vn' [Vd' [Pn' Pd']]]]].
  unfold Rational_is_zero in Nz. rewrite is_zero_mag in Nz by assumption.
  apply Z.eqb_neq in Nz.
  destruct (op_mul_assign_spec Hexact _ _ Wn Wd' (or_introl (half_short _ Sn)))
    as [C1 V1].
  destruct (op_mul_assign_spec Hexact _ _ Wd Wn' (or_introl (half_short _ Sd)))
    as [C2 V2].
  apply normalize_spec; cbn [numerator denominator].
  - now apply canonical_wf.
  - exact C2.
  - rewrite V2. nia.
  - right. now apply product_short.
Qed.

Lemma R_add_sub_assign_spec (this x : Rational) :
  I3 this = true -> I3 x = true -> R_short this -> R_short x ->
  (exists r, R_add_assign this x = Some r /\ I3 r = true)
  /\ (exists r, R_sub_assign this x = Some r /\ I3 r = true).
Proof.
  intros Ht Hx [Sn Sd] [Sn' Sd'].
  pose proof (wf_signed_numerator _ Ht) as Ws.
  destruct (I3_positive_parts _ Ht) as [Wn [Wd [Vn [Vd [Pn Pd]]]]].
  destruct (I3_positive_parts _ Hx) as [Wn' [Wd' [Vn' [Vd' [Pn' Pd']]]]].
  destruct (op_mul_assign_spec Hexact _ _ Ws Wd'
              (or_intror (half_short _ Sd'))) as [C1 _].
  destruct (op_mul_assign_spec Hexact _ _ Wn' Wd
              (or_intror (half_short _ Sd))) as [C2 _].
  destruct (op_mul_assign_spec Hexact _ _ Wd Wd'
              (or_introl (half_short _ Sd))) as [C3 V3].
  pose proof (product_short _ _ Wd Wd' Sd Sd') as S3.
  pose proof (canonical_wf _ C1) as W1. pose proof (canonical_wf _ C2) as W2.
  destruct (op_add_assign_spec _ _ W1 W2) as [Wa _].
  destruct (op_sub_assign_spec _ _ W1 W2) as [Wb _].
  split; apply normalize_spec; cbn [numerator denominator];
    try exact C3; try (rewrite V3; nia); try (right; exact S3);
    destruct (rsign x); assumption.
Qed.

Lemma R_neg_spec (this : Rational) :
  I3 this = true -> R_short this ->
  exists r, R_neg this = Some r /\ I3 r = true.
Proof.
  intros Ht [Sn Sd]. pose proof Ht as Ht'. apply I3_iff in Ht'.
  destruct Ht' as [Cn [Cd [Sgn [Sgd [Pd _]]]]].
  apply normalize_spec; cbn [numerator denominator]; auto.
  - now apply canonical_wf.
  - left. now apply half_short.
Qed.

End ExactRational.

Lemma Rational_of_BigInteger_spec (n : BigInteger) :
  canonical n = true -> I3 (Rational_of_BigInteger n) = true.
Proof.
  intros C. pose proof (canonical_wf _ C) as W.
  apply I3_iff. unfold Rational_of_BigInteger.
  cbn [numerator denominator rsign]. split; [|split; [|split; [|split]]].
  - now apply canonical_set_plus.
  - reflexivity.
  - reflexivity.
  - reflexivity.
  - split; [reflexivity|]. split.
    + change (val BigInteger_one) with 1. now rewrite Z.gcd_1_r.
    + intros Z0. apply canonical_iff in C. destruct C as [_ I].
      apply (proj1 (I2_iff n) I). exact Z0.
Qed.

Lemma Rational_of_int_spec (x : Z) :
  INT_MIN < x <= INT_MAX ->
  exists r, Rational_of_int x = Some r /\ I3 r = true.
Proof.
  intros H. destruct (BigInteger_of_int_value x H) as [b [E [C _]]].
  unfold Rational_of_int. rewrite E. cbn [obind]. eexists.
  split; [reflexivity|]. now apply Rational_of_BigInteger_spec.
Qed.

(** ** Decimal rendering *)

Lemma toString_set_plus (x : BigInteger) (body : list ascii) :
  toString (set_sign x plus) = Some body ->
  toString x = Some (match sign x with
                     | minus => "-"%char :: body
                     | plus => body
                     end).
Proof.
  unfold toString. cbn [set_sign a sign].
  destruct (a x) as [|d l]; [discriminate|].
  destruct (concat_groups (rev (d :: l))); cbn [obind]; [|discriminate].
  intros [= <-]. reflexivity.
Qed.

(** C6, as the code has it: for every canonical [n], rendering
    [Rational(n)] with precision 0 gives the text of [n] followed by the
    decimal point: [Rational(n).asDecimal(0) == n.toString() + "."].  The
    transform of [operator*=] is taken to be exact. *)
Theorem asDecimal_zero_precision (F : FloatModel) (Hexact : exact_fft F)
    (n : BigInteger) :
  canonical n = true ->
  exists s, toString n = Some s
            /\ asDecimal (Rational_of_BigInteger n) 0 = Some (s ++ ["."%char]).
Proof.
  intros C. pose proof (canonical_wf _ C) as W.
  pose proof (canonical_set_plus _ W) as Cp.
  pose proof (mag_bound _ W) as B.
  destruct (toString_spec (set_sign n plus) W) as [body [E [Vb _]]].
  cbn [set_sign sign] in E.
  exists (match sign n with minus => "-"%char :: body | plus => body end).
  split; [now apply toString_set_plus|].
  unfold asDecimal, Rational_of_BigInteger.
  cbn [numerator denominator rsign repeat].
  change (BigInteger_of_string ["1"%char]) with BigInteger_one.
  (* numerator * BigInteger("1") is the numerator *)
  destruct (op_mul_assign_spec (exact_fft_upto F max_groups Hexact)
              (set_sign n plus) BigInteger_one W eq_refl
              (or_intror (short_single BigInteger_one eq_refl))) as [Cm Vm].
  assert (Em : op_mul_assign (set_sign n plus) BigInteger_one
               = set_sign n plus).
  { apply canonical_unique; auto. rewrite Vm.
    change (val BigInteger_one) with 1. lia. }
  rewrite Em.
  (* and so is its quotient by the denominator 1 *)
  destruct (op_div_assign_spec (set_sign n plus) BigInteger_one W eq_refl)
    as [q [Eq [Cq Vq]]]; [reflexivity|].
  assert (Eq' : q = set_sign n plus).
  { apply canonical_unique; auto. rewrite Vq.
    change (val BigInteger_one) with 1. now rewrite Z.quot_1_r. }
  subst q. rewrite Eq. cbn [obind]. rewrite E. cbn [obind].
  (* pos is the whole length: the text, the point, no fractional digit *)
  assert (Lb : (0 < length body)%nat).
  { apply valid_body_iff in Vb. destruct Vb as [Nb _].
    destruct body; [congruence | simpl; lia]. }
  rewrite !Nat.sub_0_r, Nat.sub_diag, firstn_all. cbn [firstn repeat app].
  destruct (Nat.eqb_spec (length body) 0) as [Z0|_]; [lia|].
  cbn [app]. f_equal. destruct (sign n); cbn [app]; reflexivity.
Qed.

Lemma asDecimal_zero_precision_witness :
  canonical (BigInteger_of_string (str "-123")) = true
  /\ exists s,
       toString (BigInteger_of_string (str "-123")) = Some s
       /\ @asDecimal exact_model
            (Rational_of_BigInteger (BigInteger_of_string (str "-123"))) 0
          = Some (s ++ ["."%char]).
Proof.
  split; [vm_compute; reflexivity|].
  apply (asDecimal_zero_precision exact_model exact_model_exact).
  vm_compute; reflexivity.
Defined.

(** C6 as stated fails: the rendering of [Rational(-123)] with precision 0
    is ["-123."], not ["-123"]. *)
Lemma asDecimal_differs_from_toString :
  toString (BigInteger_of_string (str "-123")) = Some (str "-123")
  /\ @asDecimal exact_model
       (Rational_of_BigInteger (BigInteger_of_string (str "-123"))) 0
     = Some (str "-123.")
  /\ @asDecimal exact_model
       (Rational_of_BigInteger (BigInteger_of_string (str "-123"))) 0
     <> toString (BigInteger_of_string (str "-123")).
Proof.
  assert (T : toString (BigInteger_of_string (str "-123"))
              = Some (str "-123")) by (vm_compute; reflexivity).
  assert (D : @asDecimal exact_model
                (Rational_of_BigInteger (BigInteger_of_string (str "-123"))) 0
              = Some (str "-123.")) by (vm_compute; reflexivity).
  split; [exact T|]. split; [exact D|].
  rewrite T, D. vm_compute. discriminate.
Qed.

(** ** Division by zero *)

Lemma wf_zero_vector (x : BigInteger) : a x = [0] -> wf x = true.
Proof. intros E. unfold wf, in_range, I1. now rewrite E. Qed.

Lemma mag_zero_vector (x : BigInteger) : a x = [0] -> mag x = 0.
Proof. intros E. unfold mag. now rewrite E. Qed.

Lemma digit_loop_zero (sub : BigInteger) (k : nat) :
  a sub = [0] -> sign sub = plus ->
  forall (this : BigInteger) (n : Z),
    wf this = true -> sign this = plus ->
    digit_loop k this sub n = (this, n + Z.of_nat k).
Proof.
  intros As Ss. pose proof (wf_zero_vector _ As) as Ws.
  pose proof (mag_zero_vector _ As) as Ms.
  induction k as [|k IH]; intros this n Wt St.
  - cbn [digit_loop]. f_equal. lia.
  - cbn [digit_loop]. rewrite less_abs_spec by assumption.
    pose proof (mag_bound _ Wt) as Bt.
    destruct (Z.ltb_spec (mag this) (mag sub)) as [L|G]; [lia|].
    destruct (sub_plus_spec this sub Wt Ws St Ss G) as [W1 [S1 M1]].
    assert (E : op_sub_assign this sub = this).
    { apply canonical_unique.
      - apply canonical_iff. split; [exact W1|]. now apply I2_iff.
      - apply canonical_iff. split; [exact Wt|]. now apply I2_iff.
      - rewrite !val_sign, S1, St, M1, Ms. lia. }
    rewrite E, IH by assumption. f_equal. lia.
Qed.

Lemma div_loop_zero (sub : BigInteger) (t : nat) :
  a sub = [0] -> sign sub = plus ->
  forall (this : BigInteger) (result : list ascii),
    wf this = true -> sign this = plus ->
    div_loop t this sub result = (this, result ++ repeat "9"%char t).
Proof.
  intros As Ss.
  assert (D : div10 sub = sub).
  { destruct sub as [l s]. cbn in As, Ss. subst. reflexivity. }
  induction t as [|t IH]; intros this result Wt St.
  - cbn. now rewrite app_nil_r.
  - cbn [div_loop]. rewrite (digit_loop_zero sub 9 As Ss this 0 Wt St).
    rewrite D, IH by assumption. rewrite <- app_assoc. reflexivity.
Qed.

Lemma window_number_nines (t : nat) :
  window_number (repeat "9"%char t) = 10 ^ Z.of_nat t - 1.
Proof.
  induction t as [|t IH]; [reflexivity|].
  cbn [repeat]. rewrite window_number_cons, IH, repeat_length.
  change (digit_of "9") with 9.
  rewrite Nat2Z.inj_succ, Z.pow_succ_r by lia. lia.
Qed.

Lemma op_div_assign_zero (this z : BigInteger) :
  wf this = true -> is_zero z = true ->
  exists q, op_div_assign this z = Some q
            /\ canonical q = true
            /\ sign q = sign_mul (sign this) (sign z)
            /\ mag q = 10 ^ Z.of_nat (2 * size this + 1) - 1.
Proof.
  intros Wt Zz. apply is_zero_iff in Zz.
  pose proof (wf_size_pos _ Wt) as St.
  unfold op_div_assign.
  assert (Sz : size z = 1%nat) by (unfold size; now rewrite Zz).
  destruct (Nat.ltb_spec (size this) (size z)) as [L|_]; [lia|].
  assert (Ez : toString (set_sign z plus) = Some ["0"%char]).
  { unfold toString. cbn [set_sign a sign]. rewrite Zz. reflexivity. }
  rewrite Ez. cbn [obind].
  change (size (set_sign this plus)) with (size this).
  set (degree := ((size this - size z + 1) * base_len)%nat).
  assert (Vd : valid_body (["0"%char] ++ repeat "0"%char degree) = true)
    by now apply valid_body_zeros.
  rewrite (parse_plus _ Vd).
  destruct (parse_body_spec _ plus Vd) as [Ws Ms]. cbv zeta in Ws, Ms.
  rewrite window_number_zeros in Ms. change (window_number ["0"%char]) with 0 in Ms.
  set (sub := {| a := delete_trailing_zeroes _; sign := plus |}) in *.
  assert (As : a sub = [0]).
  { apply wf_iff in Ws. apply trimmed_zero; tauto. }
  set (sg := sign_mul (sign this) (sign z)).
  set (result := match sg with minus => ["-"%char] | plus => [] end).
  rewrite (div_loop_zero sub (S degree) As eq_refl (set_sign this plus) result
             Wt eq_refl).
  set (ds := repeat "9"%char (S degree)).
  assert (Vds : valid_body ds = true).
  { apply valid_body_iff. split; [discriminate|]. now apply forallb_repeat. }
  assert (Q : BigInteger_of_string (result ++ ds)
              = {| a := delete_trailing_zeroes (parse_groups (rev ds));
                   sign := sg |}).
  { unfold result. destruct sg; [now apply parse_plus | apply parse_minus]. }
  rewrite Q. destruct (parse_body_spec ds sg Vds) as [Wq Mq].
  cbv zeta in Wq, Mq. cbn [a sign].
  set (q := {| a := delete_trailing_zeroes (parse_groups (rev ds));
               sign := sg |}) in *.
  change {| a := delete_trailing_zeroes
                   (delete_trailing_zeroes (parse_groups (rev ds)));
            sign := sg |}
    with {| a := delete_trailing_zeroes (a q); sign := sign q |}.
  rewrite (wf_trim q Wq).
  unfold ds in Mq. rewrite window_number_nines in Mq.
  assert (Dg : S degree = (2 * size this + 1)%nat).
  { unfold degree, base_len. lia. }
  rewrite Dg in Mq.
  assert (P : 10 <= 10 ^ Z.of_nat (2 * size this + 1)).
  { change 10 with (10 ^ 1) at 1. apply Z.pow_le_mono_r; lia. }
  assert (Nq : is_zero q = false).
  { rewrite is_zero_mag by exact Wq. apply Z.eqb_neq. lia. }
  rewrite Nq. exists q. split; [reflexivity|]. split; [|split].
  - apply canonical_iff. split; [exact Wq|]. apply I2_iff. congruence.
  - reflexivity.
  - exact Mq.
Qed.

Section ExactZeroDivisor.
Context {F : FloatModel}.
Hypothesis Hexact : exact_upto F max_groups.

Lemma op_mod_assign_zero (this z : BigInteger) :
  canonical this = true -> is_zero z = true ->
  op_mod_assign this z = Some this.
Proof.
  intros Ct Zz. pose proof (canonical_wf _ Ct) as Wt.
  destruct (op_div_assign_zero this z Wt Zz) as [q [Eq [Cq _]]].
  pose proof Zz as Az. apply is_zero_iff in Az.
  pose proof (wf_zero_vector _ Az) as Wz.
  assert (Sz : short z).
  { apply short_single. unfold size. now rewrite Az. }
  destruct (op_mul_assign_spec Hexact q z (canonical_wf _ Cq) Wz
              (or_intror Sz)) as [Cm Vm].
  destruct (op_sub_assign_spec this (op_mul_assign q z) Wt (canonical_wf _ Cm))
    as [Ws [Vs _]].
  destruct (collapse_spec _ Ws) as [W' [V' [I' _]]].
  unfold op_mod_assign. rewrite Eq. cbn [obind]. f_equal.
  apply canonical_unique; auto.
  - apply canonical_iff. auto.
  - rewrite V', Vs, Vm, (val_sign z), (mag_zero_vector _ Az). lia.
Qed.

End ExactZeroDivisor.

(** C2, as the code has it: division and modulo by a divisor whose magnitude
    is zero signal nothing and do not loop.  For a canonical dividend of [s]
    groups the quotient returned is made of [2 * s + 1] decimal nines, with
    the sign of the dividend combined with that of the divisor; modulo
    returns a value too, which is the dividend when the transform of
    [operator*=] is exact. *)
Theorem division_by_zero_returns (F : FloatModel) (this z : BigInteger) :
  canonical this = true -> is_zero z = true ->
  (exists q, op_div this z = Some q
             /\ sign q = sign_mul (sign this) (sign z)
             /\ mag q = 10 ^ Z.of_nat (2 * size this + 1) - 1)
  /\ (exists r, op_mod this z = Some r /\ (exact_fft F -> r = this)).
Proof.
  intros Ct Zz.
  destruct (op_div_assign_zero this z (canonical_wf _ Ct) Zz)
    as [q [Eq [_ [Sq Mq]]]].
  split.
  - exists q. auto.
  - unfold op_mod, op_mod_assign. rewrite Eq. cbn [obind]. eexists.
    split; [reflexivity|]. intros Hexact.
    pose proof (op_mod_assign_zero (exact_fft_upto F max_groups Hexact)
                  this z Ct Zz) as E.
    unfold op_mod_assign in E. rewrite Eq in E. cbn [obind] in E.
    now injection E.
Qed.

Lemma division_by_zero_returns_witness :
  canonical (BigInteger_of_string (str "-1234")) = true
  /\ is_zero BigInteger_default = true
  /\ (exists q,
        op_div (BigInteger_of_string (str "-1234")) BigInteger_default = Some q
        /\ sign q = sign_mul (sign (BigInteger_of_string (str "-1234")))
                             (sign BigInteger_default)
        /\ mag q = 10 ^ Z.of_nat
                          (2 * size (BigInteger_of_string (str "-1234")) + 1)
                   - 1)
  /\ (exists r,
        @op_mod exact_model (BigInteger_of_string (str "-1234"))
          BigInteger_default = Some r
        /\ (exact_fft exact_model
            -> r = BigInteger_of_string (str "-1234"))).
Proof.
  split; [vm_compute; reflexivity|]. split; [reflexivity|].
  apply (division_by_zero_returns exact_model); vm_compute; reflexivity.
Defined.

(** C2 as stated fails: [1234 / 0] returns [99999] and [1234 % 0] returns
    [1234]; no error is signalled ([None] is the only error of the model). *)
Lemma division_by_zero_is_silent :
  is_zero (BigInteger_of_string (str "0")) = true
  /\ op_div (BigInteger_of_string (str "1234")) (BigInteger_of_string (str "0"))
     = Some (BigInteger_of_string (str "99999"))
  /\ @op_mod exact_model (BigInteger_of_string (str "1234"))
       (BigInteger_of_string (str "0"))
     = Some (BigInteger_of_string (str "1234"))
  /\ op_div (BigInteger_of_string (str "1234")) (BigInteger_of_string (str "0"))
     <> None.
Proof.
  assert (D : op_div (BigInteger_of_string (str "1234"))
                     (BigInteger_of_string (str "0"))
              = Some (BigInteger_of_string (str "99999")))
    by (vm_compute; reflexivity).
  split; [reflexivity|]. split; [exact D|].
  split; [vm_compute; reflexivity|]. rewrite D. discriminate.
Qed.

(** ** The invariant of [Rational] *)

Lemma I3_zero_form (x : Rational) :
  I3 x = true -> Rational_is_zero x = true ->
  numerator x = BigInteger_default /\ denominator x = BigInteger_one.
Proof.
  intros H Z0. apply I3_iff in H.
  destruct H as [Cn [Cd [_ [_ [Pd [G _]]]]]].
  unfold Rational_is_zero in Z0.
  rewrite is_zero_val in Z0 by (now apply canonical_wf).
  apply Z.eqb_eq in Z0. rewrite Z0, Z.gcd_0_l in G.
  split; apply canonical_unique; auto.
  change (val BigInteger_one) with 1. lia.
Qed.

Lemma I3_denominator_positive (r : Rational) :
  I3 r = true -> 0 < val (denominator r).
Proof. intros H. apply I3_iff in H. tauto. Qed.

Section RationalZeroDivisor.
Context {F : FloatModel}.
Hypothesis Hexact : exact_upto F max_groups.

(** [/=] by the zero [Rational]: the denominator is multiplied by zero and
    [normalize] divides both members by the numerator (their greatest
    common divisor with zero), which leaves the denominator zero; when the
    numerator is zero too, both divisions are by zero and return three
    nines. *)
Lemma R_div_assign_by_zero (this x : Rational) :
  I3 this = true -> I3 x = true -> Rational_is_zero x = true ->
  exists r, R_div_assign this x = Some r
            /\ I3 r = false
            /\ val (denominator r)
               = (if Rational_is_zero this then 999 else 0).
Proof.
  intros Ht Hx Zx.
  destruct (I3_zero_form x Hx Zx) as [En Ed].
  apply I3_iff in Ht. destruct Ht as [Cn [Cd [Sn _]]].
  pose proof (canonical_wf _ Cn) as Wn. pose proof (canonical_wf _ Cd) as Wd.
  unfold R_div_assign, Rational_is_zero. rewrite En, Ed.
  destruct (op_mul_assign_spec Hexact (numerator this) BigInteger_one Wn
              eq_refl (or_intror (short_single BigInteger_one eq_refl)))
    as [C1 V1].
  destruct (op_mul_assign_spec Hexact (denominator this) BigInteger_default
              Wd eq_refl
              (or_intror (short_single BigInteger_default eq_refl)))
    as [C2 V2].
  assert (E1 : op_mul_assign (numerator this) BigInteger_one
               = numerator this).
  { apply canonical_unique; auto. rewrite V1.
    change (val BigInteger_one) with 1. lia. }
  assert (E2 : op_mul_assign (denominator this) BigInteger_default
               = BigInteger_default).
  { apply canonical_unique; auto. rewrite V2.
    change (val BigInteger_default) with 0. lia. }
  rewrite E1, E2. clear E1 E2 C1 V1 C2 V2.
  set (sg := sign_mul (rsign this) (rsign x)).
  destruct (numerator this) as [an sn] eqn:Nt. cbn [sign] in Sn. subst sn.
  unfold normalize. cbn [numerator denominator rsign sign].
  change (set_sign {| a := an; sign := plus |} plus)
    with {| a := an; sign := plus |}.
  set (num := {| a := an; sign := plus |}) in *.
  change (gcd num BigInteger_default) with (Some num). cbn [obind].
  assert (False3 : forall n d s, val d <= 0 \/ (val n = 999 /\ val d = 999) ->
                     I3 {| numerator := n; denominator := d; rsign := s |}
                     = false).
  { intros n d s B.
    destruct (I3 {| numerator := n; denominator := d; rsign := s |}) eqn:E;
      [|reflexivity].
    apply I3_iff in E. cbn [numerator denominator] in E.
    destruct E as [_ [_ [_ [_ [Pd [G _]]]]]].
    destruct B as [B|[B1 B2]]; [lia|]. rewrite B1, B2 in G. discriminate G. }
  destruct (is_one num) eqn:One.
  - assert (Nz : is_zero num = false).
    { unfold is_one, is_zero in *. cbn [num a] in *.
      destruct an as [|d [|e l]]; try discriminate.
      apply Z.eqb_eq in One. subst d. reflexivity. }
    rewrite Nz. eexists. split; [reflexivity|]. cbn [denominator]. split.
    + apply False3. left. change (val BigInteger_default) with 0. lia.
    + reflexivity.
  - destruct (is_zero num) eqn:Z0.
    + apply is_zero_iff in Z0. cbn [num a] in Z0. subst an.
      eexists. split; [vm_compute; reflexivity|]. split.
      * apply False3. right. split; reflexivity.
      * reflexivity.
    + assert (M : 0 < mag num).
      { pose proof (mag_bound _ Wn). rewrite is_zero_mag in Z0 by exact Wn.
        apply Z.eqb_neq in Z0. lia. }
      destruct (op_div_assign_spec num num Wn Wn M) as [q1 [Q1 [_ _]]].
      destruct (op_div_assign_spec BigInteger_default num eq_refl Wn M)
        as [q2 [Q2 [_ V2]]].
      rewrite Q1, Q2. cbn [obind]. eexists. split; [reflexivity|].
      cbn [denominator].
      change (val BigInteger_default) with 0 in V2.
      rewrite Z.quot_0_l in V2
        by (rewrite val_sign; cbn [num sign rsign_Z]; lia).
      split; [apply False3; left; lia | exact V2].
Qed.

End RationalZeroDivisor.

(** C3, as the code has it: every public operation of [Rational] returns a
    state that satisfies I3 (numerator and denominator canonical and of sign
    [plus], denominator positive, the two coprime, and sign [plus] on zero),
    provided that the argument of the constructor from [int] is above
    [INT_MIN], that the divisor of [/=] is not zero, and that the numerators
    and denominators of the operands have at most [half_groups] groups, so
    that the carry loop of [operator*=] stays within [int]; the transform is
    taken to be exact up to [max_groups] groups.  [/=] by the zero
    [Rational] returns a state outside I3: its denominator is zero, or 999
    over 999 when the dividend is zero as well. *)
Theorem rational_invariant (F : FloatModel)
    (Hexact : exact_upto F max_groups) :
  I3 Rational_default = true
  /\ (forall n : BigInteger,
        canonical n = true -> I3 (Rational_of_BigInteger n) = true)
  /\ (forall x : Z,
        INT_MIN < x <= INT_MAX ->
        exists r, Rational_of_int x = Some r /\ I3 r = true)
  /\ (forall this x : Rational,
        I3 this = true -> I3 x = true -> R_short this -> R_short x ->
        (exists r, R_add_assign this x = Some r /\ I3 r = true)
        /\ (exists r, R_sub_assign this x = Some r /\ I3 r = true)
        /\ (exists r, R_mul_assign this x = Some r /\ I3 r = true)
        /\ (Rational_is_zero x = false ->
            exists r, R_div_assign this x = Some r /\ I3 r = true))
  /\ (forall this : Rational,
        I3 this = true -> R_short this ->
        exists r, R_neg this = Some r /\ I3 r = true)
  /\ (forall this x : Rational,
        I3 this = true -> I3 x = true -> Rational_is_zero x = true ->
        exists r, R_div_assign this x = Some r
                  /\ I3 r = false
                  /\ val (denominator r)
                     = (if Rational_is_zero this then 999 else 0)).
Proof.
  split; [reflexivity|].
  split; [exact Rational_of_BigInteger_spec|].
  split; [exact Rational_of_int_spec|].
  split; [|split].
  - intros this x Ht Hx St Sx.
    destruct (R_add_sub_assign_spec Hexact this x Ht Hx St Sx) as [A S].
    split; [exact A|]. split; [exact S|].
    split; [now apply R_mul_assign_spec|].
    intros Nz. now apply R_div_assign_spec.
  - intros this Ht St. now apply R_neg_spec.
  - intros this x Ht Hx Zx. now apply R_div_assign_by_zero.
Qed.

Lemma rational_invariant_witness :
  let t := {| numerator := {| a := [1]; sign := plus |};
              denominator := {| a := [3]; sign := plus |};
              rsign := minus |} in
  let s := {| numerator := {| a := [1]; sign := plus |};
              denominator := {| a := [6]; sign := plus |};
              rsign := plus |} in
  I3 t = true /\ I3 s = true /\ R_short t /\ R_short s
  /\ Rational_is_zero s = false
  /\ (exists r, @R_add_assign exact_model t s = Some r /\ I3 r = true)
  /\ (exists r, @R_div_assign exact_model t s = Some r /\ I3 r = true).
Proof.
  intros t s.
  assert (St : R_short t) by (split; vm_compute; discriminate).
  assert (Ss : R_short s) by (split; vm_compute; discriminate).
  split; [reflexivity|]. split; [reflexivity|].
  split; [exact St|]. split; [exact Ss|]. split; [reflexivity|].
  pose proof (rational_invariant exact_model
                (exact_fft_upto exact_model max_groups exact_model_exact))
    as [_ [_ [_ [H _]]]].
  destruct (H t s eq_refl eq_refl St Ss) as [A [_ [_ D]]].
  split; [exact A | exact (D eq_refl)].
Defined.

(** C3 as stated fails: dividing by the zero [Rational] returns a state
    whose denominator is zero. *)
Lemma rational_division_by_zero :
  I3 {| numerator := {| a := [1]; sign := plus |};
        denominator := {| a := [2]; sign := plus |};
        rsign := plus |} = true
  /\ I3 Rational_default = true
  /\ @R_div_assign exact_model
       {| numerator := {| a := [1]; sign := plus |};
          denominator := {| a := [2]; sign := plus |};
          rsign := plus |}
       Rational_default
     = Some {| numerator := {| a := [1]; sign := plus |};
               denominator := {| a := [0]; sign := plus |};
               rsign := plus |}
  /\ I3 {| numerator := {| a := [1]; sign := plus |};
           denominator := {| a := [0]; sign := plus |};
           rsign := plus |} = false.
Proof. repeat split. Qed.

(** ** The invariants after every arithmetic operation *)

Lemma invariants_iff (x : BigInteger) :
  invariants x = true <-> I1 x = true /\ I2 x = true.
Proof. unfold invariants. now rewrite andb_true_iff. Qed.

Lemma canonical_invariants (x : BigInteger) :
  canonical x = true -> invariants x = true.
Proof.
  intros C. apply canonical_iff in C. destruct C as [W I].
  apply wf_iff in W. apply invariants_iff. unfold I1. tauto.
Qed.

Lemma collapse_I2 (x : BigInteger) :
  I2 (if is_zero x then set_sign x plus else x) = true.
Proof.
  destruct (is_zero x) eqn:Z; apply I2_iff; [reflexivity | congruence].
Qed.

Lemma collapse_a (x : BigInteger) :
  a (if is_zero x then set_sign x plus else x) = a x.
Proof. now destruct (is_zero x). Qed.

Lemma abs_subtract_nonempty (this small : BigInteger) (fl : bool) :
  (1 <= (if fl then size small else size this))%nat ->
  a (abs_subtract_small_from_big this small fl) <> [].
Proof.
  intros H. unfold abs_subtract_small_from_big. cbn [a].
  apply delete_trailing_zeroes_nonempty. intros C.
  apply (f_equal (@length Z)) in C.
  rewrite borrow_loop_length, subtract_groups_length, resize_length in C.
  simpl in C. lia.
Qed.

(** [operator+=] leaves no trailing zero group, whatever its argument
    holds. *)
Lemma op_add_assign_I1 (this x : BigInteger) :
  a this <> [] -> I1 (op_add_assign this x) = true.
Proof.
  intros N. unfold op_add_assign, I1. cbn [a].
  apply delete_trailing_zeroes_trimmed.
  destruct (Sign_eqb (sign this) (sign x)).
  - cbn [a]. apply add_loop_nonempty.
  - rewrite collapse_a.
    destruct (less_abs this x) eqn:L; cbn [set_sign a].
    + apply abs_subtract_nonempty. now apply less_abs_true_size in L.
    + apply abs_subtract_nonempty. unfold size.
      destruct (a this); [congruence | simpl; lia].
Qed.

Lemma op_mul_assign_invariants (F : FloatModel) (this x : BigInteger) :
  invariants (op_mul_assign this x) = true.
Proof.
  unfold op_mul_assign. apply invariants_iff. split.
  - unfold I1. rewrite collapse_a. cbn [a].
    apply delete_trailing_zeroes_trimmed. intros C.
    apply (f_equal (@length Z)) in C.
    assert (L : forall res c, length (carry_loop res c) = length res).
    { induction res as [|d res IH]; intros c; cbn [carry_loop length];
        [reflexivity | now rewrite IH]. }
    rewrite L in C. unfold fft_multiply in C.
    rewrite length_map, length_seq in C.
    destruct (fft_size_ge (size this) (size x)) as [_ G]. simpl in C. lia.
  - apply collapse_I2.
Qed.

Lemma op_div_assign_canonical (this x : BigInteger) :
  canonical this = true -> canonical x = true ->
  exists q, op_div_assign this x = Some q /\ canonical q = true.
Proof.
  intros Ct Cx.
  pose proof (canonical_wf _ Ct) as Wt. pose proof (canonical_wf _ Cx) as Wx.
  destruct (is_zero x) eqn:Zx.
  - destruct (op_div_assign_zero this x Wt Zx) as [q [E [C _]]]. eauto.
  - rewrite is_zero_mag in Zx by exact Wx. apply Z.eqb_neq in Zx.
    pose proof (mag_bound _ Wx).
    destruct (op_div_assign_spec this x Wt Wx ltac:(lia)) as [q [E [C _]]].
    eauto.
Qed.

Lemma wf_nonempty (x : BigInteger) : wf x = true -> a x <> [].
Proof. intros W. apply wf_iff in W. now apply trimmed_nonempty. Qed.

Lemma op_neg_canonical (this : BigInteger) :
  canonical this = true -> canonical (op_neg this) = true.
Proof.
  intros C. unfold op_neg. destruct (is_zero this) eqn:Z; cbn [negb]; auto.
  apply canonical_iff in C. destruct C as [W _].
  apply canonical_iff. split; [exact W|]. apply I2_iff.
  change (is_zero (set_sign this (sign_mul (sign this) minus)))
    with (is_zero this). congruence.
Qed.

Lemma op_mod_assign_canonical (F : FloatModel) (this x : BigInteger) :
  exact_upto F max_groups -> canonical this = true -> canonical x = true ->
  short this \/ short x ->
  exists r, op_mod_assign this x = Some r /\ canonical r = true.
Proof.
  intros Hexact Ct Cx Sh.
  pose proof (canonical_wf _ Ct) as Wt. pose proof (canonical_wf _ Cx) as Wx.
  destruct (is_zero x) eqn:Zx.
  - exists this. split; [now apply op_mod_assign_zero | exact Ct].
  - rewrite is_zero_mag in Zx by exact Wx. apply Z.eqb_neq in Zx.
    pose proof (mag_bound _ Wx).
    destruct (op_mod_assign_spec Hexact this x Wt Wx ltac:(lia) Sh)
      as [q [r [_ [E [_ [C _]]]]]].
    eauto.
Qed.

(** C9: applied to canonical operands, each of [+=], [-=], [*=], [/=], [%=],
    increment, decrement and unary negation returns a value that satisfies
    I1 (no trailing zero group, except the single group of zero) and I2
    (sign [plus] on zero).  The results of [+=], [-=], [/=], increment,
    decrement and negation are canonical; those of [*=] and [%=] satisfy I1
    and I2 whatever the transform returns and whatever the carry loop makes
    of it, and are canonical when the transform is exact and one operand is
    [short], so that the carry loop stays within [int]. *)
Theorem arithmetic_keeps_invariants (F : FloatModel) (this x : BigInteger) :
  canonical this = true -> canonical x = true ->
  (invariants (op_add_assign this x) = true
   /\ canonical (op_add_assign this x) = true)
  /\ (invariants (op_sub_assign this x) = true
      /\ canonical (op_sub_assign this x) = true)
  /\ (invariants (op_mul_assign this x) = true
      /\ (exact_fft F -> short this \/ short x ->
          canonical (op_mul_assign this x) = true))
  /\ (exists q, op_div_assign this x = Some q
                /\ invariants q = true /\ canonical q = true)
  /\ (exists r, op_mod_assign this x = Some r
                /\ invariants r = true
                /\ (exact_fft F -> short this \/ short x ->
                    canonical r = true))
  /\ (invariants (op_incr this) = true /\ canonical (op_incr this) = true)
  /\ (invariants (op_decr this) = true /\ canonical (op_decr this) = true)
  /\ (invariants (op_neg this) = true /\ canonical (op_neg this) = true).
Proof.
  intros Ct Cx.
  pose proof (canonical_wf _ Ct) as Wt. pose proof (canonical_wf _ Cx) as Wx.
  pose proof Ct as Ct'. apply canonical_iff in Ct'. destruct Ct' as [_ It].
  assert (Both : forall y, canonical y = true ->
                           invariants y = true /\ canonical y = true).
  { intros y Cy. split; [now apply canonical_invariants | exact Cy]. }
  assert (Add : forall y, wf y = true ->
                          canonical (op_add_assign this y) = true).
  { intros y Wy. destruct (op_add_assign_spec this y Wt Wy) as [W [_ I]].
    apply canonical_iff. auto. }
  assert (Sub : forall y, wf y = true ->
                          canonical (op_sub_assign this y) = true).
  { intros y Wy. apply Add. exact Wy. }
  split; [now apply Both, Add|]. split; [now apply Both, Sub|].
  split.
  { split; [apply op_mul_assign_invariants|].
    intros Hexact Sh.
    now apply (op_mul_assign_spec (exact_fft_upto F max_groups Hexact)). }
  split; [|split].
  - destruct (op_div_assign_canonical this x Ct Cx) as [q [E C]].
    exists q. split; [exact E | now apply Both].
  - destruct (op_div_assign_canonical this x Ct Cx) as [q [E C]].
    assert (G : exists r, op_mod_assign this x = Some r
                          /\ invariants r = true).
    { unfold op_mod_assign. rewrite E. cbn [obind]. eexists.
      split; [reflexivity|]. apply invariants_iff. split.
      - unfold I1. rewrite collapse_a. apply op_add_assign_I1.
        now apply wf_nonempty.
      - apply collapse_I2. }
    destruct G as [r [Er Ir]]. exists r. split; [exact Er|].
    split; [exact Ir|]. intros Hexact Sh.
    destruct (op_mod_assign_canonical F this x
                (exact_fft_upto F max_groups Hexact) Ct Cx Sh)
      as [r' [Er' Cr']].
    congruence.
  - split; [now apply Both, Add|]. split; [now apply Both, Sub|].
    now apply Both, op_neg_canonical.
Qed.

Lemma arithmetic_keeps_invariants_witness :
  canonical (BigInteger_of_string (str "-1000")) = true
  /\ canonical (BigInteger_of_string (str "999")) = true
  /\ (exists q, op_div_assign (BigInteger_of_string (str "-1000"))
                              (BigInteger_of_string (str "999")) = Some q
                /\ invariants q = true /\ canonical q = true)
  /\ (exists r, @op_mod_assign exact_model
                  (BigInteger_of_string (str "-1000"))
                  (BigInteger_of_string (str "999")) = Some r
                /\ invariants r = true
                /\ (exact_fft exact_model ->
                    short (BigInteger_of_string (str "-1000"))
                    \/ short (BigInteger_of_string (str "999")) ->
                    canonical r = true)).
Proof.
  split; [vm_compute; reflexivity|]. split; [vm_compute; reflexivity|].
  pose proof (arithmetic_keeps_invariants exact_model
                (BigInteger_of_string (str "-1000"))
                (BigInteger_of_string (str "999")) eq_refl eq_refl)
    as [_ [_ [_ [D [M _]]]]].
  split; [exact D | exact M].
Defined.

(** ** Commutativity of the product *)

Lemma fft_size_comm (sa sb : nat) : fft_size sa sb = fft_size sb sa.
Proof. unfold fft_size. now rewrite Nat.max_comm. Qed.

Lemma sign_mul_comm (s t : Sign) : sign_mul s t = sign_mul t s.
Proof. now destruct s, t. Qed.

Lemma fft_multiply_comm (F : FloatModel) (x y : list Z) (n : nat) :
  (forall u v : complex, c_mul u v = c_mul v u) ->
  fft_multiply x y n = fft_multiply y x n.
Proof.
  intros Hcomm. unfold fft_multiply.
  set (fa := FFT (resize n c_zero (map c_of_int x)) false).
  set (fb := FFT (resize n c_zero (map c_of_int y)) false).
  assert (E : map (fun i => c_mul (nth i fa c_zero) (nth i fb c_zero))
                  (seq 0 n)
              = map (fun i => c_mul (nth i fb c_zero) (nth i fa c_zero))
                    (seq 0 n)).
  { apply map_ext. intros i. apply Hcomm. }
  now rewrite E.
Qed.

(** C8: the product is symmetric in its operands, [x * y == y * x]: the
    padded length, the pointwise product of the two transforms and the sign
    rule (with its collapse on zero) are.  The one fact used of the
    floating-point arithmetic is that the product of two complex numbers
    commutes. *)
Theorem multiplication_commutes (F : FloatModel) (x y : BigInteger) :
  (forall u v : complex, c_mul u v = c_mul v u) ->
  op_mul x y = op_mul y x /\ op_eq (op_mul x y) (op_mul y x) = true.
Proof.
  intros Hcomm.
  assert (E : op_mul x y = op_mul y x).
  { unfold op_mul, op_mul_assign.
    rewrite (fft_size_comm (size x) (size y)).
    rewrite (fft_multiply_comm F (a x) (a y) _ Hcomm).
    now rewrite (sign_mul_comm (sign x) (sign y)). }
  split; [exact E|]. now apply op_eq_spec.
Qed.

Lemma multiplication_commutes_witness :
  (forall u v : Z, u * v = v * u)
  /\ @op_mul exact_model (BigInteger_of_string (str "-123456789"))
                         (BigInteger_of_string (str "987654321"))
     = @op_mul exact_model (BigInteger_of_string (str "987654321"))
                           (BigInteger_of_string (str "-123456789"))
  /\ op_eq (@op_mul exact_model (BigInteger_of_string (str "-123456789"))
                                (BigInteger_of_string (str "987654321")))
           (@op_mul exact_model (BigInteger_of_string (str "987654321"))
                                (BigInteger_of_string (str "-123456789")))
     = true.
Proof.
  split; [exact Z.mul_comm|].
  apply (multiplication_commutes exact_model). exact Z.mul_comm.
Defined.

(** ** Formatting a parsed literal *)

Lemma window_number_bound (s : list ascii) :
  forallb is_digit s = true ->
  0 <= window_number s < 10 ^ Z.of_nat (length s).
Proof.
  induction s as [|c s IH]; intros H.
  - cbn. lia.
  - cbn [forallb] in H. apply andb_true_iff in H. destruct H as [Hc Hs].
    apply is_digit_iff in Hc. specialize (IH Hs).
    rewrite window_number_cons. cbn [length].
    rewrite Nat2Z.inj_succ, Z.pow_succ_r by lia. nia.
Qed.

Lemma digit_of_inj (c d : ascii) : digit_of c = digit_of d -> c = d.
Proof.
  unfold digit_of. intros H.
  rewrite <- (ascii_nat_embedding c), <- (ascii_nat_embedding d).
  f_equal. lia.
Qed.

Lemma window_number_inj (s t : list ascii) :
  forallb is_digit s = true -> forallb is_digit t = true ->
  length s = length t -> window_number s = window_number t -> s = t.
Proof.
  revert t. induction s as [|c s IH]; intros [|d t] Hs Ht Hlen Hw;
    try discriminate; [reflexivity|].
  cbn [forallb] in Hs, Ht. apply andb_true_iff in Hs, Ht.
  destruct Hs as [Hc Hs], Ht as [Hd Ht]. injection Hlen as Hlen.
  rewrite !window_number_cons, Hlen in Hw.
  pose proof (window_number_bound s Hs) as Bs.
  pose proof (window_number_bound t Ht) as Bt. rewrite Hlen in Bs.
  apply is_digit_iff in Hc, Hd.
  assert (E : digit_of c = digit_of d) by nia.
  f_equal; [now apply digit_of_inj|]. apply IH; auto. nia.
Qed.

Lemma stripped_lower (s : list ascii) :
  forallb is_digit s = true -> strip_leading s = s -> (2 <= length s)%nat ->
  10 ^ Z.of_nat (length s - 1) <= window_number s.
Proof.
  destruct s as [|c [|c' s]]; cbn [length]; try lia.
  intros H St _.
  rewrite strip_leading_cons in St.
  cbn [forallb] in H. apply andb_true_iff in H. destruct H as [Hc Hs].
  destruct (Ascii.eqb_spec c "0"%char) as [->|N].
  - exfalso. apply (f_equal (@length ascii)) in St.
    assert (L : forall u, (length (strip_leading u) <= length u)%nat).
    { induction u as [|x u IHu]; [simpl; lia|].
      destruct u as [|y u]; [simpl; lia|].
      rewrite strip_leading_cons.
      destruct (Ascii.eqb x "0"); cbn [length] in *; lia. }
    specialize (L (c' :: s)). cbn [length] in *. lia.
  - assert (1 <= digit_of c).
    { apply is_digit_iff in Hc.
      assert (digit_of c <> 0).
      { intros E. apply N. apply digit_of_inj. exact E. }
      lia. }
    pose proof (window_number_bound (c' :: s) Hs) as B.
    rewrite window_number_cons.
    replace (S (S (length s)) - 1)%nat with (length (c' :: s))
      by (cbn [length]; lia).
    nia.
Qed.

Lemma stripped_unique (s t : list ascii) :
  valid_body s = true -> valid_body t = true ->
  strip_leading s = s -> strip_leading t = t ->
  window_number s = window_number t -> s = t.
Proof.
  intros Vs Vt Ss St E.
  apply valid_body_iff in Vs, Vt. destruct Vs as [Ns Ds], Vt as [Nt Dt].
  assert (Len : forall u v,
             u <> [] -> forallb is_digit u = true ->
             forallb is_digit v = true -> strip_leading v = v ->
             window_number v <= window_number u ->
             (length v <= length u)%nat).
  { intros u v Nu Du Dv Sv Le.
    destruct (Nat.le_gt_cases (length v) (length u)) as [|Gt]; [assumption|].
    exfalso.
    assert (1 <= length u)%nat by (destruct u; [congruence | simpl; lia]).
    pose proof (stripped_lower v Dv Sv ltac:(lia)) as Lo.
    pose proof (window_number_bound u Du) as Up.
    assert (10 ^ Z.of_nat (length u) <= 10 ^ Z.of_nat (length v - 1))
      by (apply Z.pow_le_mono_r; lia).
    lia. }
  apply window_number_inj; auto.
  apply Nat.le_antisymm; apply Len; auto; lia.
Qed.

(** What [toString] returns on a freshly parsed literal: the digits without
    their leading zeros, and the sign character of the literal whenever there
    was one. *)
Lemma toString_parse (s : list ascii) :
  valid_decimal s = true ->
  toString (BigInteger_of_string s)
  = Some (match s with
          | "-"%char :: body => "-"%char :: strip_leading body
          | _ => strip_leading s
          end).
Proof.
  intros V.
  assert (G : forall body sg,
             valid_body body = true ->
             toString {| a := delete_trailing_zeroes (parse_groups (rev body));
                         sign := sg |}
             = Some (match sg with
                     | minus => "-"%char :: strip_leading body
                     | plus => strip_leading body
                     end)).
  { intros body sg Vb.
    destruct (parse_body_spec body sg Vb) as [W M]. cbv zeta in W, M.
    destruct (toString_spec _ W) as [b' [E [Vb' [Wn St]]]].
    cbn [sign] in E. rewrite E. rewrite M in Wn.
    destruct (strip_leading_spec body Vb) as [Vs Ws].
    assert (b' = strip_leading body).
    { apply stripped_unique; auto; [apply strip_leading_idem | congruence]. }
    now subst. }
  destruct s as [|c body]; [discriminate|].
  destruct (Ascii.eqb_spec c "-"%char) as [->|N].
  - cbn [valid_decimal] in V. rewrite parse_minus. now apply G.
  - assert (Vb : valid_body (c :: body) = true).
    { destruct c as [[] [] [] [] [] [] [] []]; try exact V. congruence. }
    rewrite (parse_plus _ Vb), (G _ plus Vb).
    destruct c as [[] [] [] [] [] [] [] []]; try reflexivity. congruence.
Qed.

(** The claim of the specification holds on every valid literal that is not
    a zero written with a sign. *)
Lemma toString_parse_canonical_form (s : list ascii) :
  valid_decimal s = true ->
  (forall body, s = "-"%char :: body -> window_number body <> 0) ->
  toString (BigInteger_of_string s) = Some (canonical_form s).
Proof.
  intros V NZ. rewrite (toString_parse s V). f_equal.
  destruct s as [|c body]; [reflexivity|].
  destruct (Ascii.eqb_spec c "-"%char) as [->|N].
  - cbn [canonical_form valid_decimal] in *.
    specialize (NZ body eq_refl).
    destruct (strip_leading_spec body V) as [Vs Ws].
    destruct (forallb (fun c => Ascii.eqb c "0") (strip_leading body)) eqn:A;
      [|reflexivity].
    exfalso. apply NZ. rewrite <- Ws.
    clear - A. induction (strip_leading body) as [|c u IH]; [reflexivity|].
    cbn [forallb] in A. apply andb_true_iff in A. destruct A as [A1 A2].
    apply Ascii.eqb_eq in A1. subst c.
    rewrite window_number_cons, (IH A2). change (digit_of "0") with 0. lia.
  - destruct c as [[] [] [] [] [] [] [] []]; try reflexivity. congruence.
Qed.

(** C4 fails on a zero written with a sign: the parse constructor keeps the
    sign [minus] on the magnitude zero, so the value is not canonical, it is
    formatted as ["-0"] where the canonical form is ["0"], and it compares
    different from the zero parsed from ["0"]. *)
Theorem parse_keeps_sign_of_zero :
  valid_decimal (str "-0") = true
  /\ BigInteger_of_string (str "-0") = {| a := [0]; sign := minus |}
  /\ I2 (BigInteger_of_string (str "-0")) = false
  /\ toString (BigInteger_of_string (str "-0")) = Some (str "-0")
  /\ canonical_form (str "-0") = str "0"
  /\ op_eq (BigInteger_of_string (str "-0")) (BigInteger_of_string (str "0"))
     = false.
Proof. repeat split. Qed.

(** * Further properties of the interface *)

(** ** The order on [BigInteger] *)

Lemma lt_from_top_plus (p q : list Z) :
  lt_from_top false p q = less_from_top p q.
Proof.
  revert q. induction p as [|x p IH]; intros [|y q]; try reflexivity.
  cbn [lt_from_top less_from_top]. rewrite IH. now destruct (x =? y).
Qed.

Lemma lt_from_top_minus (p q : list Z) :
  length p = length q -> lt_from_top true p q = less_from_top q p.
Proof.
  revert q. induction p as [|x p IH]; intros [|y q] L; try discriminate;
    [reflexivity|].
  injection L as L. cbn [lt_from_top less_from_top]. rewrite (Z.eqb_sym y x).
  destruct (Z.eqb_spec x y) as [E|N]; cbn [negb xorb]; [now apply IH|].
  destruct (Z.ltb_spec x y), (Z.ltb_spec y x); cbn [negb]; try reflexivity;
    lia.
Qed.

Lemma canonical_minus_nonzero (x : BigInteger) :
  canonical x = true -> sign x = minus -> 0 < mag x.
Proof.
  intros C S. apply canonical_iff in C. destruct C as [W I].
  pose proof (mag_bound _ W). destruct (Z.eq_dec (mag x) 0) as [Z0|]; [|lia].
  pose proof (proj1 (I2_iff x) I) as J.
  rewrite is_zero_mag, Z0 in J by exact W. specialize (J eq_refl). congruence.
Qed.

Lemma op_lt_spec (x y : BigInteger) :
  canonical x = true -> canonical y = true -> op_lt x y = (val x <? val y).
Proof.
  intros Cx Cy.
  pose proof (canonical_wf _ Cx) as Wx. pose proof (canonical_wf _ Cy) as Wy.
  pose proof (mag_bound _ Wx) as Bx. pose proof (mag_bound _ Wy) as By.
  pose proof (less_abs_spec x y Wx Wy) as Lxy.
  pose proof (less_abs_spec y x Wy Wx) as Lyx.
  unfold less_abs in Lxy, Lyx. rewrite (Nat.eqb_sym (size y)) in Lyx.
  unfold op_lt. rewrite !val_sign.
  destruct (sign x) eqn:Sx, (sign y) eqn:Sy;
    cbn [Sign_eqb negb Sign_ltb xorb rsign_Z].
  - (* both non-negative *)
    rewrite lt_from_top_plus, !Z.mul_1_l.
    destruct (size x =? size y)%nat; cbn [negb] in *; exact Lxy.
  - pose proof (canonical_minus_nonzero y Cy Sy).
    symmetry. apply Z.ltb_ge. lia.
  - pose proof (canonical_minus_nonzero x Cx Sx).
    symmetry. apply Z.ltb_lt. lia.
  - (* both negative *)
    replace (-1 * mag x <? -1 * mag y) with (mag y <? mag x)
      by (destruct (Z.ltb_spec (mag y) (mag x)); symmetry;
          [apply Z.ltb_lt | apply Z.ltb_ge]; lia).
    destruct (Nat.eqb_spec (size x) (size y)) as [E|N]; cbn [negb] in *.
    + rewrite lt_from_top_minus by (rewrite !length_rev; exact E).
      exact Lyx.
    + rewrite <- Lyx.
      destruct (Nat.ltb_spec (size x) (size y)),
               (Nat.ltb_spec (size y) (size x)); cbn [negb]; try reflexivity;
        lia.
Qed.

Lemma op_eq_val (x y : BigInteger) :
  canonical x = true -> canonical y = true -> op_eq x y = (val x =? val y).
Proof.
  intros Cx Cy. destruct (Z.eqb_spec (val x) (val y)) as [E|N].
  - apply op_eq_spec. now apply canonical_unique.
  - destruct (op_eq x y) eqn:Q; [|reflexivity].
    apply op_eq_spec in Q. congruence.
Qed.

(** The six comparison operators of [BigInteger] decide the corresponding
    relations between the integers their canonical operands denote. *)
Theorem comparisons_decide_order (x y : BigInteger) :
  canonical x = true -> canonical y = true ->
  op_lt x y = (val x <? val y)
  /\ op_gt x y = (val y <? val x)
  /\ op_le x y = (val x <=? val y)
  /\ op_ge x y = (val y <=? val x)
  /\ op_eq x y = (val x =? val y)
  /\ op_ne x y = negb (val x =? val y).
Proof.
  intros Cx Cy. unfold op_gt, op_le, op_ge, op_ne.
  rewrite (op_lt_spec x y Cx Cy), (op_lt_spec y x Cy Cx), (op_eq_val x y Cx Cy).
  repeat split; try reflexivity.
  - rewrite Z.leb_antisym. reflexivity.
  - rewrite Z.leb_antisym. reflexivity.
Qed.

Lemma comparisons_decide_order_witness :
  canonical (BigInteger_of_string (str "-1205")) = true
  /\ canonical (BigInteger_of_string (str "-34")) = true
  /\ op_lt (BigInteger_of_string (str "-1205")) (BigInteger_of_string (str "-34"))
     = (val (BigInteger_of_string (str "-1205"))
        <? val (BigInteger_of_string (str "-34")))
  /\ op_gt (BigInteger_of_string (str "-1205")) (BigInteger_of_string (str "-34"))
     = (val (BigInteger_of_string (str "-34"))
        <? val (BigInteger_of_string (str "-1205")))
  /\ op_le (BigInteger_of_string (str "-1205")) (BigInteger_of_string (str "-34"))
     = (val (BigInteger_of_string (str "-1205"))
        <=? val (BigInteger_of_string (str "-34")))
  /\ op_ge (BigInteger_of_string (str "-1205")) (BigInteger_of_string (str "-34"))
     = (val (BigInteger_of_string (str "-34"))
        <=? val (BigInteger_of_string (str "-1205")))
  /\ op_eq (BigInteger_of_string (str "-1205")) (BigInteger_of_string (str "-34"))
     = (val (BigInteger_of_string (str "-1205"))
        =? val (BigInteger_of_string (str "-34")))
  /\ op_ne (BigInteger_of_string (str "-1205")) (BigInteger_of_string (str "-34"))
     = negb (val (BigInteger_of_string (str "-1205"))
             =? val (BigInteger_of_string (str "-34"))).
Proof.
  split; [reflexivity|]. split; [reflexivity|].
  apply comparisons_decide_order; reflexivity.
Defined.

(** ** The values of sums, differences and products *)

Lemma op_add_canonical (x y : BigInteger) :
  canonical x = true -> wf y = true ->
  canonical (op_add_assign x y) = true
  /\ val (op_add_assign x y) = val x + val y.
Proof.
  intros Cx Wy. apply canonical_iff in Cx. destruct Cx as [Wx Ix].
  destruct (op_add_assign_spec x y Wx Wy) as [W [V I]].
  split; [apply canonical_iff; auto | exact V].
Qed.

Lemma op_sub_canonical (x y : BigInteger) :
  canonical x = true -> wf y = true ->
  canonical (op_sub_assign x y) = true
  /\ val (op_sub_assign x y) = val x - val y.
Proof.
  intros Cx Wy. apply canonical_iff in Cx. destruct Cx as [Wx Ix].
  destruct (op_sub_assign_spec x y Wx Wy) as [W [V I]].
  split; [apply canonical_iff; auto | exact V].
Qed.

(** [operator+] and [operator-] return the canonical representation of the
    sum and of the difference of the integers their canonical operands
    denote. *)
Theorem sum_and_difference (x y : BigInteger) :
  canonical x = true -> canonical y = true ->
  canonical (op_add x y) = true /\ val (op_add x y) = val x + val y
  /\ canonical (op_sub x y) = true /\ val (op_sub x y) = val x - val y.
Proof.
  intros Cx Cy. pose proof (canonical_wf _ Cy) as Wy. unfold op_add, op_sub.
  destruct (op_add_canonical x y Cx Wy) as [C1 V1].
  destruct (op_sub_canonical x y Cx Wy) as [C2 V2]. auto.
Qed.

Lemma sum_and_difference_witness :
  canonical (BigInteger_of_string (str "999")) = true
  /\ canonical (BigInteger_of_string (str "-1000")) = true
  /\ canonical (op_add (BigInteger_of_string (str "999"))
                       (BigInteger_of_string (str "-1000"))) = true
  /\ val (op_add (BigInteger_of_string (str "999"))
                 (BigInteger_of_string (str "-1000")))
     = val (BigInteger_of_string (str "999"))
       + val (BigInteger_of_string (str "-1000"))
  /\ canonical (op_sub (BigInteger_of_string (str "999"))
                       (BigInteger_of_string (str "-1000"))) = true
  /\ val (op_sub (BigInteger_of_string (str "999"))
                 (BigInteger_of_string (str "-1000")))
     = val (BigInteger_of_string (str "999"))
       - val (BigInteger_of_string (str "-1000")).
Proof.
  split; [reflexivity|]. split; [reflexivity|].
  apply sum_and_difference; reflexivity.
Defined.

Lemma val_op_neg (x : BigInteger) :
  canonical x = true -> val (op_neg x) = - val x.
Proof.
  intros C. unfold op_neg. destruct (is_zero x) eqn:Z0; cbn [negb].
  - rewrite is_zero_val in Z0 by (now apply canonical_wf).
    apply Z.eqb_eq in Z0. lia.
  - apply val_negated.
Qed.

(** Unary minus returns the canonical representation of the opposite
    integer; applied twice it gives its operand back, and a value added to
    its opposite is the zero of the default constructor. *)
Theorem negation_is_opposite (x : BigInteger) :
  canonical x = true ->
  canonical (op_neg x) = true
  /\ val (op_neg x) = - val x
  /\ op_neg (op_neg x) = x
  /\ op_add x (op_neg x) = BigInteger_default.
Proof.
  intros C. pose proof (op_neg_canonical x C) as Cn.
  pose proof (val_op_neg x C) as Vn.
  split; [exact Cn|]. split; [exact Vn|]. split.
  - apply canonical_unique; auto.
    + now apply op_neg_canonical.
    + rewrite val_op_neg by exact Cn. lia.
  - destruct (op_add_canonical x (op_neg x) C (canonical_wf _ Cn)) as [Ca Va].
    unfold op_add. apply canonical_unique; auto. rewrite Va, Vn.
    change (val BigInteger_default) with 0. lia.
Qed.

Lemma negation_is_opposite_witness :
  canonical (BigInteger_of_string (str "-12345")) = true
  /\ canonical (op_neg (BigInteger_of_string (str "-12345"))) = true
  /\ val (op_neg (BigInteger_of_string (str "-12345")))
     = - val (BigInteger_of_string (str "-12345"))
  /\ op_neg (op_neg (BigInteger_of_string (str "-12345")))
     = BigInteger_of_string (str "-12345")
  /\ op_add (BigInteger_of_string (str "-12345"))
            (op_neg (BigInteger_of_string (str "-12345")))
     = BigInteger_default.
Proof.
  split; [reflexivity|]. apply negation_is_opposite. reflexivity.
Defined.

(** Increment and decrement add and subtract one, keep the canonical form
    and undo each other; the postfix forms return the value before the
    update. *)
Theorem increment_and_decrement (x : BigInteger) :
  canonical x = true ->
  canonical (op_incr x) = true /\ val (op_incr x) = val x + 1
  /\ canonical (op_decr x) = true /\ val (op_decr x) = val x - 1
  /\ op_decr (op_incr x) = x /\ op_incr (op_decr x) = x
  /\ op_post_incr x = (x, op_incr x) /\ op_post_decr x = (x, op_decr x).
Proof.
  intros C. unfold op_incr, op_decr.
  destruct (op_add_canonical x BigInteger_one C eq_refl) as [Ci Vi].
  destruct (op_sub_canonical x BigInteger_one C eq_refl) as [Cd Vd].
  change (val BigInteger_one) with 1 in Vi, Vd.
  split; [exact Ci|]. split; [exact Vi|].
  split; [exact Cd|]. split; [exact Vd|].
  split; [|split; [|split; reflexivity]].
  - destruct (op_sub_canonical _ BigInteger_one Ci eq_refl) as [C' V'].
    apply canonical_unique; auto. rewrite V', Vi.
    change (val BigInteger_one) with 1. lia.
  - destruct (op_add_canonical _ BigInteger_one Cd eq_refl) as [C' V'].
    apply canonical_unique; auto. rewrite V', Vd.
    change (val BigInteger_one) with 1. lia.
Qed.

Lemma increment_and_decrement_witness :
  canonical (BigInteger_of_string (str "-1")) = true
  /\ canonical (op_incr (BigInteger_of_string (str "-1"))) = true
  /\ val (op_incr (BigInteger_of_string (str "-1")))
     = val (BigInteger_of_string (str "-1")) + 1
  /\ canonical (op_decr (BigInteger_of_string (str "-1"))) = true
  /\ val (op_decr (BigInteger_of_string (str "-1")))
     = val (BigInteger_of_string (str "-1")) - 1
  /\ op_decr (op_incr (BigInteger_of_string (str "-1")))
     = BigInteger_of_string (str "-1")
  /\ op_incr (op_decr (BigInteger_of_string (str "-1")))
     = BigInteger_of_string (str "-1")
  /\ op_post_incr (BigInteger_of_string (str "-1"))
     = (BigInteger_of_string (str "-1"),
        op_incr (BigInteger_of_string (str "-1")))
  /\ op_post_decr (BigInteger_of_string (str "-1"))
     = (BigInteger_of_string (str "-1"),
        op_decr (BigInteger_of_string (str "-1"))).
Proof.
  split; [reflexivity|]. apply increment_and_decrement. reflexivity.
Defined.

(** [operator*] on canonical operands of which one is [short], when the
    transform is exact up to that length: the result is the canonical
    representation of the product of the integers the operands denote.
    Between [short] outer operands the product is therefore associative,
    and it distributes over [operator+]. *)
Theorem product_value (F : FloatModel) (Hexact : exact_upto F max_groups)
    (x y z : BigInteger) :
  canonical x = true -> canonical y = true -> canonical z = true ->
  short x \/ short y ->
  canonical (op_mul x y) = true
  /\ val (op_mul x y) = val x * val y
  /\ (short x -> short z ->
      op_mul (op_mul x y) z = op_mul x (op_mul y z)
      /\ op_mul x (op_add y z) = op_add (op_mul x y) (op_mul x z)).
Proof.
  intros Cx Cy Cz Sxy. unfold op_mul, op_add.
  pose proof (canonical_wf _ Cx) as Wx. pose proof (canonical_wf _ Cy) as Wy.
  pose proof (canonical_wf _ Cz) as Wz.
  destruct (op_mul_assign_spec Hexact x y Wx Wy Sxy) as [Cxy Vxy].
  split; [exact Cxy|]. split; [exact Vxy|]. intros Sx Sz.
  destruct (op_mul_assign_spec Hexact y z Wy Wz (or_intror Sz)) as [Cyz Vyz].
  destruct (op_mul_assign_spec Hexact x z Wx Wz (or_introl Sx)) as [Cxz Vxz].
  destruct (op_add_canonical y z Cy Wz) as [Cs Vs].
  split.
  - destruct (op_mul_assign_spec Hexact _ z (canonical_wf _ Cxy) Wz
                (or_intror Sz)) as [C1 V1].
    destruct (op_mul_assign_spec Hexact x _ Wx (canonical_wf _ Cyz)
                (or_introl Sx)) as [C2 V2].
    apply canonical_unique; auto. rewrite V1, V2, Vxy, Vyz. ring.
  - destruct (op_mul_assign_spec Hexact x _ Wx (canonical_wf _ Cs)
                (or_introl Sx)) as [C1 V1].
    destruct (op_add_canonical _ _ Cxy (canonical_wf _ Cxz)) as [C2 V2].
    apply canonical_unique; auto. rewrite V1, V2, Vs, Vxy, Vxz. ring.
Qed.

Lemma product_value_witness :
  canonical (BigInteger_of_string (str "-123456789")) = true
  /\ canonical (BigInteger_of_string (str "987654321")) = true
  /\ canonical (BigInteger_of_string (str "-5")) = true
  /\ (short (BigInteger_of_string (str "-123456789"))
      \/ short (BigInteger_of_string (str "987654321")))
  /\ canonical (@op_mul exact_model (BigInteger_of_string (str "-123456789"))
                  (BigInteger_of_string (str "987654321"))) = true
  /\ val (@op_mul exact_model (BigInteger_of_string (str "-123456789"))
            (BigInteger_of_string (str "987654321")))
     = val (BigInteger_of_string (str "-123456789"))
       * val (BigInteger_of_string (str "987654321"))
  /\ (short (BigInteger_of_string (str "-123456789")) ->
      short (BigInteger_of_string (str "-5")) ->
      @op_mul exact_model
        (@op_mul exact_model (BigInteger_of_string (str "-123456789"))
           (BigInteger_of_string (str "987654321")))
        (BigInteger_of_string (str "-5"))
      = @op_mul exact_model (BigInteger_of_string (str "-123456789"))
          (@op_mul exact_model (BigInteger_of_string (str "987654321"))
             (BigInteger_of_string (str "-5")))
      /\ @op_mul exact_model (BigInteger_of_string (str "-123456789"))
           (op_add (BigInteger_of_string (str "987654321"))
                   (BigInteger_of_string (str "-5")))
         = op_add
             (@op_mul exact_model (BigInteger_of_string (str "-123456789"))
                (BigInteger_of_string (str "987654321")))
             (@op_mul exact_model (BigInteger_of_string (str "-123456789"))
                (BigInteger_of_string (str "-5")))).
Proof.
  assert (S : short (BigInteger_of_string (str "-123456789"))
              \/ short (BigInteger_of_string (str "987654321"))).
  { left. vm_compute. discriminate. }
  split; [reflexivity|]. split; [reflexivity|]. split; [reflexivity|].
  split; [exact S|].
  apply (product_value exact_model
           (exact_fft_upto exact_model max_groups exact_model_exact));
    try reflexivity.
  exact S.
Defined.

(** ** Literals and values *)

Lemma unsigned_literal (s : list ascii) :
  valid_body s = true ->
  valid_decimal s = true
  /\ canonical_form s = strip_leading s
  /\ literal_value s = window_number s.
Proof.
  intros V. pose proof V as V'. apply valid_body_iff in V'.
  destruct V' as [N D]. destruct s as [|c s]; [congruence|].
  cbn [forallb] in D. apply andb_true_iff in D. destruct D as [Dc _].
  apply is_digit_not_minus in Dc.
  destruct c as [[] [] [] [] [] [] [] []];
    try (split; [exact V | split; reflexivity]).
  congruence.
Qed.

Lemma all_zeros_number (u : list ascii) :
  forallb (fun c => Ascii.eqb c "0") u = true -> window_number u = 0.
Proof.
  induction u as [|c u IH]; intros A; [reflexivity|].
  cbn [forallb] in A. apply andb_true_iff in A. destruct A as [A1 A2].
  apply Ascii.eqb_eq in A1. subst c.
  rewrite window_number_cons, (IH A2). change (digit_of "0") with 0. lia.
Qed.

(** The parse constructor, on every valid decimal literal: the groups lie in
    range with no trailing zero group, the value is the integer the literal
    denotes, and the result is canonical except for a zero written with a
    sign. *)
Theorem parse_value (s : list ascii) :
  valid_decimal s = true ->
  wf (BigInteger_of_string s) = true
  /\ val (BigInteger_of_string s) = literal_value s
  /\ canonical (BigInteger_of_string s)
     = match s with
       | "-"%char :: body => negb (window_number body =? 0)
       | _ => true
       end.
Proof.
  intros V. destruct s as [|c body]; [discriminate|].
  destruct (Ascii.eqb_spec c "-"%char) as [->|N].
  - cbn [valid_decimal literal_value] in *. rewrite parse_minus.
    destruct (parse_body_spec body minus V) as [W M]. cbv zeta in W, M.
    split; [exact W|]. split.
    + rewrite val_sign, M. cbn [sign rsign_Z]. lia.
    + unfold canonical. rewrite W. cbn [andb]. unfold I2.
      rewrite is_zero_mag, M by exact W. cbn [sign Sign_eqb].
      now destruct (window_number body =? 0).
  - assert (Vb : valid_body (c :: body) = true).
    { destruct c as [[] [] [] [] [] [] [] []]; try exact V. congruence. }
    destruct (unsigned_literal _ Vb) as [_ [_ L]]. rewrite L.
    rewrite (parse_plus _ Vb).
    destruct (parse_body_spec (c :: body) plus Vb) as [W M].
    cbv zeta in W, M. split; [exact W|]. split.
    + rewrite val_sign, M. cbn [sign rsign_Z]. lia.
    + assert (C : canonical
                    {| a := delete_trailing_zeroes
                              (parse_groups (rev (c :: body)));
                       sign := plus |} = true).
      { apply canonical_iff. split; [exact W|]. now apply I2_iff. }
      rewrite C.
      destruct c as [[] [] [] [] [] [] [] []]; try reflexivity. congruence.
Qed.

Lemma parse_value_witness :
  valid_decimal (str "-000120") = true
  /\ wf (BigInteger_of_string (str "-000120")) = true
  /\ val (BigInteger_of_string (str "-000120")) = literal_value (str "-000120")
  /\ canonical (BigInteger_of_string (str "-000120"))
     = negb (window_number (str "000120") =? 0).
Proof.
  split; [reflexivity|]. apply (parse_value (str "-000120")). reflexivity.
Defined.

(** [toString] of a canonical value is a valid decimal literal in canonical
    form (no leading zero, no sign on zero) that denotes the value. *)
Theorem toString_is_canonical_literal (x : BigInteger) :
  canonical x = true ->
  exists s, toString x = Some s
            /\ valid_decimal s = true
            /\ canonical_form s = s
            /\ literal_value s = val x.
Proof.
  intros C. pose proof (canonical_wf _ C) as W.
  destruct (toString_spec x W) as [body [E [Vb [Wn St]]]].
  eexists. split; [exact E|]. rewrite val_sign.
  destruct (sign x) eqn:S; cbn [rsign_Z].
  - destruct (unsigned_literal body Vb) as [V [Cf L]].
    split; [exact V|]. split; [congruence | lia].
  - pose proof (canonical_minus_nonzero x C S) as P.
    cbn [valid_decimal canonical_form literal_value]. rewrite St.
    split; [exact Vb|]. split; [|lia].
    destruct (forallb (fun c => Ascii.eqb c "0") body) eqn:A; [|reflexivity].
    apply all_zeros_number in A. lia.
Qed.

Lemma toString_is_canonical_literal_witness :
  canonical (BigInteger_of_string (str "-1002003")) = true
  /\ exists s, toString (BigInteger_of_string (str "-1002003")) = Some s
               /\ valid_decimal s = true
               /\ canonical_form s = s
               /\ literal_value s = val (BigInteger_of_string (str "-1002003")).
Proof.
  split; [reflexivity|]. apply toString_is_canonical_literal. reflexivity.
Defined.

(** ** The greatest common divisor, for operands of any sign *)

Section GcdAnySign.
Context {F : FloatModel}.
Hypothesis Hexact : exact_upto F max_groups.

Lemma gcd_loop_stop (fuel : nat) (x y : BigInteger) :
  canonical x = true -> canonical y = true -> val y = 0 -> (1 <= fuel)%nat ->
  exists g, gcd_loop fuel x y = Some g
            /\ canonical g = true
            /\ Z.abs (val g) = Z.gcd (val x) (val y).
Proof.
  intros Cx Cy Zy Hf. destruct fuel as [|fuel]; [lia|].
  cbn [gcd_loop]. rewrite is_zero_val by (now apply canonical_wf).
  rewrite Zy. cbn [Z.eqb negb]. exists x. split; [reflexivity|].
  split; [exact Cx|]. now rewrite Z.gcd_0_r.
Qed.

Lemma gcd_loop_step (fuel : nat) (x y : BigInteger) :
  canonical x = true -> canonical y = true -> val y <> 0 ->
  short x \/ short y ->
  exists r, gcd_loop (S fuel) x y = gcd_loop fuel y r
            /\ canonical r = true
            /\ val r = Z.rem (val x) (val y)
            /\ Z.gcd (val y) (val r) = Z.gcd (val x) (val y)
            /\ short r.
Proof.
  intros Cx Cy Ny Sh.
  pose proof (canonical_wf _ Cx) as Wx. pose proof (canonical_wf _ Cy) as Wy.
  assert (My : 0 < mag y).
  { pose proof (mag_bound _ Wy). rewrite val_sign in Ny.
    destruct (sign y); cbn [rsign_Z] in Ny; lia. }
  destruct (op_mod_assign_spec Hexact x y Wx Wy My Sh)
    as [q [r [_ [Er [_ [Cr [_ Vr]]]]]]].
  exists r. cbn [gcd_loop]. rewrite is_zero_val by exact Wy.
  destruct (Z.eqb_spec (val y) 0); [lia|]. cbn [negb].
  rewrite Er. cbn [obind]. split; [reflexivity|]. split; [exact Cr|].
  split; [exact Vr|]. split.
  - rewrite Vr.
    replace (Z.rem (val x) (val y))
      with (val x + (- Z.quot (val x) (val y)) * val y)
      by (pose proof (Z.quot_rem' (val x) (val y)); lia).
    rewrite Z.gcd_add_mult_diag_r. apply Z.gcd_comm.
  - apply (short_remainder r x y); auto using canonical_wf.
Qed.

Lemma gcd_loop_signed (k : nat) :
  forall (fuel : nat) (x y : BigInteger),
    canonical x = true -> canonical y = true ->
    Z.abs (val y) < 2 ^ Z.of_nat k -> (2 * k + 1 <= fuel)%nat ->
    short x \/ short y ->
    exists g, gcd_loop fuel x y = Some g
              /\ canonical g = true
              /\ Z.abs (val g) = Z.gcd (val x) (val y).
Proof.
  induction k as [|k IH]; intros fuel x y Cx Cy Py Hf Sh.
  - apply gcd_loop_stop; auto; lia.
  - destruct (Z.eq_dec (val y) 0) as [Zy|Ny]; [apply gcd_loop_stop; auto; lia|].
    destruct fuel as [|[|fuel]]; try lia.
    destruct (gcd_loop_step (S fuel) x y Cx Cy Ny Sh)
      as [r1 [E1 [C1 [V1 [G1 S1]]]]].
    pose proof (Z.rem_bound_abs (val x) (val y) Ny) as B1.
    rewrite <- V1 in B1. rewrite E1.
    destruct (Z.eq_dec (val r1) 0) as [Z1|N1].
    + destruct (gcd_loop_stop (S fuel) y r1 Cy C1 Z1 ltac:(lia))
        as [g [Eg [Cg Vg]]].
      exists g. rewrite Eg. repeat split; auto. congruence.
    + destruct (gcd_loop_step fuel y r1 Cy C1 N1 (or_intror S1))
        as [r2 [E2 [C2 [V2 [G2 S2]]]]].
      rewrite E2.
      assert (Half : 2 * Z.abs (val r2) < Z.abs (val y)).
      { rewrite V2, <- Z.rem_abs by exact N1.
        rewrite Z.rem_mod_nonneg by lia.
        pose proof (Z.div_mod (Z.abs (val y)) (Z.abs (val r1)) ltac:(lia))
          as Dm.
        pose proof (Z.mod_pos_bound (Z.abs (val y)) (Z.abs (val r1))
                      ltac:(lia)) as Bm.
        assert (1 <= Z.abs (val y) / Z.abs (val r1)).
        { apply Z.div_le_lower_bound; lia. }
        nia. }
      rewrite Nat2Z.inj_succ, Z.pow_succ_r in Py by lia.
      destruct (IH fuel r1 r2 C1 C2 ltac:(lia) ltac:(lia) (or_introl S1))
        as [g [Eg [Cg Vg]]].
      exists g. rewrite Eg. repeat split; auto. congruence.
Qed.

End GcdAnySign.

(** [gcd] on canonical operands of any sign, of which one is [short], when
    the transform is exact up to that length: the loop ends within its fuel
    and returns, in canonical form, the greatest common divisor of the two
    integers up to its sign; the result is the greatest common divisor
    itself when neither operand is negative. *)
Theorem gcd_is_greatest_common_divisor (F : FloatModel)
    (Hexact : exact_upto F max_groups) (x y : BigInteger) :
  canonical x = true -> canonical y = true -> short x \/ short y ->
  exists g, gcd x y = Some g
            /\ canonical g = true
            /\ Z.abs (val g) = Z.gcd (val x) (val y)
            /\ (0 <= val x -> 0 <= val y -> val g = Z.gcd (val x) (val y)).
Proof.
  intros Cx Cy Sh.
  destruct (gcd_loop_signed Hexact (7 * size y) (14 * size y + 1) x y Cx Cy)
    as [g [Eg [Cg Vg]]].
  - apply val_bound_pow2. now apply canonical_wf.
  - lia.
  - exact Sh.
  - exists g. split; [exact Eg|]. split; [exact Cg|]. split; [exact Vg|].
    intros Px Py.
    destruct (gcd_spec Hexact x y Cx Cy Px Py Sh) as [g' [Eg' [_ Vg']]].
    unfold gcd in Eg'. congruence.
Qed.

Lemma gcd_is_greatest_common_divisor_witness :
  canonical (BigInteger_of_string (str "-1071")) = true
  /\ canonical (BigInteger_of_string (str "462")) = true
  /\ (short (BigInteger_of_string (str "-1071"))
      \/ short (BigInteger_of_string (str "462")))
  /\ exists g,
       @gcd exact_model (BigInteger_of_string (str "-1071"))
            (BigInteger_of_string (str "462")) = Some g
       /\ canonical g = true
       /\ Z.abs (val g)
          = Z.gcd (val (BigInteger_of_string (str "-1071")))
                  (val (BigInteger_of_string (str "462")))
       /\ (0 <= val (BigInteger_of_string (str "-1071")) ->
           0 <= val (BigInteger_of_string (str "462")) ->
           val g = Z.gcd (val (BigInteger_of_string (str "-1071")))
                         (val (BigInteger_of_string (str "462")))).
Proof.
  assert (S : short (BigInteger_of_string (str "-1071"))
              \/ short (BigInteger_of_string (str "462"))).
  { left. vm_compute. discriminate. }
  split; [reflexivity|]. split; [reflexivity|]. split; [exact S|].
  apply (gcd_is_greatest_common_divisor exact_model
           (exact_fft_upto exact_model max_groups exact_model_exact));
    try reflexivity.
  exact S.
Defined.

(** ** The values of [Rational] operations *)


Lemma rvalue_eq_iff (r1 r2 : Rational) :
  0 < val (denominator r1) -> 0 < val (denominator r2) ->
  (rvalue r1 == rvalue r2)%Q
  <-> rsign_Z (rsign r1) * val (numerator r1) * val (denominator r2)
      = rsign_Z (rsign r2) * val (numerator r2) * val (denominator r1).
Proof.
  intros P1 P2. unfold Qeq, rvalue. cbn [Qnum Qden].
  rewrite !Z2Pos.id by assumption. reflexivity.
Qed.

Section RationalValues.
Context {F : FloatModel}.
Hypothesis Hexact : exact_upto F max_groups.







End RationalValues.



(** ** Integers as [Rational]s *)

(** A [Rational] built from an integer denotes that integer, and its text
    is the text of the integer. *)
Theorem rational_of_integer :
  (forall n : BigInteger,
     canonical n = true ->
     (rvalue (Rational_of_BigInteger n) == inject_Z (val n))%Q
     /\ R_toString (Rational_of_BigInteger n) = toString n)
  /\ (forall x : Z,
        INT_MIN < x <= INT_MAX ->
        exists r, Rational_of_int x = Some r
                  /\ (rvalue r == inject_Z x)%Q).
Proof.
  assert (V : forall n, (rvalue (Rational_of_BigInteger n)
                         == inject_Z (val n))%Q).
  { intros n. unfold Qeq, rvalue, Rational_of_BigInteger, inject_Z.
    cbn [Qnum Qden numerator denominator rsign].
    change (val BigInteger_one) with 1. change (Z.to_pos 1) with 1%positive.
    rewrite val_set_plus, (val_sign n). reflexivity. }
  split.
  - intros n C. split; [apply V|].
    destruct (toString_spec (set_sign n plus) (canonical_wf _ C))
      as [body [E _]].
    cbn [set_sign sign] in E.
    rewrite (toString_set_plus n body E).
    unfold R_toString, Rational_of_BigInteger.
    cbn [numerator denominator rsign]. rewrite E. cbn [obind].
    change (is_one BigInteger_one) with true. cbn [negb].
    now destruct (sign n).
  - intros x Hx. destruct (BigInteger_of_int_value x Hx) as [b [E [C Vb]]].
    unfold Rational_of_int. rewrite E. cbn [obind]. eexists.
    split; [reflexivity|]. now rewrite V, Vb.
Qed.

Lemma rational_of_integer_witness :
  canonical (BigInteger_of_string (str "-123")) = true
  /\ (rvalue (Rational_of_BigInteger (BigInteger_of_string (str "-123")))
      == inject_Z (val (BigInteger_of_string (str "-123"))))%Q
  /\ R_toString (Rational_of_BigInteger (BigInteger_of_string (str "-123")))
     = toString (BigInteger_of_string (str "-123")).
Proof.
  split; [reflexivity|]. apply (proj1 rational_of_integer). reflexivity.
Defined.

(** ** Equality and order of [Rational]s *)

Lemma reduced_fraction_unique (n1 d1 n2 d2 : Z) :
  0 <= n1 -> 0 < d1 -> 0 <= n2 -> 0 < d2 ->
  Z.gcd n1 d1 = 1 -> Z.gcd n2 d2 = 1 ->
  n1 * d2 = n2 * d1 -> n1 = n2 /\ d1 = d2.
Proof.
  intros P1 Q1 P2 Q2 G1 G2 E.
  assert (D12 : (d1 | d2)).
  { apply Z.gauss with (m := n1); [|now rewrite Z.gcd_comm].
    exists n2. lia. }
  assert (D21 : (d2 | d1)).
  { apply Z.gauss with (m := n2); [|now rewrite Z.gcd_comm].
    exists n1. lia. }
  assert (Ed : d1 = d2) by (apply Z.divide_antisym_nonneg; auto; lia).
  split; [|exact Ed]. subst d2. nia.
Qed.

Lemma I3_zero_plus (r : Rational) :
  I3 r = true -> val (numerator r) = 0 -> rsign r = plus.
Proof.
  intros H Z0. apply I3_iff in H.
  destruct H as [Cn [_ [_ [_ [_ [_ Zr]]]]]]. apply Zr.
  rewrite is_zero_val by (now apply canonical_wf). now apply Z.eqb_eq.
Qed.

(** [operator==] on two [Rational]s in the form of invariant I3 holds
    exactly when they denote the same rational number, and then the two
    objects are equal member by member. *)
Theorem rational_equality (l r : Rational) :
  I3 l = true -> I3 r = true ->
  (R_eq l r = true <-> (rvalue l == rvalue r)%Q)
  /\ (R_eq l r = true <-> l = r)
  /\ R_ne l r = negb (R_eq l r).
Proof.
  intros Hl Hr.
  assert (Refl : forall t, R_eq t t = true).
  { intros t. unfold R_eq.
    destruct (Sign_eqb_spec (rsign t) (rsign t)); [|congruence].
    cbn [negb]. apply andb_true_iff. split; now apply op_eq_spec. }
  assert (Sound : R_eq l r = true -> l = r).
  { unfold R_eq.
    destruct (Sign_eqb_spec (rsign l) (rsign r)) as [S|]; cbn [negb];
      [|discriminate].
    intros H. apply andb_true_iff in H. destruct H as [N D].
    apply op_eq_spec in N, D. destruct l, r. cbn in *. now subst. }
  split; [|split; [|reflexivity]].
  - split.
    + intros H. apply Sound in H. subst. reflexivity.
    + intros V.
      destruct (I3_positive_parts _ Hl) as [_ [_ [_ [_ [Pn Pd]]]]].
      destruct (I3_positive_parts _ Hr) as [_ [_ [_ [_ [Pn' Pd']]]]].
      pose proof (I3_zero_plus l Hl) as Zl.
      pose proof (I3_zero_plus r Hr) as Zr.
      pose proof Hl as Il. pose proof Hr as Ir.
      apply I3_iff in Il, Ir.
      destruct Il as [Cn [Cd [Sn [Sd [Qd [Gl _]]]]]].
      destruct Ir as [Cn' [Cd' [Sn' [Sd' [Qd' [Gr _]]]]]].
      apply rvalue_eq_iff in V; auto.
      rewrite (val_sign (numerator l)), Sn in Zl, V, Gl.
      rewrite (val_sign (numerator r)), Sn' in Zr, V, Gr.
      cbn [rsign_Z] in *. rewrite !Z.mul_1_l in *.
      assert (S : rsign l = rsign r).
      { destruct (rsign l) eqn:Sl, (rsign r) eqn:Sr; cbn [rsign_Z] in V;
          auto.
        - symmetry. apply Zr. nia.
        - apply Zl. nia. }
      assert (E : mag (numerator l) * val (denominator r)
                  = mag (numerator r) * val (denominator l)).
      { rewrite S in V. destruct (rsign r); cbn [rsign_Z] in V; lia. }
      destruct (reduced_fraction_unique _ _ _ _ Pn Qd Pn' Qd' Gl Gr E)
        as [En Ed].
      assert (l = r).
      { destruct l as [nl dl sl], r as [nr dr sr].
        cbn [numerator denominator rsign] in *. f_equal; auto.
        - apply canonical_unique; auto. rewrite !val_sign, Sn, Sn', En.
          reflexivity.
        - now apply canonical_unique. }
      subst. apply Refl.
  - split; [exact Sound | intros ->; apply Refl].
Qed.

Lemma rational_equality_witness :
  let t := {| numerator := {| a := [1]; sign := plus |};
              denominator := {| a := [3]; sign := plus |};
              rsign := minus |} in
  let s := {| numerator := {| a := [1]; sign := plus |};
              denominator := {| a := [6]; sign := plus |};
              rsign := plus |} in
  I3 t = true /\ I3 s = true
  /\ (R_eq t s = true <-> (rvalue t == rvalue s)%Q).
Proof.
  intros t s. split; [reflexivity|]. split; [reflexivity|].
  apply rational_equality; reflexivity.
Defined.

Lemma cross_product_order (F : FloatModel)
    (Hexact : exact_upto F max_groups) (l r : Rational) :
  I3 l = true -> I3 r = true ->
  short (denominator l) -> short (denominator r) ->
  op_lt (op_mul (numerator l) (denominator r))
        (op_mul (numerator r) (denominator l))
  = (val (numerator l) * val (denominator r)
     <? val (numerator r) * val (denominator l)).
Proof.
  intros Hl Hr Sl Sr.
  destruct (I3_positive_parts _ Hl) as [Wn [Wd _]].
  destruct (I3_positive_parts _ Hr) as [Wn' [Wd' _]].
  unfold op_mul.
  destruct (op_mul_assign_spec Hexact _ _ Wn Wd' (or_intror Sr)) as [C1 V1].
  destruct (op_mul_assign_spec Hexact _ _ Wn' Wd (or_intror Sl)) as [C2 V2].
  now rewrite op_lt_spec, V1, V2 by assumption.
Qed.

Lemma rvalue_lt_iff (r1 r2 : Rational) :
  0 < val (denominator r1) -> 0 < val (denominator r2) ->
  (rvalue r1 < rvalue r2)%Q
  <-> rsign_Z (rsign r1) * val (numerator r1) * val (denominator r2)
      < rsign_Z (rsign r2) * val (numerator r2) * val (denominator r1).
Proof.
  intros P1 P2. unfold Qlt, rvalue. cbn [Qnum Qden].
  rewrite !Z2Pos.id by assumption. reflexivity.
Qed.

(** [operator<] on two [Rational]s in the form of invariant I3 with [short]
    denominators, when the transform is exact up to that length: it holds
    when the left operand denotes the smaller number, and also when both
    operands are negative and denote the same number.  So a negative
    [Rational] is less than itself, and neither [<=] nor [>=] holds between
    it and itself. *)
Theorem rational_order (F : FloatModel) (Hexact : exact_upto F max_groups)
    (l r : Rational) :
  I3 l = true -> I3 r = true ->
  short (denominator l) -> short (denominator r) ->
  (R_lt l r = true
   <-> (rvalue l < rvalue r)%Q
       \/ (rsign l = minus /\ rsign r = minus /\ (rvalue l == rvalue r)%Q))
  /\ R_gt l r = R_lt r l
  /\ R_le l r = negb (R_lt r l)
  /\ R_ge l r = negb (R_lt l r)
  /\ (rsign l = minus ->
      R_lt l l = true /\ R_le l l = false /\ R_ge l l = false).
Proof.
  intros Hl Hr Shl Shr.
  assert (Self : forall t, I3 t = true -> short (denominator t) ->
                           rsign t = minus -> R_lt t t = true).
  { intros t Ht Sh St. unfold R_lt. rewrite St. cbn [Sign_eqb negb].
    rewrite (cross_product_order F Hexact t t Ht Ht Sh Sh), Z.ltb_irrefl.
    reflexivity. }
  split; [|split; [reflexivity|split; [reflexivity|split; [reflexivity|]]]].
  - pose proof (cross_product_order F Hexact l r Hl Hr Shl Shr) as X.
    pose proof (I3_zero_plus l Hl) as Zl.
    pose proof (I3_zero_plus r Hr) as Zr.
    destruct (I3_positive_parts _ Hl) as [_ [_ [Vn [Vd [Pn Pd]]]]].
    destruct (I3_positive_parts _ Hr) as [_ [_ [Vn' [Vd' [Pn' Pd']]]]].
    rewrite <- Vn in Pn. rewrite <- Vd in Pd.
    rewrite <- Vn' in Pn'. rewrite <- Vd' in Pd'.
    rewrite rvalue_lt_iff, rvalue_eq_iff by assumption.
    unfold R_lt. rewrite X.
    destruct (rsign l) eqn:Sl, (rsign r) eqn:Sr;
      cbn [Sign_eqb negb Sign_ltb xorb rsign_Z].
    + rewrite Z.ltb_lt. split; [intros H; left; lia|].
      intros [H | [C _]]; [lia | discriminate].
    + split; [discriminate|].
      intros [H | [C _]]; [|discriminate].
      assert (val (numerator r) <> 0) by (intros E; specialize (Zr E); discriminate).
      nia.
    + split; [|reflexivity]. intros _. left.
      assert (val (numerator l) <> 0) by (intros E; specialize (Zl E); discriminate).
      nia.
    + destruct (Z.ltb_spec (val (numerator l) * val (denominator r))
                           (val (numerator r) * val (denominator l)))
        as [L|G]; cbn [xorb negb].
      * split; [discriminate|]. intros [H | [_ [_ H]]]; lia.
      * split; [intros _ | reflexivity].
        destruct (Z.eq_dec (val (numerator l) * val (denominator r))
                           (val (numerator r) * val (denominator l)));
          [right; repeat split; lia | left; lia].
  - intros Sl. pose proof (Self l Hl Shl Sl) as T.
    unfold R_le, R_ge. rewrite T. auto.
Qed.

Lemma rational_order_witness :
  let t := {| numerator := {| a := [1]; sign := plus |};
              denominator := {| a := [2]; sign := plus |};
              rsign := minus |} in
  I3 t = true /\ short (denominator t) /\ rsign t = minus
  /\ @R_lt exact_model t t = true
  /\ @R_le exact_model t t = false
  /\ @R_ge exact_model t t = false.
Proof.
  intros t.
  assert (S : short (denominator t)) by (vm_compute; discriminate).
  split; [reflexivity|]. split; [exact S|]. split; [reflexivity|].
  apply (rational_order exact_model
           (exact_fft_upto exact_model max_groups exact_model_exact)
           t t eq_refl eq_refl S S).
  reflexivity.
Defined.

(** ** Decimal rendering at any precision *)

Lemma strip_leading_length (u : list ascii) :
  (length (strip_leading u) <= length u)%nat.
Proof.
  induction u as [|x u IH]; [simpl; lia|].
  destruct u as [|y u]; [simpl; lia|].
  rewrite strip_leading_cons.
  destruct (Ascii.eqb x "0"); cbn [length] in *; lia.
Qed.

Lemma stripped_firstn (s : list ascii) (k : nat) :
  strip_leading s = s -> (1 <= k)%nat ->
  strip_leading (firstn k s) = firstn k s.
Proof.
  intros St Hk. destruct k as [|k]; [lia|].
  destruct s as [|c [|c' t]]; [reflexivity | now destruct k |].
  rewrite strip_leading_cons in St.
  destruct (Ascii.eqb c "0") eqn:E.
  - exfalso. apply (f_equal (@length ascii)) in St.
    pose proof (strip_leading_length (c' :: t)). cbn [length] in *. lia.
  - destruct k as [|k]; [reflexivity|].
    cbn [firstn]. rewrite strip_leading_cons, E. reflexivity.
Qed.

Lemma digits_split (s : list ascii) (k : nat) :
  forallb is_digit s = true ->
  forallb is_digit (firstn k s) = true /\ forallb is_digit (skipn k s) = true.
Proof.
  intros D. rewrite <- (firstn_skipn k s), forallb_app in D.
  now apply andb_true_iff in D.
Qed.

Lemma power_of_ten_literal (p : nat) :
  canonical (BigInteger_of_string ("1"%char :: repeat "0"%char p)) = true
  /\ val (BigInteger_of_string ("1"%char :: repeat "0"%char p))
     = 10 ^ Z.of_nat p.
Proof.
  assert (V : valid_body (["1"%char] ++ repeat "0"%char p) = true)
    by now apply valid_body_zeros.
  change ("1"%char :: repeat "0"%char p)
    with (["1"%char] ++ repeat "0"%char p).
  rewrite (parse_plus _ V).
  destruct (parse_body_spec _ plus V) as [W M]. cbv zeta in W, M.
  rewrite window_number_zeros in M.
  change (window_number ["1"%char]) with 1 in M. split.
  - apply canonical_iff. split; [exact W|]. now apply I2_iff.
  - rewrite val_sign, M. cbn [sign rsign_Z]. lia.
Qed.

Lemma group_sum_single (m : nat) (d : Z) :
  group_sum (repeat 0 m ++ [d]) = d.
Proof. induction m as [|m IH]; cbn [repeat app group_sum]; lia. Qed.

(** The groups of a power of ten are zeros below one group 1 or 10. *)
Lemma power_of_ten_groups (p : nat) :
  group_sum (a (BigInteger_of_string ("1"%char :: repeat "0"%char p))) <= 10.
Proof.
  destruct (power_of_ten_literal p) as [Cs Vs].
  set (x := BigInteger_of_string ("1"%char :: repeat "0"%char p)) in *.
  pose proof (canonical_wf _ Cs) as W. pose proof (mag_bound _ W) as B.
  assert (P10 : 0 < 10 ^ Z.of_nat p) by (apply Z.pow_pos_nonneg; lia).
  assert (M : mag x = 10 ^ Z.of_nat p).
  { rewrite val_sign in Vs. destruct (sign x); cbn [rsign_Z] in Vs; lia. }
  set (d := 10 ^ Z.of_nat (p mod 2)).
  assert (Hd : 1 <= d <= 10).
  { unfold d. pose proof (Nat.mod_upper_bound p 2 ltac:(lia)) as U.
    destruct (p mod 2)%nat as [|[|k]]; [cbn; lia | cbn; lia | lia]. }
  assert (E : a x = repeat 0 (p / 2) ++ [d]).
  { apply wf_iff in W. destruct W as [D T]. apply trimmed_unique; auto.
    - apply digits_app. split; [now apply forallb_repeat|].
      apply digits_cons. split; [unfold base; lia | reflexivity].
    - rewrite trimmed_snoc. destruct (Z.eqb_spec d 0); [lia | reflexivity].
    - fold (mag x). rewrite M, eval_app, eval_repeat0, repeat_length.
      cbn [eval]. unfold d, base.
      rewrite Z.mul_0_r, Z.add_0_r, Z.add_0_l.
      change 100 with (10 ^ 2).
      rewrite <- Z.pow_mul_r, <- Z.pow_add_r by lia.
      f_equal. pose proof (Nat.div_mod_eq p 2). lia. }
  rewrite E, group_sum_single. lia.
Qed.

(** [asDecimal], when the transform is exact: for a [Rational] in the form
    of invariant I3 and any precision [p] it returns the sign character of
    a negative value, an integer part without leading zeros, the decimal
    point and exactly [p] fractional digits; read together, the digits are
    [numerator * 10 ^ p / denominator] rounded down, so the magnitude is
    truncated, not rounded. *)
Theorem asDecimal_truncates (F : FloatModel) (Hexact : exact_fft F)
    (r : Rational) (p : nat) :
  I3 r = true ->
  exists ip fp,
    asDecimal r p
    = Some ((match rsign r with minus => ["-"%char] | plus => [] end)
            ++ ip ++ ["."%char] ++ fp)
    /\ valid_body ip = true /\ strip_leading ip = ip
    /\ forallb is_digit fp = true /\ length fp = p
    /\ window_number (ip ++ fp)
       = val (numerator r) * 10 ^ Z.of_nat p / val (denominator r).
Proof.
  intros H.
  destruct (I3_positive_parts _ H) as [Wn [Wd [Vn [Vd [Pn Pd]]]]].
  destruct (power_of_ten_literal p) as [Cs Vs].
  (* one group of the scale is not zero: the coefficients of the product
     are at most 990 and the carry loop stays within int *)
  pose proof (power_of_ten_groups p) as Gs.
  destruct (proj1 (wf_iff _) Wn) as [Dn _].
  destruct (proj1 (wf_iff _) (canonical_wf _ Cs)) as [Dsc _].
  pose proof (group_sum_nonneg _ Dsc) as Gp.
  destruct (op_mul_assign_bounded F
              (99 * group_sum
                      (a (BigInteger_of_string
                            ("1"%char :: repeat "0"%char p))))
              (numerator r) _
              (exact_fft_product F _ _ Hexact Dn Dsc)
              ltac:(lia) ltac:(unfold INT_MAX; lia)
              (convolution_below_sum _ _ Dn Dsc)
              Wn (canonical_wf _ Cs))
    as [Cm Vm].
  assert (P10 : 0 < 10 ^ Z.of_nat p) by (apply Z.pow_pos_nonneg; lia).
  destruct (op_div_assign_spec _ (denominator r) (canonical_wf _ Cm) Wd Pd)
    as [q [Eq [Cq Vq]]].
  rewrite Vm, Vs, Z.quot_div_nonneg in Vq by nia.
  assert (Pq : 0 <= val q).
  { rewrite Vq. apply Z.div_pos; nia. }
  pose proof (canonical_nonneg_plus q Cq Pq) as Sq.
  destruct (toString_spec q (canonical_wf _ Cq)) as [body [E [Vb [Wb St]]]].
  rewrite Sq in E.
  assert (Wq : window_number body
               = val (numerator r) * 10 ^ Z.of_nat p / val (denominator r)).
  { rewrite Wb, <- Vq, val_sign, Sq. cbn [rsign_Z]. lia. }
  pose proof Vb as Vb'. apply valid_body_iff in Vb'. destruct Vb' as [Nb Db].
  assert (Lb : (1 <= length body)%nat)
    by (destruct body; [congruence | simpl; lia]).
  unfold asDecimal. rewrite Eq. cbn [obind]. rewrite E. cbn [obind].
  set (pos := (length body - p)%nat).
  exists ((if (pos =? 0)%nat then ["0"%char] else []) ++ firstn pos body),
         (repeat "0"%char (p - (length body - pos))
          ++ firstn p (skipn pos body)).
  split; [now rewrite <- !app_assoc|].
  destruct (digits_split body pos Db) as [Df Ds].
  destruct (Nat.eqb_spec pos 0) as [Z0|NZ].
  - (* the whole text is fractional *)
    rewrite Z0 in *. cbn [firstn skipn app] in *. rewrite Nat.sub_0_r.
    assert (Lp : (length body <= p)%nat) by (unfold pos in Z0; lia).
    rewrite firstn_all2 by exact Lp.
    split; [reflexivity|]. split; [reflexivity|]. split; [|split].
    + rewrite forallb_app, Db. now rewrite forallb_repeat.
    + rewrite length_app, repeat_length. lia.
    + change ("0"%char :: repeat "0"%char (p - length body) ++ body)
        with (("0"%char :: repeat "0"%char (p - length body)) ++ body).
      rewrite window_number_app, all_zeros_number; [lia|].
      cbn [forallb]. now rewrite forallb_repeat.
  - (* the last [p] digits are fractional *)
    cbn [app].
    assert (Lp : (length body - pos = p)%nat) by (unfold pos in *; lia).
    rewrite Lp, Nat.sub_diag. cbn [repeat app].
    assert (Ls : length (skipn pos body) = p)
      by (rewrite length_skipn; exact Lp).
    rewrite (@firstn_all2 _ p (skipn pos body)) by lia.
    split; [|split; [|split; [|split]]].
    + apply valid_body_iff. split; [|exact Df].
      intros C. apply (f_equal (@length ascii)) in C.
      rewrite length_firstn in C. simpl in C. lia.
    + apply stripped_firstn; [exact St | lia].
    + exact Ds.
    + exact Ls.
    + now rewrite firstn_skipn.
Qed.

Lemma asDecimal_truncates_witness :
  let t := {| numerator := {| a := [2]; sign := plus |};
              denominator := {| a := [3]; sign := plus |};
              rsign := minus |} in
  I3 t = true
  /\ exists ip fp,
       @asDecimal exact_model t 4
       = Some ((match rsign t with minus => ["-"%char] | plus => [] end)
               ++ ip ++ ["."%char] ++ fp)
       /\ valid_body ip = true /\ strip_leading ip = ip
       /\ forallb is_digit fp = true /\ length fp = 4%nat
       /\ window_number (ip ++ fp)
          = val (numerator t) * 10 ^ Z.of_nat 4 / val (denominator t).
Proof.
  intros t. split; [reflexivity|].
  apply (asDecimal_truncates exact_model exact_model_exact). reflexivity.
Defined.

(** ** The private helpers on magnitudes *)

(** [less_abs] on well-formed operands is the strict order of the
    magnitudes: it holds exactly when the first magnitude is the smaller,
    two operands it separates in neither direction have the same groups,
    and the signs play no part. *)
Theorem less_abs_orders_magnitudes (x y : BigInteger) :
  wf x = true -> wf y = true ->
  (less_abs x y = true <-> mag x < mag y)
  /\ (less_abs x y = false -> less_abs y x = false -> a x = a y)
  /\ (forall s t, less_abs (set_sign x s) (set_sign y t) = less_abs x y).
Proof.
  intros Wx Wy. split; [|split; [|reflexivity]].
  - rewrite (less_abs_spec x y Wx Wy). apply Z.ltb_lt.
  - rewrite (less_abs_spec x y Wx Wy), (less_abs_spec y x Wy Wx).
    intros L1 L2. apply Z.ltb_ge in L1, L2.
    apply wf_iff in Wx, Wy. destruct Wx as [Dx Tx], Wy as [Dy Ty].
    apply trimmed_unique; auto. unfold mag in *. lia.
Qed.

Lemma less_abs_orders_magnitudes_witness :
  wf (BigInteger_of_string (str "-999999999")) = true
  /\ wf (BigInteger_of_string (str "1000000000")) = true
  /\ (less_abs (BigInteger_of_string (str "-999999999"))
               (BigInteger_of_string (str "1000000000")) = true
      <-> mag (BigInteger_of_string (str "-999999999"))
          < mag (BigInteger_of_string (str "1000000000"))).
Proof.
  split; [reflexivity|]. split; [reflexivity|].
  apply less_abs_orders_magnitudes; reflexivity.
Defined.

(** [div10] applied [k] times to a well-formed value divides the magnitude
    by [10 ^ k], rounding down, keeps the groups well formed and keeps the
    sign; since the sign is never reset, a negative value whose magnitude
    reaches zero is left as a negative zero, outside the canonical form. *)
Theorem div10_drops_digits (x : BigInteger) (k : nat) :
  wf x = true ->
  wf (Nat.iter k div10 x) = true
  /\ mag (Nat.iter k div10 x) = mag x / 10 ^ Z.of_nat k
  /\ sign (Nat.iter k div10 x) = sign x
  /\ (sign x = minus -> mag x < 10 ^ Z.of_nat k ->
      canonical (Nat.iter k div10 x) = false).
Proof.
  intros W.
  assert (G : wf (Nat.iter k div10 x) = true
              /\ mag (Nat.iter k div10 x) = mag x / 10 ^ Z.of_nat k
              /\ sign (Nat.iter k div10 x) = sign x).
  { induction k as [|k [IW [IM IS]]].
    - change (Nat.iter 0 div10 x) with x. change (10 ^ Z.of_nat 0) with 1.
      rewrite Z.div_1_r. auto.
    - change (Nat.iter (S k) div10 x) with (div10 (Nat.iter k div10 x)).
      destruct (div10_spec _ IW) as [W' [M' S']].
      split; [exact W'|]. split; [|congruence].
      rewrite M', IM, Nat2Z.inj_succ, Z.pow_succ_r by lia.
      assert (0 < 10 ^ Z.of_nat k) by (apply Z.pow_pos_nonneg; lia).
      rewrite Z.div_div by lia. f_equal. lia. }
  destruct G as [GW [GM GS]].
  split; [exact GW|]. split; [exact GM|]. split; [exact GS|].
  intros Sx Small. pose proof (mag_bound _ W) as B.
  unfold canonical, I2. rewrite GW, is_zero_mag, GM by exact GW.
  rewrite Z.div_small by lia. cbn. rewrite GS, Sx. reflexivity.
Qed.

Lemma div10_drops_digits_witness :
  wf (BigInteger_of_string (str "-12345678901")) = true
  /\ mag (Nat.iter 3 div10 (BigInteger_of_string (str "-12345678901")))
     = mag (BigInteger_of_string (str "-12345678901")) / 10 ^ Z.of_nat 3.
Proof.
  split; [reflexivity|].
  apply (div10_drops_digits (BigInteger_of_string (str "-12345678901")) 3).
  reflexivity.
Defined.

(** [abs_subtract_small_from_big], called with the smaller magnitude on the
    side its flag names, leaves the distance between the two magnitudes in
    well-formed groups and keeps the sign of [*this]. *)
Theorem abs_subtract_is_distance (this small : BigInteger) (fl : bool) :
  wf this = true -> wf small = true ->
  (if fl then mag this <= mag small else mag small <= mag this) ->
  wf (abs_subtract_small_from_big this small fl) = true
  /\ mag (abs_subtract_small_from_big this small fl)
     = Z.abs (mag this - mag small)
  /\ sign (abs_subtract_small_from_big this small fl) = sign this.
Proof.
  intros Wt Ws Ord. destruct fl.
  - destruct (abs_subtract_true this small Wt Ws Ord) as [W [M S]].
    split; [exact W|]. split; [|exact S]. rewrite M. lia.
  - destruct (abs_subtract_false this small Wt Ws Ord) as [W [M S]].
    split; [exact W|]. split; [|exact S]. rewrite M. lia.
Qed.

Lemma abs_subtract_is_distance_witness :
  wf (BigInteger_of_string (str "-5")) = true
  /\ wf (BigInteger_of_string (str "3000000000")) = true
  /\ mag (BigInteger_of_string (str "-5"))
     <= mag (BigInteger_of_string (str "3000000000"))
  /\ mag (abs_subtract_small_from_big (BigInteger_of_string (str "-5"))
            (BigInteger_of_string (str "3000000000")) true)
     = Z.abs (mag (BigInteger_of_string (str "-5"))
              - mag (BigInteger_of_string (str "3000000000"))).
Proof.
  split; [reflexivity|]. split; [reflexivity|].
  split; [vm_compute; discriminate|].
  apply (abs_subtract_is_distance (BigInteger_of_string (str "-5"))
           (BigInteger_of_string (str "3000000000")) true);
    [reflexivity | reflexivity | vm_compute; discriminate].
Defined.

(** ** The length of the transform *)

Lemma grow_power_of_two (fuel j m : nat) :
  exists k, (j <= k)%nat /\ grow fuel (2 ^ j) m = (2 ^ k)%nat.
Proof.
  revert j. induction fuel as [|fuel IH]; intros j; cbn [grow].
  - exists j. split; [lia | reflexivity].
  - destruct (2 ^ j <? m)%nat.
    + change (2 * 2 ^ j)%nat with (2 ^ S j)%nat.
      destruct (IH (S j)) as [k [L E]]. exists k. split; [lia | exact E].
    + exists j. split; [lia | reflexivity].
Qed.

Lemma grow_below_twice (fuel n m : nat) :
  (n < 2 * m)%nat -> (grow fuel n m < 2 * m)%nat.
Proof.
  revert n. induction fuel as [|fuel IH]; intros n H; cbn [grow]; [exact H|].
  destruct (Nat.ltb_spec n m) as [L|G]; [|exact H]. apply IH. lia.
Qed.

(** The length [operator*=] chooses for the transform is a power of two,
    at least two, with room for every group of the product, and less than
    four times the longer operand. *)
Theorem fft_size_is_power_of_two (sa sb : nat) :
  (exists k, (1 <= k)%nat /\ fft_size sa sb = (2 ^ k)%nat)
  /\ (sa + sb <= fft_size sa sb)%nat
  /\ (fft_size sa sb < 4 * Nat.max 1 (Nat.max sa sb))%nat.
Proof.
  split; [|split].
  - unfold fft_size.
    destruct (grow_power_of_two (Nat.max sa sb) 0 (Nat.max sa sb))
      as [k [_ E]].
    change (2 ^ 0)%nat with 1%nat in E. exists (S k). split; [lia|].
    cbv zeta. rewrite E. reflexivity.
  - apply fft_size_ge.
  - unfold fft_size. cbv zeta.
    destruct (Nat.max sa sb) as [|m] eqn:M.
    + cbn. lia.
    + pose proof (grow_below_twice (S m) 1 (S m) ltac:(lia)). lia.
Qed.

(** ** Truth values *)

(** The conversion to [bool] of a well-formed [BigInteger] tells whether
    its value is not zero, and that of a [Rational] in the form of invariant
    I3 whether the rational it denotes is not zero; [is_one] looks at the
    groups only, so it also accepts minus one. *)
Theorem truth_values :
  (forall x : BigInteger,
     wf x = true ->
     op_bool x = negb (val x =? 0)
     /\ is_one x = (Z.abs (val x) =? 1))
  /\ (forall r : Rational,
        I3 r = true -> (R_bool r = true <-> ~ (rvalue r == 0)%Q)).
Proof.
  split.
  - intros x W. split.
    + unfold op_bool. now rewrite is_zero_val.
    + pose proof (mag_bound _ W) as B.
      assert (A : Z.abs (val x) = mag x).
      { rewrite val_sign. destruct (sign x); cbn [rsign_Z]; lia. }
      rewrite A. apply wf_iff in W. destruct W as [D T].
      destruct (Z.eqb_spec (mag x) 1) as [E|N].
      * assert (Ax : a x = [1]) by (apply trimmed_unique; auto).
        unfold is_one. now rewrite Ax.
      * unfold is_one. destruct (a x) as [|d [|e l]] eqn:Ax; try reflexivity.
        destruct (Z.eqb_spec d 1) as [->|]; [|reflexivity].
        exfalso. apply N. unfold mag. rewrite Ax. reflexivity.
  - intros r H. destruct (I3_positive_parts r H) as [Wn [_ [Vn [_ [Pn _]]]]].
    unfold R_bool, Rational_is_zero. rewrite is_zero_val by exact Wn.
    unfold Qeq, rvalue. cbn [Qnum Qden].
    rewrite negb_true_iff, Z.eqb_neq. rewrite Z.mul_0_l, Z.mul_1_r.
    destruct (rsign r); cbn [rsign_Z]; lia.
Qed.

Lemma truth_values_witness :
  wf (BigInteger_of_string (str "-1")) = true
  /\ op_bool (BigInteger_of_string (str "-1"))
     = negb (val (BigInteger_of_string (str "-1")) =? 0)
  /\ is_one (BigInteger_of_string (str "-1"))
     = (Z.abs (val (BigInteger_of_string (str "-1"))) =? 1).
Proof.
  split; [reflexivity|].
  apply (proj1 truth_values (BigInteger_of_string (str "-1"))). reflexivity.
Defined.

(** ** Normalisation of a reduced [Rational] *)

(** [normalize] returns a [Rational] that is already in the form of
    invariant I3 unchanged, when its numerator or its denominator is [short]
    and the transform is exact up to that length: the greatest common
    divisor it computes is one and nothing is divided. *)
Theorem normalize_fixes_reduced (F : FloatModel)
    (Hexact : exact_upto F max_groups) (r : Rational) :
  I3 r = true -> short (numerator r) \/ short (denominator r) ->
  normalize r = Some r.
Proof.
  intros H Sh. apply I3_iff in H.
  destruct H as [Cn [Cd [Sn [Sd [Pd [G Zr]]]]]].
  destruct r as [[an sn] [ad sd] sg].
  cbn [numerator denominator rsign a sign] in *. subst sn sd.
  pose proof (mag_bound _ (canonical_wf _ Cn)) as Bn.
  assert (Pn : 0 <= val {| a := an; sign := plus |}).
  { rewrite val_sign. cbn [sign rsign_Z]. lia. }
  destruct (gcd_spec Hexact _ _ Cn Cd Pn ltac:(lia) Sh) as [g [Eg [Cg Vg]]].
  unfold normalize. cbn [numerator denominator rsign sign].
  change (set_sign {| a := an; sign := plus |} plus)
    with {| a := an; sign := plus |}.
  rewrite Eg. cbn [obind].
  rewrite (is_one_val g Cg) by (rewrite Vg; apply Z.gcd_nonneg).
  rewrite Vg, G. cbn [Z.eqb Pos.eqb].
  do 2 f_equal.
  destruct (is_zero {| a := an; sign := plus |}) eqn:Z0.
  - symmetry. now apply Zr.
  - now destruct sg.
Qed.

Lemma normalize_fixes_reduced_witness :
  let t := {| numerator := {| a := [2]; sign := plus |};
              denominator := {| a := [3]; sign := plus |};
              rsign := minus |} in
  I3 t = true
  /\ (short (numerator t) \/ short (denominator t))
  /\ @normalize exact_model t = Some t.
Proof.
  intros t.
  assert (S : short (numerator t) \/ short (denominator t)).
  { left. vm_compute. discriminate. }
  split; [reflexivity|]. split; [exact S|].
  apply (normalize_fixes_reduced exact_model
           (exact_fft_upto exact_model max_groups exact_model_exact)).
  - reflexivity.
  - exact S.
Defined.

(** ** The text of a [Rational] *)

Lemma digit_prefix_unique (n1 n2 t1 t2 : list ascii) :
  forallb is_digit n1 = true -> forallb is_digit n2 = true ->
  (forall c t, t1 = c :: t -> is_digit c = false) ->
  (forall c t, t2 = c :: t -> is_digit c = false) ->
  n1 ++ t1 = n2 ++ t2 -> n1 = n2 /\ t1 = t2.
Proof.
  revert n2. induction n1 as [|c n1 IH]; intros [|d n2] D1 D2 H1 H2 E;
    cbn [app forallb] in *.
  - auto.
  - apply andb_true_iff in D2. destruct D2 as [Dd _].
    rewrite (H1 _ _ E) in Dd. discriminate.
  - apply andb_true_iff in D1. destruct D1 as [Dc _].
    rewrite (H2 _ _ (eq_sym E)) in Dc. discriminate.
  - apply andb_true_iff in D1, D2. destruct D1 as [_ D1], D2 as [_ D2].
    injection E as -> E. destruct (IH n2 D1 D2 H1 H2 E) as [-> ->]. auto.
Qed.

Lemma R_toString_form (r : Rational) :
  I3 r = true ->
  exists n d,
    valid_body n = true /\ window_number n = val (numerator r)
    /\ valid_body d = true /\ window_number d = val (denominator r)
    /\ strip_leading n = n /\ strip_leading d = d
    /\ R_toString r
       = Some ((match rsign r with minus => ["-"%char] | plus => [] end)
               ++ n
               ++ (if val (denominator r) =? 1 then []
                   else "/"%char :: d)).
Proof.
  intros H. destruct (I3_positive_parts r H) as [Wn [Wd [Vn [Vd [Pn Pd]]]]].
  apply I3_iff in H. destruct H as [Cn [Cd [Sn [Sd _]]]].
  destruct (toString_spec _ Wn) as [n [En [Vbn [Wwn Stn]]]].
  destruct (toString_spec _ Wd) as [d [Ed [Vbd [Wwd Std]]]].
  rewrite Sn in En. rewrite Sd in Ed.
  exists n, d. rewrite Vn, Vd.
  repeat (split; [assumption|]).
  unfold R_toString. rewrite En. cbn [obind].
  rewrite (is_one_val _ Cd) by lia. rewrite Vd.
  destruct (mag (denominator r) =? 1); cbn [negb].
  - now rewrite app_nil_r.
  - rewrite Ed. cbn [obind]. now rewrite <- !app_assoc.
Qed.

(** [Rational::toString] on the form of invariant I3 returns a text, and
    two such [Rational]s with the same text are the same object: the text
    determines the sign, the numerator and the denominator. *)
Theorem rational_text_is_injective (l r : Rational) :
  I3 l = true -> I3 r = true ->
  (exists s, R_toString l = Some s)
  /\ (R_toString l = R_toString r -> l = r).
Proof.
  intros Hl Hr.
  destruct (R_toString_form l Hl)
    as [n1 [d1 [Vn1 [Wn1 [Vd1 [Wd1 [Sn1 [Sd1 E1]]]]]]]].
  destruct (R_toString_form r Hr)
    as [n2 [d2 [Vn2 [Wn2 [Vd2 [Wd2 [Sn2 [Sd2 E2]]]]]]]].
  split; [eexists; exact E1|].
  rewrite E1, E2. intros E. injection E as E.
  pose proof Vn1 as Q1. pose proof Vn2 as Q2.
  apply valid_body_iff in Q1, Q2. destruct Q1 as [N1 D1], Q2 as [N2 D2].
  assert (Tail : forall (b : bool) (dd : list ascii) (c : ascii)
                        (t : list ascii),
             (if b then [] else "/"%char :: dd) = c :: t ->
             is_digit c = false).
  { intros b dd c t. destruct b; [discriminate|]. now intros [= <- _]. }
  assert (Split : rsign l = rsign r
                  /\ n1 = n2
                  /\ (if val (denominator l) =? 1 then []
                      else "/"%char :: d1)
                     = (if val (denominator r) =? 1 then []
                        else "/"%char :: d2)).
  { destruct (rsign l), (rsign r); cbn [app] in E.
    - destruct (digit_prefix_unique _ _ _ _ D1 D2
                  (Tail _ _) (Tail _ _) E); auto.
    - exfalso. destruct n1 as [|c n1]; [congruence|].
      cbn [app forallb] in *. injection E as -> _. discriminate.
    - exfalso. destruct n2 as [|c n2]; [congruence|].
      cbn [app forallb] in *. injection E as <- _. discriminate.
    - injection E as E.
      destruct (digit_prefix_unique _ _ _ _ D1 D2
                  (Tail _ _) (Tail _ _) E); auto. }
  destruct Split as [Sg [En Et]].
  assert (Vnum : val (numerator l) = val (numerator r)) by congruence.
  assert (Vden : val (denominator l) = val (denominator r)).
  { destruct (Z.eqb_spec (val (denominator l)) 1) as [A|A],
             (Z.eqb_spec (val (denominator r)) 1) as [B|B];
      try discriminate; [congruence|].
    injection Et as Et. congruence. }
  apply I3_iff in Hl, Hr.
  destruct Hl as [Cn1 [Cd1 _]], Hr as [Cn2 [Cd2 _]].
  pose proof (canonical_unique _ _ Cn1 Cn2 Vnum) as An.
  pose proof (canonical_unique _ _ Cd1 Cd2 Vden) as Ad.
  destruct l as [ln ld ls], r as [rn rd rs].
  cbn [numerator denominator rsign] in *. congruence.
Qed.

Lemma rational_text_is_injective_witness :
  let t := {| numerator := {| a := [2]; sign := plus |};
              denominator := {| a := [3]; sign := plus |};
              rsign := minus |} in
  I3 t = true /\ exists s, R_toString t = Some s.
Proof.
  intros t. split; [reflexivity|].
  apply (rational_text_is_injective t t); reflexivity.
Defined.
